(** * Holographic wireframe overlays: [iaret/tools/generate_holo.py]

    A shallow embedding of [create_wireframe] and of the Pillow and NumPy
    primitives it calls, followed by the properties of the pipeline.

    - [Float]  : IEEE-754 binary32/binary64 arithmetic (round to nearest even)
                 on [spec_float], as NumPy performs it.
    - [Grid]   : a height x width raster, the common shape of a Pillow image
                 and of a 2-D NumPy array.
    - [np]     : the NumPy element-wise operations the source uses.
    - [PIL]    : [Image.convert("L")], [Image.filter] with a convolution
                 kernel, [ImageFilter.GaussianBlur], [Image.alpha_composite].
    - the pipeline itself, one definition per variable of the source.
    - the file system [create_wireframe] reads and writes, with the ways
      [Image.open], [Image.save] and [Path.mkdir] fail.
    - [main], the loop over [MAPPINGS].
    - the combined edge grid and the glow compositor in the words of the
      specification, in exact arithmetic. *)

From Stdlib Require Import ZArith List Bool Lia SpecFloat.
From Stdlib Require Import Init.Byte.
From Stdlib Require QArith Qround Qminmax.
From stdpp Require Import base option list gmap strings.

Local Open Scope Z_scope.

(* ===================================================================== *)
(** ** IEEE-754 arithmetic *)
(* ===================================================================== *)

Module Float.

Record format := { prec : Z; emax : Z }.

Definition binary32 : format := {| prec := 24; emax := 128 |}.
Definition binary64 : format := {| prec := 53; emax := 1024 |}.

Definition of_Z (fmt : format) (z : Z) : spec_float :=
  binary_normalize (prec fmt) (emax fmt) z 0 false.

Definition mul (fmt : format) : spec_float -> spec_float -> spec_float :=
  SFmul (prec fmt) (emax fmt).
Definition add (fmt : format) : spec_float -> spec_float -> spec_float :=
  SFadd (prec fmt) (emax fmt).
Definition sub (fmt : format) : spec_float -> spec_float -> spec_float :=
  SFsub (prec fmt) (emax fmt).
Definition div (fmt : format) : spec_float -> spec_float -> spec_float :=
  SFdiv (prec fmt) (emax fmt).
Definition sqrt (fmt : format) : spec_float -> spec_float :=
  SFsqrt (prec fmt) (emax fmt).

(** Conversion of a value of another format: one rounding. *)
Definition cast (fmt : format) (x : spec_float) : spec_float :=
  match x with
  | S754_finite s m e => binary_round (prec fmt) (emax fmt) s m e
  | _ => x
  end.

(** Conversion to an integer: the fraction is discarded (C cast). *)
Definition trunc (x : spec_float) : Z :=
  match x with
  | S754_finite s m e =>
      cond_Zopp s
        match e with
        | Z0 => Zpos m
        | Zpos _ => Zpos m * 2 ^ e
        | Zneg p => Zpos m / 2 ^ Zpos p
        end
  | _ => 0
  end.

(** A Python float literal with decimal value [n / d]: the binary64
    number nearest to the quotient. *)
Definition literal (n d : Z) : spec_float :=
  div binary64 (of_Z binary64 n) (of_Z binary64 d).

(** [min(max(x, lo), hi)]. *)
Definition clip (x lo hi : spec_float) : spec_float :=
  if SFltb x lo then lo else if SFltb hi x then hi else x.

End Float.

(* ===================================================================== *)
(** ** Rasters *)
(* ===================================================================== *)

(** The value read outside a raster (never observed by the pipeline at a
    pixel position of the image). *)
Class Blank (A : Type) := blank : A.

#[export] Instance blank_Z : Blank Z := 0.
#[export] Instance blank_bool : Blank bool := false.
#[export] Instance blank_float : Blank spec_float := S754_zero false.

(** [rows] is indexed [y] first, then [x], as [result[y, x]] in the source. *)
Record Grid (A : Type) := mkGrid {
  ysize : nat;
  xsize : nat;
  rows : list (list A)
}.
Arguments mkGrid {A}.
Arguments ysize {A}.
Arguments xsize {A}.
Arguments rows {A}.

Module Grid.

Definition get {A} `{Blank A} (g : Grid A) (y x : nat) : A :=
  match rows g !! y with
  | Some row => default blank (row !! x)
  | None => blank
  end.

Definition init {A} (h w : nat) (f : nat -> nat -> A) : Grid A :=
  mkGrid h w ((fun y => f y <$> seq 0 w) <$> seq 0 h).

Definition map {A B} `{Blank A} (f : A -> B) (g : Grid A) : Grid B :=
  init (ysize g) (xsize g) (fun y x => f (get g y x)).

Definition map2 {A B C} `{Blank A} `{Blank B}
    (f : A -> B -> C) (g1 : Grid A) (g2 : Grid B) : Grid C :=
  init (ysize g1) (xsize g1) (fun y x => f (get g1 y x) (get g2 y x)).

Definition map3 {A B C D} `{Blank A} `{Blank B} `{Blank C}
    (f : A -> B -> C -> D) (g1 : Grid A) (g2 : Grid B) (g3 : Grid C) : Grid D :=
  init (ysize g1) (xsize g1)
       (fun y x => f (get g1 y x) (get g2 y x) (get g3 y x)).

(** [ysize] rows of [xsize] samples each. *)
Definition wf {A} (g : Grid A) : Prop :=
  length (rows g) = ysize g /\ Forall (fun row => length row = xsize g) (rows g).

Definition same_size {A B} (g1 : Grid A) (g2 : Grid B) : bool :=
  (ysize g1 =? ysize g2)%nat && (xsize g1 =? xsize g2)%nat.

End Grid.

(* ===================================================================== *)
(** ** Pixels *)
(* ===================================================================== *)

(** An 8-bit RGBA sample of a decoded file. *)
Record rgba8 := mkRgba8 { R8 : byte; G8 : byte; B8 : byte; A8 : byte }.

#[export] Instance blank_rgba8 : Blank rgba8 := mkRgba8 x00 x00 x00 x00.

(** A pixel of a [(h, w, 4)] [uint8] array. *)
Record rgba := mkRgba { red : Z; green : Z; blue : Z; alpha : Z }.

#[export] Instance blank_rgba : Blank rgba := mkRgba 0 0 0 0.

(** The last index of [result[mask, c]]. *)
Inductive band := band0 | band1 | band2 | band3.

Definition set_band (c : band) (v : Z) (p : rgba) : rgba :=
  match c with
  | band0 => mkRgba v (green p) (blue p) (alpha p)
  | band1 => mkRgba (red p) v (blue p) (alpha p)
  | band2 => mkRgba (red p) (green p) v (alpha p)
  | band3 => mkRgba (red p) (green p) (blue p) v
  end.

Definition get_band (c : band) (p : rgba) : Z :=
  match c with
  | band0 => red p
  | band1 => green p
  | band2 => blue p
  | band3 => alpha p
  end.

Definition byte_to_Z (b : byte) : Z := Z.of_N (Byte.to_N b).

Definition byte_of_Z (z : Z) : byte :=
  match Byte.of_N (Z.to_N z) with
  | Some b => b
  | None => x00
  end.

(** Storing into a [UINT8] / [np.uint8] cell. *)
Definition u8 (z : Z) : Z := z mod 256.

(** Arithmetic on [UINT32]. *)
Definition u32 (z : Z) : Z := z mod 2 ^ 32.

Definition Image := Grid rgba8.

(* ===================================================================== *)
(** ** NumPy *)
(* ===================================================================== *)

Module np.

Import Float.

(** [np.array(im, dtype=np.float32)] of an ["L"] image. *)
Definition array_float32 (im : Grid Z) : Grid spec_float :=
  Grid.map (of_Z binary32) im.

(** [a * c] for a [float32] array and a Python float: the scalar is
    converted to [float32], the product is a [float32]. *)
Definition mul_f32 (a : Grid spec_float) (c : spec_float) : Grid spec_float :=
  Grid.map (fun v => mul binary32 v (cast binary32 c)) a.

(** [a + b] for two [float32] arrays. *)
Definition add_f32 (a b : Grid spec_float) : Grid spec_float :=
  Grid.map2 (add binary32) a b.

(** [a * c] for a [uint8] array and a Python float: a [float64] array. *)
Definition mul_u8 (a : Grid Z) (c : spec_float) : Grid spec_float :=
  Grid.map (fun v => mul binary64 (of_Z binary64 v) c) a.

(** [np.clip(a, lo, hi)] with integer bounds, in the format of [a]. *)
Definition clip (fmt : format) (a : Grid spec_float) (lo hi : Z) : Grid spec_float :=
  Grid.map (fun v => Float.clip v (of_Z fmt lo) (of_Z fmt hi)) a.

(** [a.astype(np.uint8)] of a float array. *)
Definition astype_uint8 (a : Grid spec_float) : Grid Z :=
  Grid.map (fun v => u8 (trunc v)) a.

(** [a[a < t] = v]. *)
Definition assign_where_lt (a : Grid Z) (t v : Z) : Grid Z :=
  Grid.map (fun s => if s <? t then v else s) a.

(** [a > t] for a [uint8] array. *)
Definition gt (a : Grid Z) (t : Z) : Grid bool :=
  Grid.map (fun s => t <? s) a.

(** [a > t] for a float array. *)
Definition gt_f (fmt : format) (a : Grid spec_float) (t : Z) : Grid bool :=
  Grid.map (fun s => SFltb (of_Z fmt t) s) a.

(** [m1 & ~m2]. *)
Definition and_not (m1 m2 : Grid bool) : Grid bool :=
  Grid.map2 (fun b1 b2 => b1 && negb b2) m1 m2.

(** [np.zeros((h, w, 4), dtype=np.uint8)]. *)
Definition zeros (h w : nat) : Grid rgba :=
  Grid.init h w (fun _ _ => mkRgba 0 0 0 0).

(** [result[mask, c] = v] for a scalar [v]. *)
Definition store_scalar (mask : Grid bool) (c : band) (v : Z) (result : Grid rgba)
  : Grid rgba :=
  Grid.map2 (fun p (m : bool) => if m then set_band c (u8 v) p else p) result mask.

(** [result[mask, c] = values[mask]]: the selected cells of [values] go
    to the selected cells of [result], in the same row-major order. *)
Definition store_masked (mask : Grid bool) (c : band) (values : Grid Z)
    (result : Grid rgba) : Grid rgba :=
  Grid.map3 (fun p (m : bool) v => if m then set_band c v p else p) result mask values.

(** [a[:, :, c]]. *)
Definition channel (c : band) (a : Grid rgba) : Grid Z :=
  Grid.map (get_band c) a.

(** [a[:, :, c] = values]. *)
Definition store_channel (c : band) (values : Grid Z) (a : Grid rgba) : Grid rgba :=
  Grid.map2 (fun p v => set_band c v p) a values.

End np.

(* ===================================================================== *)
(** ** Pillow *)
(* ===================================================================== *)

Module PIL.

Import Float.

(** *** [Image.convert("L")]

    For an RGBA source Pillow uses [rgb2l]: the ITU-R 601-2 luma with
    16-bit fixed-point weights; the alpha band is not read. *)
Definition L24 (p : rgba8) : Z :=
  byte_to_Z (R8 p) * 19595 + byte_to_Z (G8 p) * 38470 + byte_to_Z (B8 p) * 7471 + 32768.

Definition rgb2l (p : rgba8) : Z := u8 (Z.shiftr (L24 p) 16).

Definition convert_L (im : Image) : Grid Z := Grid.map rgb2l im.

(** *** [Image.filter] with a convolution kernel

    [ksize] is the side of the kernel: Pillow accepts 3 and 5 only. *)
Inductive ksize := K3 | K5.

Definition border (s : ksize) : nat :=
  match s with K3 => 1%nat | K5 => 2%nat end.

Definition side (s : ksize) : nat := (2 * border s + 1)%nat.

(** [ImageFilter.Kernel(size, kernel, scale, offset)].  Every kernel of
    the program has [scale = 1], so the weights are used as they are. *)
Record Kernel := mkKernel {
  size : ksize;
  kernel : list Z;
  scale : Z;
  offset : Z
}.

Definition laplacian3 : list Z := [-1; -1; -1; -1; 8; -1; -1; -1; -1].

Definition FIND_EDGES : Kernel := mkKernel K3 laplacian3 1 0.

(** The contour filter is the same kernel on a white background. *)
Definition CONTOUR : Kernel := mkKernel K3 laplacian3 1 255.

(** [clip8] of [v + 0.5] for an integer [v]. *)
Definition clip8 (v : Z) : Z :=
  if v <=? 0 then 0 else if 255 <=? v then 255 else v.

(** The sum of the window around [(y, x)]: weight row [j] meets image
    row [y + border - j].  The operands are integers below [2^24], so
    the [float] accumulation of the library is exact. *)
Definition weighted_sum (k : Kernel) (im : Grid Z) (y x : nat) : Z :=
  let b := border (size k) in
  let n := side (size k) in
  fold_right Z.add 0
    (flat_map
       (fun j => List.map
                   (fun i => nth (j * n + i) (kernel k) 0
                             * Grid.get im (y + b - j) (x + i - b))
                   (seq 0 n))
       (seq 0 n)).

Definition interior (k : Kernel) (im : Grid Z) (y x : nat) : bool :=
  let b := border (size k) in
  (b <=? y)%nat && (y + b <? ysize im)%nat && (b <=? x)%nat && (x + b <? xsize im)%nat.

(** An image smaller than the kernel is returned as it is; otherwise the
    [border]-wide frame of the image is copied from the input and every
    other pixel is the clipped window sum plus [offset]. *)
Definition filter (k : Kernel) (im : Grid Z) : Grid Z :=
  if ((xsize im <? side (size k))%nat || (ysize im <? side (size k))%nat)%bool
  then im
  else Grid.init (ysize im) (xsize im)
         (fun y x =>
            if interior k im y x
            then clip8 (offset k + weighted_sum k im y x)
            else Grid.get im y x).

(** *** [ImageFilter.GaussianBlur]

    Pillow approximates the Gaussian by [passes = 3] box blurs of a
    fractional radius, first along the rows, then along the columns. *)
Definition gaussian_box_radius (radius passes : Z) : spec_float :=
  let f32 := of_Z binary32 in
  let f64 := of_Z binary64 in
  let sigma2 := div binary32 (mul binary32 (f32 radius) (f32 radius)) (f32 passes) in
  let L := cast binary32
             (sqrt binary64 (add binary64 (mul binary64 (f64 12) (cast binary64 sigma2))
                                          (f64 1))) in
  let l := f32 (trunc (div binary64 (sub binary64 (cast binary64 L) (f64 1)) (f64 2))) in
  let a := mul binary32
             (add binary32 (mul binary32 (f32 2) l) (f32 1))
             (sub binary32 (mul binary32 l (add binary32 l (f32 1)))
                           (mul binary32 (f32 3) sigma2)) in
  let a := div binary32 a
             (mul binary32 (f32 6)
                (sub binary32 sigma2
                   (mul binary32 (add binary32 l (f32 1)) (add binary32 l (f32 1))))) in
  add binary32 l a.

(** The integer radius and the fixed-point weights (24 fractional bits)
    of the full cells ([ww]) and of the two fractional end cells ([fw]). *)
Definition box_weights (floatRadius : spec_float) : Z * Z * Z :=
  let radius := trunc floatRadius in
  let ww := u32 (trunc (div binary32 (of_Z binary32 (2 ^ 24))
                          (add binary32 (mul binary32 floatRadius (of_Z binary32 2))
                                        (of_Z binary32 1)))) in
  let fw := u32 (2 ^ 24 - (radius * 2 + 1) * ww) / 2 in
  (radius, ww, fw).

Definition clamp_index (lastx i : Z) : nat := Z.to_nat (Z.max 0 (Z.min lastx i)).

(** One output sample of a line: the running sum of the library, written
    as the sum over the window with indices clamped to the line. *)
Definition box_sample (radius ww fw lastx : Z) (line : nat -> Z) (x : nat) : Z :=
  let at_ i := line (clamp_index lastx i) in
  let acc :=
    fold_right Z.add 0
      (List.map (fun d => at_ (Z.of_nat x - radius + Z.of_nat d))
                (seq 0 (Z.to_nat (2 * radius + 1)))) in
  let far := at_ (Z.of_nat x - radius - 1) + at_ (Z.of_nat x + radius + 1) in
  let bulk := u32 (u32 (acc * ww) + u32 (far * fw)) in
  u8 (Z.shiftr (u32 (bulk + 2 ^ 23)) 24).

Definition ImagingHorizontalBoxBlur (floatRadius : spec_float) (im : Grid rgba)
  : Grid rgba :=
  let '(radius, ww, fw) := box_weights floatRadius in
  let lastx := Z.of_nat (xsize im) - 1 in
  Grid.init (ysize im) (xsize im)
    (fun y x =>
       let s c := box_sample radius ww fw lastx
                    (fun i => get_band c (Grid.get im y i)) x in
       mkRgba (s band0) (s band1) (s band2) (s band3)).

Definition ImagingTranspose (im : Grid rgba) : Grid rgba :=
  Grid.init (xsize im) (ysize im) (fun y x => Grid.get im x y).

Definition ImagingBoxBlur (floatRadius : spec_float) (n : nat) (im : Grid rgba)
  : Grid rgba :=
  let imOut := Nat.iter n (ImagingHorizontalBoxBlur floatRadius) im in
  let imTransposed :=
    Nat.iter n (ImagingHorizontalBoxBlur floatRadius) (ImagingTranspose imOut) in
  ImagingTranspose imTransposed.

Definition GaussianBlur (radius : Z) (im : Grid rgba) : Grid rgba :=
  if radius =? 0 then im
  else ImagingBoxBlur (gaussian_box_radius radius 3) 3 im.

(** *** [Image.alpha_composite(im1, im2)]: [im2] over [im1] *)
Definition PRECISION_BITS : Z := 7.

Definition SHIFTFORDIV255 (a : Z) : Z := Z.shiftr (Z.shiftr a 8 + a) 8.

Definition composite_pixel (dst src : rgba) : rgba :=
  if alpha src =? 0 then dst
  else
    let blend := u32 (alpha dst * (255 - alpha src)) in
    let outa255 := u32 (alpha src * 255 + blend) in
    let coef1 := u32 (alpha src * 255 * 255 * 2 ^ PRECISION_BITS) / outa255 in
    let coef2 := u32 (255 * 2 ^ PRECISION_BITS - coef1) in
    let out c :=
      let tmp := u32 (get_band c src * coef1 + get_band c dst * coef2) in
      u8 (Z.shiftr (SHIFTFORDIV255 (u32 (tmp + 128 * 2 ^ PRECISION_BITS)))
                   PRECISION_BITS) in
    mkRgba (out band0) (out band1) (out band2)
           (u8 (SHIFTFORDIV255 (u32 (outa255 + 128)))).

(** [ValueError("images do not match")] is [None]. *)
Definition alpha_composite (im1 im2 : Grid rgba) : option (Grid rgba) :=
  if Grid.same_size im1 im2
  then Some (Grid.map2 composite_pixel im1 im2)
  else None.

End PIL.

(* ===================================================================== *)
(** ** The pipeline *)
(* ===================================================================== *)

Definition HOLO_CYAN : Z * Z * Z := (0, 255, 220).
Definition HOLO_VIOLET : Z * Z * Z := (147, 51, 234).

Definition ones (n : nat) : list Z := repeat (-1) n.

(** The 3x3 kernel of [edges_fine] and the 5x5 kernel of [edges_coarse]. *)
Definition kernel_fine : PIL.Kernel :=
  PIL.mkKernel PIL.K3 [-1; -1; -1; -1; 8; -1; -1; -1; -1] 1 0.

Definition kernel_coarse : PIL.Kernel :=
  PIL.mkKernel PIL.K5
    [-1; -1; -1; -1; -1;
     -1; -1; -1; -1; -1;
     -1; -1; 24; -1; -1;
     -1; -1; -1; -1; -1;
     -1; -1; -1; -1; -1] 1 0.

Section Pipeline.

Import Float.

(** [img = Image.open(src_path).convert("RGBA")] *)
Variable img : Image.

Definition gray : Grid Z := PIL.convert_L img.

Definition edges_fine : Grid Z := PIL.filter kernel_fine gray.
Definition edges_medium : Grid Z := PIL.filter PIL.FIND_EDGES gray.
Definition edges_coarse : Grid Z := PIL.filter kernel_coarse gray.

Definition arr_fine : Grid spec_float := np.array_float32 edges_fine.
Definition arr_medium : Grid spec_float := np.array_float32 edges_medium.
Definition arr_coarse : Grid spec_float := np.array_float32 edges_coarse.

(** Line 62. *)
Definition combined_sum : Grid spec_float :=
  np.clip binary32
    (np.add_f32
       (np.add_f32 (np.mul_f32 arr_fine (literal 5 10))
                   (np.mul_f32 arr_medium (literal 3 10)))
       (np.mul_f32 arr_coarse (literal 2 10)))
    0 255.

(** Line 65. *)
Definition combined_boost : Grid Z :=
  np.astype_uint8 (np.clip binary32 (np.mul_f32 combined_sum (literal 25 10)) 0 255).

(** Line 68: [combined] as the rest of the function reads it. *)
Definition combined : Grid Z := np.assign_where_lt combined_boost 30 0.

Definition w : nat := xsize img.
Definition h : nat := ysize img.

Definition edge_mask : Grid bool := np.gt combined 0.

(** Lines 72-79. *)
Definition result_cyan : Grid rgba :=
  let result := np.zeros h w in
  let result := np.store_scalar edge_mask band0 (fst (fst HOLO_CYAN)) result in
  let result := np.store_scalar edge_mask band1 (snd (fst HOLO_CYAN)) result in
  let result := np.store_scalar edge_mask band2 (snd HOLO_CYAN) result in
  np.store_masked edge_mask band3
    (np.astype_uint8 (np.clip binary64 (np.mul_u8 combined (literal 9 10)) 0 255))
    result.

Definition edges_offset : Grid Z := PIL.filter PIL.CONTOUR gray.

(** Line 84: [arr_offset] after its reassignment. *)
Definition arr_offset : Grid Z :=
  np.astype_uint8
    (np.clip binary32 (np.mul_f32 (np.array_float32 edges_offset) (literal 15 10)) 0 255).

Definition offset_mask : Grid bool := np.and_not (np.gt arr_offset 40) edge_mask.

(** Lines 86-89. *)
Definition result_violet : Grid rgba :=
  let result := result_cyan in
  let result := np.store_scalar offset_mask band0 (fst (fst HOLO_VIOLET)) result in
  let result := np.store_scalar offset_mask band1 (snd (fst HOLO_VIOLET)) result in
  let result := np.store_scalar offset_mask band2 (snd HOLO_VIOLET) result in
  np.store_masked offset_mask band3
    (np.astype_uint8 (np.clip binary64 (np.mul_u8 arr_offset (literal 4 10)) 0 180))
    result.

Definition orig_gray : Grid spec_float := np.array_float32 gray.

Definition faint_mask : Grid bool :=
  np.and_not (np.and_not (np.gt_f binary32 orig_gray 30) edge_mask) offset_mask.

Definition faint_band (c : Z * Z) (hi : Z) : Grid Z :=
  np.astype_uint8
    (np.clip binary32 (np.mul_f32 orig_gray (literal (fst c) (snd c))) 0 hi).

(** Lines 96-99: the array handed to [Image.fromarray]. *)
Definition result : Grid rgba :=
  let result := result_violet in
  let result := np.store_scalar faint_mask band0 0 result in
  let result := np.store_masked faint_mask band1 (faint_band (25, 100) 80) result in
  let result := np.store_masked faint_mask band2 (faint_band (22, 100) 70) result in
  np.store_masked faint_mask band3 (faint_band (12, 100) 40) result.

Definition out_img : Grid rgba := result.

Definition glow : Grid rgba := PIL.GaussianBlur 2 out_img.

(** Lines 105-106. *)
Definition glow_arr : Grid rgba :=
  np.store_channel band3
    (np.astype_uint8
       (np.clip binary32
          (np.mul_f32 (np.array_float32 (np.channel band3 glow)) (literal 5 10))
          0 128))
    glow.

Definition glow_img : Grid rgba := glow_arr.

(** Line 109: the image that is saved, or [None] when Pillow raises. *)
Definition final : option (Grid rgba) := PIL.alpha_composite glow_img out_img.

End Pipeline.

(** ** Files *)

(** What [final.save(dst_path, "PNG")] encodes, and what decoding the file
    gives back: the samples as bytes. *)
Definition save (im : Grid rgba) : Image :=
  Grid.map (fun p => mkRgba8 (byte_of_Z (red p)) (byte_of_Z (green p))
                             (byte_of_Z (blue p)) (byte_of_Z (alpha p))) im.

(** What a path names.  A regular file holds a picture, given by the RGBA
    pixels that [Image.open(path).convert("RGBA")] returns, or bytes of
    which Pillow makes no picture ([None]).  The flags say what the
    process running the script may do. *)
Inductive node : Type :=
| Directory (writable : bool)
| RegularFile (readable writable : bool) (content : option Image).

(** A path is the list of its components; [[]] is the root. *)
Abbreviation FileSystem := (gmap (list string) node).

(** What leaves [create_wireframe] and [main], none of which catches
    anything, named after the call that raises: [Image.open] and [save]
    raise [OSError] or one of its subclasses ([FileNotFoundError],
    [IsADirectoryError], [PermissionError], [UnidentifiedImageError]),
    [mkdir] raises [FileExistsError], [NotADirectoryError] or
    [PermissionError], [alpha_composite] raises [ValueError] and [print]
    raises [UnicodeEncodeError]. *)
Inductive exception : Type :=
| mkdir_raised
| open_raised
| alpha_composite_raised
| save_raised
| print_raised.

Inductive outcome (A : Type) : Type :=
| Returns (a : A)
| Raises (e : exception).

Arguments Returns {A} a.
Arguments Raises {A} e.

(** [path.parent]. *)
Definition parent (p : list string) : list string := removelast p.

(** [Image.open(src_path).convert("RGBA")]. *)
Definition Image_open (fs : FileSystem) (src_path : list string) : outcome Image :=
  match fs !! src_path with
  | Some (RegularFile true _ (Some img)) => Returns img
  | _ => Raises open_raised
  end.

(** [im.save(dst_path, "PNG")].  The file is opened for writing: there
    must be a directory above the path and, at the path, a writable file
    or, in a writable directory, nothing.  A file that is created can be
    read and written by the process. *)
Definition Image_save (fs : FileSystem) (dst_path : list string) (im : Image)
  : outcome FileSystem :=
  match fs !! parent dst_path with
  | Some (Directory dir_writable) =>
      match fs !! dst_path with
      | None =>
          if dir_writable
          then Returns (<[dst_path := RegularFile true true (Some im)]> fs)
          else Raises save_raised
      | Some (RegularFile r true _) =>
          Returns (<[dst_path := RegularFile r true (Some im)]> fs)
      | Some (RegularFile _ false _) => Raises save_raised
      | Some (Directory _) => Raises save_raised
      end
  | _ => Raises save_raised
  end.

(** [print(...)]: the console takes the messages of the script
    ([stdout = true]) or not, as does one without the marks U+2713 and
    U+2717. *)
Definition print {A : Type} (stdout : bool) (then_ : A) : outcome A :=
  if stdout then Returns then_ else Raises print_raised.

(** Lines 33 to 111. *)
Definition create_wireframe (stdout : bool) (fs : FileSystem)
    (src_path dst_path : list string) : outcome FileSystem :=
  match Image_open fs src_path with
  | Raises e => Raises e
  | Returns img =>
      match final img with
      | None => Raises alpha_composite_raised
      | Some im =>
          match Image_save fs dst_path (save im) with
          | Raises e => Raises e
          | Returns fs' => print stdout fs'
          end
      end
  end.

(** The directories above a path and the path itself, outermost first. *)
Definition parents_and_self (p : list string) : list (list string) :=
  List.map (fun n => firstn n p) (seq 1 (length p)).

(** [os.mkdir] on each path of the list that is not a directory yet. *)
Fixpoint makedirs (fs : FileSystem) (l : list (list string)) : outcome FileSystem :=
  match l with
  | [] => Returns fs
  | p :: rest =>
      match fs !! p with
      | Some (Directory _) => makedirs fs rest
      | Some (RegularFile _ _ _) => Raises mkdir_raised
      | None =>
          match fs !! parent p with
          | Some (Directory true) => makedirs (<[p := Directory true]> fs) rest
          | _ => Raises mkdir_raised
          end
      end
  end.

(** [path.mkdir(parents=True, exist_ok=True)]. *)
Definition mkdir (fs : FileSystem) (p : list string) : outcome FileSystem :=
  makedirs fs (parents_and_self p).

(** ** Test images *)

Definition px (r g b a : Z) : rgba8 :=
  mkRgba8 (byte_of_Z r) (byte_of_Z g) (byte_of_Z b) (byte_of_Z a).

Definition black : rgba8 := px 0 0 0 255.
Definition white : rgba8 := px 255 255 255 255.

Definition black3x3 : Image := Grid.init 3 3 (fun _ _ => black).

(** A black pixel in a white frame. *)
Definition ring3x3 : Image :=
  Grid.init 3 3 (fun y x => if ((y =? 1) && (x =? 1))%nat then black else white).

(* ===================================================================== *)
(** ** The pipeline at one pixel *)
(* ===================================================================== *)

Section PerPixel.

Import Float.

Definition f32 : Z -> spec_float := of_Z binary32.
Definition f64 : Z -> spec_float := of_Z binary64.

(** [x * c] in [float32], clipped to [[0, hi]] and stored as [uint8]. *)
Definition scale_f32 (c : spec_float) (hi : Z) (x : spec_float) : Z :=
  u8 (trunc (Float.clip (mul binary32 x (cast binary32 c)) (f32 0) (f32 hi))).

(** [v * c] in [float64] for a [uint8] sample [v], clipped and stored. *)
Definition scale_u8 (c : spec_float) (hi : Z) (v : Z) : Z :=
  u8 (trunc (Float.clip (mul binary64 (f64 v) c) (f64 0) (f64 hi))).

(** Lines 62-68 on the three edge samples of one pixel. *)
Definition weighted (fine medium coarse : Z) : spec_float :=
  Float.clip
    (add binary32
       (add binary32 (mul binary32 (f32 fine) (cast binary32 (literal 5 10)))
                     (mul binary32 (f32 medium) (cast binary32 (literal 3 10))))
       (mul binary32 (f32 coarse) (cast binary32 (literal 2 10))))
    (f32 0) (f32 255).

Definition noise_floor (v : Z) : Z := if v <? 30 then 0 else v.

Definition combine (fine medium coarse : Z) : Z :=
  noise_floor (scale_f32 (literal 25 10) 255 (weighted fine medium coarse)).

Definition cyan_alpha (c : Z) : Z := scale_u8 (literal 9 10) 255 c.
Definition contour_scaled (o : Z) : Z := scale_f32 (literal 15 10) 255 (f32 o).
Definition violet_alpha (o : Z) : Z := scale_u8 (literal 4 10) 180 o.
Definition faint_green (g : Z) : Z := scale_f32 (literal 25 100) 80 (f32 g).
Definition faint_blue (g : Z) : Z := scale_f32 (literal 22 100) 70 (f32 g).
Definition faint_alpha (g : Z) : Z := scale_f32 (literal 12 100) 40 (f32 g).
Definition glow_alpha (a : Z) : Z := scale_f32 (literal 5 10) 128 (f32 a).

(** The three masks at a pixel with combined edge [c], scaled contour
    [o] and luminance [g]. *)
Definition is_edge (c : Z) : bool := 0 <? c.
Definition is_offset (c o : Z) : bool := (40 <? o) && negb (is_edge c).
Definition is_faint (c o g : Z) : bool :=
  SFltb (f32 30) (f32 g) && negb (is_edge c) && negb (is_offset c o).

(** The pixel of [result]. *)
Definition layer_pixel (c o g : Z) : rgba :=
  if is_edge c then mkRgba 0 255 220 (cyan_alpha c)
  else if is_offset c o then mkRgba 147 51 234 (violet_alpha o)
  else if is_faint c o g then mkRgba 0 (faint_green g) (faint_blue g) (faint_alpha g)
  else mkRgba 0 0 0 0.

End PerPixel.

(** A position of the image. *)
Definition inside {A} (g : Grid A) (y x : nat) : Prop :=
  (y < ysize g)%nat /\ (x < xsize g)%nat.

(** All-black and fully opaque. *)
Definition all_black (img : Image) : Prop :=
  forall y x, inside img y x -> Grid.get img y x = black.

(** Agreement on the colour bands at every position. *)
Definition same_rgb (img1 img2 : Image) : Prop :=
  ysize img1 = ysize img2 /\ xsize img1 = xsize img2 /\
  forall y x, inside img1 y x ->
    R8 (Grid.get img1 y x) = R8 (Grid.get img2 y x) /\
    G8 (Grid.get img1 y x) = G8 (Grid.get img2 y x) /\
    B8 (Grid.get img1 y x) = B8 (Grid.get img2 y x).

Definition in_u8 (z : Z) : Prop := 0 <= z <= 255.


(** A check of a decidable property on every [uint8] value. *)
Definition all_u8 (P : Z -> bool) : bool :=
  forallb P (List.map Z.of_nat (seq 0 256)).

(** The pixel read by [Image.alpha_composite] at a position. *)
Definition masks_at (img : Image) (y x : nat) : bool * bool * bool :=
  (Grid.get (edge_mask img) y x, Grid.get (offset_mask img) y x,
   Grid.get (faint_mask img) y x).

(** A position at least one pixel away from the frame of the image. *)
Definition interior3 (img : Image) (y x : nat) : Prop :=
  (1 <= y)%nat /\ (y + 1 < ysize img)%nat /\ (1 <= x)%nat /\ (x + 1 < xsize img)%nat.

(** The composite of line 109, position by position. *)
Definition composited (img : Image) : Grid rgba :=
  Grid.map2 PIL.composite_pixel (glow_img img) (out_img img).

(** A mid-grey pixel in a white frame. *)
Definition faint3x3 : Image :=
  Grid.init 3 3 (fun y x => if ((y =? 1) && (x =? 1))%nat then px 50 50 50 255 else white).

(** [black3x3] with every pixel fully transparent. *)
Definition clear3x3 : Image := Grid.init 3 3 (fun _ _ => px 0 0 0 0).

(** Every band is an 8-bit sample. *)
Definition pixel_u8 (p : rgba) : Prop :=
  in_u8 (red p) /\ in_u8 (green p) /\ in_u8 (blue p) /\ in_u8 (alpha p).

(* ===================================================================== *)
(** ** The combined edge grid in the words of the specification *)
(* ===================================================================== *)

(** [clip(x, lo, hi)] on exact numbers. *)
Definition clip_spec (x lo hi : QArith_base.Q) : QArith_base.Q :=
  Qminmax.Qmax lo (Qminmax.Qmin x hi).

(** [clip(clip(0.5 fine + 0.3 medium + 0.2 coarse, 0, 255) * 2.5, 0, 255)]
    on exact numbers. *)
Definition combined_spec (fine medium coarse : Z) : QArith_base.Q :=
  let Q_of := QArith_base.inject_Z in
  let ratio := QArith_base.Qmake in
  let add := QArith_base.Qplus in
  let mul := QArith_base.Qmult in
  let sum := add (add (mul (ratio 5 10%positive) (Q_of fine)) (mul (ratio 3 10%positive) (Q_of medium)))
                 (mul (ratio 2 10%positive) (Q_of coarse)) in
  clip_spec (mul (clip_spec sum (Q_of 0) (Q_of 255)) (ratio 25 10%positive)) (Q_of 0) (Q_of 255).

(* ===================================================================== *)
(** ** The glow compositor in the words of the specification *)
(* ===================================================================== *)

(** The blur.  [ImageFilter.GaussianBlur] is, in the words of Pillow's
    documentation, "a sequence of extended box filters, which approximates
    a Gaussian kernel": three passes along the rows, then three along the
    columns.  For radius 2 a pass replaces a sample by the rounded mean of
    the five samples around it, with the weights [tap_far, tap_near,
    tap_near, tap_near, tap_far] over [2^24]; beyond an end of the line the
    sample at that end is taken. *)
Definition tap_near : Z := 4473924.
Definition tap_far : Z := 1677722.

Definition nearest_in_line (n : nat) (i : Z) : nat :=
  Z.to_nat (Z.max 0 (Z.min i (Z.of_nat n - 1))).

Definition mean5 (n : nat) (line : nat -> Z) (x : nat) : Z :=
  let at_ d := line (nearest_in_line n (Z.of_nat x + d)) in
  (tap_far * at_ (-2) + tap_near * at_ (-1) + tap_near * at_ 0
   + tap_near * at_ 1 + tap_far * at_ 2 + 2 ^ 23) / 2 ^ 24.

Definition blur_rows_spec (im : Grid rgba) : Grid rgba :=
  Grid.init (ysize im) (xsize im)
    (fun y x =>
       let s c := mean5 (xsize im) (fun i => get_band c (Grid.get im y i)) x in
       mkRgba (s band0) (s band1) (s band2) (s band3)).

Definition blur_columns_spec (im : Grid rgba) : Grid rgba :=
  Grid.init (ysize im) (xsize im)
    (fun y x =>
       let s c := mean5 (ysize im) (fun i => get_band c (Grid.get im i x)) y in
       mkRgba (s band0) (s band1) (s band2) (s band3)).

Definition gaussian_blur_spec (im : Grid rgba) : Grid rgba :=
  blur_columns_spec (blur_columns_spec (blur_columns_spec
    (blur_rows_spec (blur_rows_spec (blur_rows_spec im))))).

(** The mass of the five weights of a pass, and their second moment about
    the centre: over [2^24], the variance of one pass. *)
Definition kernel_mass : Z := tap_far + tap_near + tap_near + tap_near + tap_far.

Definition kernel_second_moment : Z :=
  tap_far * (-2) ^ 2 + tap_near * (-1) ^ 2 + tap_near * 0 ^ 2
  + tap_near * 1 ^ 2 + tap_far * 2 ^ 2.

(** The alpha of the glow: scaled by 0.5 and clamped to at most 128. *)
Definition attenuate_spec (a : Z) : Z := Z.min 128 (a / 2).

(** The glow buffer: the Gaussian blur of radius 2 of the whole pre-glow
    RGBA buffer, with its alpha band attenuated. *)
Definition glow_buffer_spec (sharp : Grid rgba) : Grid rgba :=
  Grid.map (fun p => set_band band3 (attenuate_spec (alpha p)) p)
           (gaussian_blur_spec sharp).

(** "Over" for straight (not premultiplied) alpha, with [a = 255 * alpha]:
    [alpha_o = alpha_f + alpha_b (1 - alpha_f)] and
    [C_o = (C_f alpha_f + C_b alpha_b (1 - alpha_f)) / alpha_o].
    [over_den / 255] is the exact 8-bit alpha of the result and
    [over_num c / over_den] its exact colour in band [c]. *)
Definition over_den (fg bg : rgba) : Z :=
  255 * alpha fg + alpha bg * (255 - alpha fg).

Definition over_num (c : band) (fg bg : rgba) : Z :=
  get_band c fg * (255 * alpha fg) + get_band c bg * (alpha bg * (255 - alpha fg)).

(** [out] is [fg] over [bg]: its alpha is the integer nearest to the exact
    alpha, and each colour band is within one unit of the exact colour. *)
Definition is_over (out fg bg : rgba) : Prop :=
  2 * Z.abs (255 * alpha out - over_den fg bg) <= 255 /\
  forall c, c <> band3 ->
    Z.abs (get_band c out * over_den fg bg - over_num c fg bg) <= over_den fg bg.

(* ===================================================================== *)
(** ** Positions and windows *)
(* ===================================================================== *)

(** A position on the outermost rows or columns of the image. *)
Definition on_frame (img : Image) (y x : nat) : Prop :=
  inside img y x /\
  (y = 0%nat \/ (y + 1)%nat = ysize img \/ x = 0%nat \/ (x + 1)%nat = xsize img).

(** A position at least two pixels away from the frame: the window of the
    5x5 kernel lies in the image. *)
Definition interior5 (img : Image) (y x : nat) : Prop :=
  (2 <= y)%nat /\ (y + 2 < ysize img)%nat /\ (2 <= x)%nat /\ (x + 2 < xsize img)%nat.

(** The positions of the 5x5 window around [(y, x)]. *)
Definition in_window (y x y' x' : nat) : Prop :=
  (y <= y' + 2)%nat /\ (y' <= y + 2)%nat /\ (x <= x' + 2)%nat /\ (x' <= x + 2)%nat.

(** The pre-glow pixel of a frame position with luminance [g]. *)
Definition frame_pixel (g : Z) : rgba :=
  if 12 <=? g then mkRgba 0 255 220 (cyan_alpha (combine g g g)) else mkRgba 0 0 0 0.


(** A uniformly white 5x5 image. *)
Definition white5x5 : Image := Grid.init 5 5 (fun _ _ => white).

(** [ring3x3] with another centre. *)
Definition dot3x3 : Image :=
  Grid.init 3 3 (fun y x => if ((y =? 1) && (x =? 1))%nat then px 10 20 30 255 else white).

(** Two 7x1 strips that differ in their last pixel only. *)
Definition strip7 (last : rgba8) : Image :=
  Grid.init 1 7 (fun _ x => if (x =? 6)%nat then last else black).



(* ===================================================================== *)
(** ** The driver *)
(* ===================================================================== *)

(** Source name -> output name, in the order of the dictionary. *)
Definition MAPPINGS : list (string * string) :=
  [ ("idle.png", "holo_portrait.png");
    ("fullbody_front.png", "holo_front.png");
    ("fullbody_threequarter.png", "holo_threequarter.png");
    ("fullbody_side.png", "holo_side.png");
    ("fullbody_back.png", "holo_back.png");
    ("fullbody_sideleft.png", "holo_sideleft.png") ]%string.

(** [dir / name] of [pathlib]. *)
Definition joinpath (dir : list string) (name : string) : list string := dir ++ [name].

Section Driver.

(** [SCRIPT_DIR.parent]: the directory above the one of the script. *)
Variable package_dir : list string.

(** Whether the console takes the messages of the script. *)
Variable stdout : bool.

Definition ASSET_DIR : list string := joinpath (joinpath package_dir "assets") "avatar".
Definition HOLO_DIR : list string := joinpath (joinpath package_dir "assets") "holo".

(** One turn of the loop of [main]: [src.exists()] holds of whatever the
    path names, a directory and an unreadable file included.  An exception
    leaves the loop. *)
Definition main_step (state : outcome FileSystem) (m : string * string)
  : outcome FileSystem :=
  match state with
  | Returns fs =>
      let src := joinpath ASSET_DIR (fst m) in
      let dst := joinpath HOLO_DIR (snd m) in
      match fs !! src with
      | None => print stdout fs
      | Some _ => create_wireframe stdout fs src dst
      end
  | Raises e => Raises e
  end.

(** The loop over a list of mappings. *)
Definition run (l : list (string * string)) (fs : FileSystem) : outcome FileSystem :=
  fold_left main_step l (Returns fs).

(** Lines 116 to 130; the three messages before the loop are one [print]
    here. *)
Definition main (fs : FileSystem) : outcome FileSystem :=
  match mkdir fs HOLO_DIR with
  | Returns fs0 =>
      match print stdout fs0 with
      | Returns fs0 =>
          match run MAPPINGS fs0 with
          | Returns fs' => print stdout fs'
          | Raises e => Raises e
          end
      | Raises e => Raises e
      end
  | Raises e => Raises e
  end.

(** An entry of [MAPPINGS] is ready when its source does not exist, or is
    a readable picture whose output can be written: over a writable file,
    or as a new file of a writable output directory. *)
Definition ready (fs : FileSystem) (m : string * string) : Prop :=
  fs !! joinpath ASSET_DIR (fst m) = None \/
  ((exists w img,
      fs !! joinpath ASSET_DIR (fst m) = Some (RegularFile true w (Some img))) /\
   ((fs !! joinpath HOLO_DIR (snd m) = None /\
     fs !! HOLO_DIR = Some (Directory true)) \/
    (exists r c, fs !! joinpath HOLO_DIR (snd m) = Some (RegularFile r true c)))).

End Driver.

(** A tree with the portrait, which is read-only, and one full-body view;
    the output directory is not there yet. *)
Definition avatars : FileSystem :=
  {[ [] := Directory true;
     ["iaret"] := Directory true;
     ["iaret"; "assets"] := Directory true;
     ["iaret"; "assets"; "avatar"] := Directory true;
     ["iaret"; "assets"; "avatar"; "idle.png"] := RegularFile true false (Some ring3x3);
     ["iaret"; "assets"; "avatar"; "fullbody_back.png"]
       := RegularFile true true (Some black3x3) ]}%string.

(** [avatars] once the output directory is there. *)
Definition avatars_with_holo : FileSystem :=
  <[ ["iaret"; "assets"; "holo"]%string := Directory true ]> avatars.

(** [avatars] with a text file in the place of the portrait. *)
Definition broken_avatars : FileSystem :=
  <[ ["iaret"; "assets"; "avatar"; "idle.png"]%string := RegularFile true true None ]> avatars.

(* ===================================================================== *)
(** ** Mirror images *)
(* ===================================================================== *)

(** The raster read from right to left ([Image.FLIP_LEFT_RIGHT]). *)
Definition mirror {A} `{Blank A} (g : Grid A) : Grid A :=
  Grid.init (ysize g) (xsize g) (fun y x => Grid.get g y (xsize g - 1 - x)).

(** [g1] holds, at every position, the sample of [g2] at the mirrored
    column. *)
Definition mirrored {A} `{Blank A} (g1 g2 : Grid A) : Prop :=
  ysize g1 = ysize g2 /\ xsize g1 = xsize g2 /\
  forall y x, inside g2 y x -> Grid.get g1 y x = Grid.get g2 y (xsize g2 - 1 - x).

(** The same for the rows: what [mirrored] becomes under transposition. *)
Definition flipped {A} `{Blank A} (g1 g2 : Grid A) : Prop :=
  ysize g1 = ysize g2 /\ xsize g1 = xsize g2 /\
  forall y x, inside g2 y x -> Grid.get g1 y x = Grid.get g2 (ysize g2 - 1 - y) x.

(** Four dark columns, then four bright ones, on seven rows. *)
Definition step7x8 : Image :=
  Grid.init 7 8 (fun _ x => if (x <? 4)%nat then px 10 10 10 255 else px 200 200 200 255).

(* ===================================================================== *)
(** ** Neighbourhoods *)
(* ===================================================================== *)

(** [(y', x')] is within [dy] rows and [dx] columns of [(y, x)]. *)
Definition near (dy dx : nat) (y x y' x' : nat) : Prop :=
  (y <= y' + dy)%nat /\ (y' <= y + dy)%nat /\ (x <= x' + dx)%nat /\ (x' <= x + dx)%nat.

(** Two rasters of the same size that agree near [(y, x)]. *)
Definition agree_near {A} `{Blank A} (dy dx : nat) (a b : Grid A) (y x : nat) : Prop :=
  ysize a = ysize b /\ xsize a = xsize b /\
  forall y' x', inside b y' x' -> near dy dx y x y' x' ->
    Grid.get a y' x' = Grid.get b y' x'.

(** A 1x20 strip, black but for its last pixel. *)
Definition strip20 (last : rgba8) : Image :=
  Grid.init 1 20 (fun _ x => if (x =? 19)%nat then last else black).
(* ===================================================================== *)
(** * Properties *)
(* ===================================================================== *)

(** The floating-point operations are computed by [vm_compute] only; the
    proofs that follow never unfold them. *)
Opaque Float.mul Float.add Float.sub Float.div Float.sqrt Float.of_Z Float.cast
       Float.trunc Float.clip Float.literal.

(** ** Rasters *)

Section GridFacts.

Context {A : Type} `{Blank A}.

Lemma get_init (h w : nat) (f : nat -> nat -> A) (y x : nat) :
  (y < h)%nat -> (x < w)%nat -> Grid.get (Grid.init h w f) y x = f y x.
Proof.
  intros Hy Hx. unfold Grid.get, Grid.init. cbn [rows].
  rewrite list_lookup_fmap, lookup_seq_lt by exact Hy. cbn.
  rewrite list_lookup_fmap, lookup_seq_lt by exact Hx. reflexivity.
Qed.

Lemma get_outside (g : Grid A) (y x : nat) :
  Grid.wf g -> ~ inside g y x -> Grid.get g y x = blank.
Proof.
  intros [Hlen Hrows] Hout. unfold Grid.get.
  destruct (rows g !! y) as [row|] eqn:Hrow; [|reflexivity].
  assert (Hy : (y < ysize g)%nat).
  { rewrite <- Hlen. eapply lookup_lt_Some; eassumption. }
  rewrite Forall_forall in Hrows.
  assert (Hw : length row = xsize g).
  { apply Hrows. eapply list_elem_of_lookup_2; eassumption. }
  rewrite lookup_ge_None_2; [reflexivity|].
  unfold inside in Hout. lia.
Qed.

Lemma wf_init (h w : nat) (f : nat -> nat -> A) : Grid.wf (Grid.init h w f).
Proof.
  split; cbn.
  - rewrite length_fmap, length_seq. reflexivity.
  - rewrite Forall_fmap. apply Forall_forall. intros y _. cbn.
    rewrite length_fmap, length_seq. reflexivity.
Qed.

Lemma init_ext (h w : nat) (f g : nat -> nat -> A) :
  (forall y x, (y < h)%nat -> (x < w)%nat -> f y x = g y x) ->
  Grid.init h w f = Grid.init h w g.
Proof.
  intros Hfg. unfold Grid.init. f_equal.
  apply list_fmap_ext. intros i y Hy. apply lookup_seq in Hy as [-> Hy].
  apply list_fmap_ext. intros j x Hx. apply lookup_seq in Hx as [-> Hx].
  apply Hfg; assumption.
Qed.

End GridFacts.

Section GridMaps.

Context {A B C D : Type} `{Blank A} `{Blank B} `{Blank C} `{Blank D}.

Lemma get_map (f : A -> D) (g : Grid A) (y x : nat) :
  inside g y x -> Grid.get (Grid.map f g) y x = f (Grid.get g y x).
Proof. intros [Hy Hx]. unfold Grid.map. rewrite get_init by assumption. reflexivity. Qed.

Lemma get_map2 (f : A -> B -> D) (g1 : Grid A) (g2 : Grid B) (y x : nat) :
  inside g1 y x ->
  Grid.get (Grid.map2 f g1 g2) y x = f (Grid.get g1 y x) (Grid.get g2 y x).
Proof. intros [Hy Hx]. unfold Grid.map2. rewrite get_init by assumption. reflexivity. Qed.

Lemma get_map3 (f : A -> B -> C -> D) (g1 : Grid A) (g2 : Grid B) (g3 : Grid C)
    (y x : nat) :
  inside g1 y x ->
  Grid.get (Grid.map3 f g1 g2 g3) y x
  = f (Grid.get g1 y x) (Grid.get g2 y x) (Grid.get g3 y x).
Proof. intros [Hy Hx]. unfold Grid.map3. rewrite get_init by assumption. reflexivity. Qed.

End GridMaps.

(** From here on a raster is read through the lemmas above only. *)
Opaque Grid.get.

(** ** Sizes *)

Lemma filter_ysize (k : PIL.Kernel) (im : Grid Z) : ysize (PIL.filter k im) = ysize im.
Proof. unfold PIL.filter. destruct (_ || _)%bool; reflexivity. Qed.

Lemma filter_xsize (k : PIL.Kernel) (im : Grid Z) : xsize (PIL.filter k im) = xsize im.
Proof. unfold PIL.filter. destruct (_ || _)%bool; reflexivity. Qed.

Lemma inside_filter (k : PIL.Kernel) (img : Image) (y x : nat) :
  inside img y x -> inside (PIL.filter k (gray img)) y x.
Proof. unfold inside. rewrite filter_ysize, filter_xsize. exact (fun H => H). Qed.

Lemma wf_filter (k : PIL.Kernel) (im : Grid Z) : Grid.wf im -> Grid.wf (PIL.filter k im).
Proof. intros Him. unfold PIL.filter. destruct (_ || _)%bool; [exact Him | apply wf_init]. Qed.

Lemma box_blur_pass_size (r : spec_float) (im : Grid rgba) :
  ysize (PIL.ImagingHorizontalBoxBlur r im) = ysize im /\
  xsize (PIL.ImagingHorizontalBoxBlur r im) = xsize im.
Proof.
  unfold PIL.ImagingHorizontalBoxBlur.
  destruct (PIL.box_weights r) as [[radius ww] fw]. split; reflexivity.
Qed.

Lemma box_blur_passes_size (r : spec_float) (n : nat) (im : Grid rgba) :
  ysize (Nat.iter n (PIL.ImagingHorizontalBoxBlur r) im) = ysize im /\
  xsize (Nat.iter n (PIL.ImagingHorizontalBoxBlur r) im) = xsize im.
Proof.
  induction n as [|n [IHy IHx]]; [split; reflexivity|].
  change (Nat.iter (S n) (PIL.ImagingHorizontalBoxBlur r) im)
    with (PIL.ImagingHorizontalBoxBlur r (Nat.iter n (PIL.ImagingHorizontalBoxBlur r) im)).
  destruct (box_blur_pass_size r (Nat.iter n (PIL.ImagingHorizontalBoxBlur r) im))
    as [Hy Hx].
  split; [rewrite Hy; exact IHy | rewrite Hx; exact IHx].
Qed.

Lemma GaussianBlur_size (radius : Z) (im : Grid rgba) :
  ysize (PIL.GaussianBlur radius im) = ysize im /\
  xsize (PIL.GaussianBlur radius im) = xsize im.
Proof.
  unfold PIL.GaussianBlur. destruct (radius =? 0); [split; reflexivity|].
  unfold PIL.ImagingBoxBlur, PIL.ImagingTranspose. cbn [ysize xsize Grid.init].
  set (r := PIL.gaussian_box_radius radius 3).
  set (t := Grid.init _ _ _).
  destruct (box_blur_passes_size r 3 t) as [Hy Hx].
  destruct (box_blur_passes_size r 3 im) as [Hy' Hx'].
  rewrite Hy, Hx. subst t. cbn [ysize xsize Grid.init]. split; assumption.
Qed.

Lemma glow_img_size (img : Image) :
  ysize (glow_img img) = ysize img /\ xsize (glow_img img) = xsize img.
Proof.
  unfold glow_img, glow_arr, np.store_channel, Grid.map2. cbn [ysize xsize Grid.init].
  exact (GaussianBlur_size 2 (out_img img)).
Qed.

(** ** The arrays of the source at one position *)

Section Pointwise.

Variable img : Image.
Variables y x : nat.
Hypothesis Hin : inside img y x.

Local Abbreviation Hfine := (inside_filter kernel_fine img y x Hin).
Local Abbreviation Hmedium := (inside_filter PIL.FIND_EDGES img y x Hin).
Local Abbreviation Hcoarse := (inside_filter kernel_coarse img y x Hin).
Local Abbreviation Hcontour := (inside_filter PIL.CONTOUR img y x Hin).

Lemma gray_at : Grid.get (gray img) y x = PIL.rgb2l (Grid.get img y x).
Proof. unfold gray, PIL.convert_L. rewrite get_map by exact Hin. reflexivity. Qed.

Lemma combined_sum_at :
  Grid.get (combined_sum img) y x
  = weighted (Grid.get (edges_fine img) y x) (Grid.get (edges_medium img) y x)
             (Grid.get (edges_coarse img) y x).
Proof.
  unfold combined_sum, np.clip. rewrite get_map by exact Hfine.
  unfold np.add_f32. rewrite !get_map2 by exact Hfine.
  unfold np.mul_f32, arr_fine, arr_medium, arr_coarse, np.array_float32.
  rewrite (get_map _ (Grid.map _ (edges_fine img))) by exact Hfine.
  rewrite (get_map _ (Grid.map _ (edges_medium img))) by exact Hmedium.
  rewrite (get_map _ (Grid.map _ (edges_coarse img))) by exact Hcoarse.
  rewrite (get_map _ (edges_fine img)) by exact Hfine.
  rewrite (get_map _ (edges_medium img)) by exact Hmedium.
  rewrite (get_map _ (edges_coarse img)) by exact Hcoarse.
  reflexivity.
Qed.

Lemma combined_boost_at :
  Grid.get (combined_boost img) y x
  = scale_f32 (Float.literal 25 10) 255 (Grid.get (combined_sum img) y x).
Proof.
  unfold combined_boost, np.astype_uint8, np.clip, np.mul_f32.
  rewrite !get_map by exact Hfine. reflexivity.
Qed.

Lemma combined_at :
  Grid.get (combined img) y x
  = combine (Grid.get (edges_fine img) y x) (Grid.get (edges_medium img) y x)
            (Grid.get (edges_coarse img) y x).
Proof.
  unfold combined, np.assign_where_lt. rewrite get_map by exact Hfine.
  rewrite combined_boost_at, combined_sum_at. reflexivity.
Qed.

Lemma edge_mask_at :
  Grid.get (edge_mask img) y x = is_edge (Grid.get (combined img) y x).
Proof.
  unfold edge_mask, np.gt. rewrite get_map by exact Hfine.
  cbv beta. unfold is_edge. reflexivity.
Qed.

Lemma arr_offset_at :
  Grid.get (arr_offset img) y x = contour_scaled (Grid.get (edges_offset img) y x).
Proof.
  unfold arr_offset, np.astype_uint8, np.clip, np.mul_f32, np.array_float32.
  rewrite !get_map by exact Hcontour. reflexivity.
Qed.

Lemma offset_mask_at :
  Grid.get (offset_mask img) y x
  = is_offset (Grid.get (combined img) y x) (Grid.get (arr_offset img) y x).
Proof.
  unfold offset_mask, np.and_not. rewrite get_map2 by exact Hcontour.
  unfold np.gt at 1. rewrite get_map by exact Hcontour.
  rewrite edge_mask_at. reflexivity.
Qed.

Lemma orig_gray_at : Grid.get (orig_gray img) y x = f32 (Grid.get (gray img) y x).
Proof. unfold orig_gray, np.array_float32. rewrite get_map by exact Hin. reflexivity. Qed.

Lemma faint_mask_at :
  Grid.get (faint_mask img) y x
  = is_faint (Grid.get (combined img) y x) (Grid.get (arr_offset img) y x)
             (Grid.get (gray img) y x).
Proof.
  unfold faint_mask, np.and_not. rewrite !get_map2 by exact Hin.
  unfold np.gt_f. rewrite get_map by exact Hin.
  rewrite orig_gray_at, edge_mask_at, offset_mask_at. reflexivity.
Qed.

Lemma faint_band_at (c : Z * Z) (hi : Z) :
  Grid.get (faint_band img c hi) y x
  = scale_f32 (Float.literal (fst c) (snd c)) hi (f32 (Grid.get (gray img) y x)).
Proof.
  unfold faint_band, np.astype_uint8, np.clip, np.mul_f32.
  rewrite !get_map by exact Hin. rewrite orig_gray_at. reflexivity.
Qed.

Lemma result_cyan_at :
  Grid.get (result_cyan img) y x
  = if is_edge (Grid.get (combined img) y x)
    then mkRgba 0 255 220 (cyan_alpha (Grid.get (combined img) y x))
    else mkRgba 0 0 0 0.
Proof.
  unfold result_cyan, np.store_masked, np.store_scalar, np.zeros.
  rewrite get_map3 by exact Hin. rewrite !get_map2 by exact Hin.
  rewrite get_init by apply Hin.
  unfold np.astype_uint8, np.clip, np.mul_u8. rewrite !get_map by exact Hfine.
  rewrite edge_mask_at. destruct (is_edge _); reflexivity.
Qed.

Lemma result_violet_at :
  Grid.get (result_violet img) y x
  = if is_edge (Grid.get (combined img) y x)
    then mkRgba 0 255 220 (cyan_alpha (Grid.get (combined img) y x))
    else if is_offset (Grid.get (combined img) y x) (Grid.get (arr_offset img) y x)
    then mkRgba 147 51 234 (violet_alpha (Grid.get (arr_offset img) y x))
    else mkRgba 0 0 0 0.
Proof.
  unfold result_violet, np.store_masked, np.store_scalar.
  rewrite get_map3 by exact Hin. rewrite !get_map2 by exact Hin.
  unfold np.astype_uint8, np.clip, np.mul_u8. rewrite !get_map by exact Hcontour.
  rewrite offset_mask_at, result_cyan_at.
  unfold is_offset. destruct (is_edge _); [rewrite andb_false_r; reflexivity|].
  rewrite andb_true_r. destruct (40 <? _); reflexivity.
Qed.

(** The array handed to [Image.fromarray] is, at every position, the
    pixel of the first layer whose mask holds there. *)
Lemma result_at :
  Grid.get (result img) y x
  = layer_pixel (Grid.get (combined img) y x) (Grid.get (arr_offset img) y x)
                (Grid.get (gray img) y x).
Proof.
  unfold result, np.store_masked, np.store_scalar.
  rewrite !get_map3 by exact Hin. rewrite !get_map2 by exact Hin.
  rewrite !faint_band_at, faint_mask_at, result_violet_at.
  unfold layer_pixel, is_faint.
  destruct (is_edge _); [rewrite andb_false_r; reflexivity|].
  destruct (is_offset _ _); [rewrite andb_false_r; reflexivity|].
  rewrite !andb_true_r. destruct (SFltb _ _); reflexivity.
Qed.

End Pointwise.

(** ** Samples *)

Lemma u8_range (z : Z) : in_u8 (u8 z).
Proof. unfold in_u8, u8. pose proof (Z.mod_pos_bound z 256). lia. Qed.

Lemma u8_small (z : Z) : in_u8 z -> u8 z = z.
Proof. unfold in_u8, u8. intros Hz. apply Z.mod_small. lia. Qed.

Lemma u32_small (z : Z) : 0 <= z < 2 ^ 32 -> u32 z = z.
Proof. unfold u32. intros Hz. apply Z.mod_small. exact Hz. Qed.

Lemma all_u8_spec (P : Z -> bool) :
  all_u8 P = true -> forall z, in_u8 z -> P z = true.
Proof.
  unfold all_u8, in_u8. intros Hall z Hz.
  rewrite forallb_forall in Hall. apply Hall.
  apply in_map_iff. exists (Z.to_nat z). split; [lia|].
  apply in_seq. lia.
Qed.

Lemma rgb2l_range (p : rgba8) : in_u8 (PIL.rgb2l p).
Proof. apply u8_range. Qed.

Lemma byte_to_Z_range (b : byte) : in_u8 (byte_to_Z b).
Proof.
  unfold in_u8, byte_to_Z. pose proof (Byte.to_N_bounded b) as Hb. lia.
Qed.

(** The luma is the rounded weighted mean: no wrap-around happens. *)
Lemma rgb2l_value (p : rgba8) : PIL.rgb2l p = PIL.L24 p / 65536.
Proof.
  unfold PIL.rgb2l. rewrite Z.shiftr_div_pow2 by lia.
  change (2 ^ 16) with 65536. apply u8_small. unfold in_u8, PIL.L24.
  pose proof (byte_to_Z_range (R8 p)). pose proof (byte_to_Z_range (G8 p)).
  pose proof (byte_to_Z_range (B8 p)). unfold in_u8 in *.
  split.
  - apply Z.div_pos; lia.
  - apply Z.lt_succ_r. apply Z.div_lt_upper_bound; lia.
Qed.

Lemma noise_floor_cases (v : Z) :
  in_u8 v -> noise_floor v = 0 \/ 30 <= noise_floor v <= 255.
Proof.
  unfold noise_floor, in_u8. intros Hv.
  destruct (v <? 30) eqn:Hlt; [left; reflexivity|].
  apply Z.ltb_ge in Hlt. right. lia.
Qed.

Lemma combine_cases (f m c : Z) : combine f m c = 0 \/ 30 <= combine f m c <= 255.
Proof. unfold combine. apply noise_floor_cases. apply u8_range. Qed.

Lemma faint_bands (g : Z) :
  in_u8 g -> faint_green g <= 80 /\ faint_blue g <= 70 /\ faint_alpha g <= 40.
Proof.
  intros Hg.
  assert (Hall : all_u8 (fun g => (faint_green g <=? 80) && (faint_blue g <=? 70)
                                  && (faint_alpha g <=? 40)) = true)
    by (vm_compute; reflexivity).
  pose proof (all_u8_spec _ Hall g Hg) as Hb. cbv beta in Hb.
  apply andb_true_iff in Hb as [Hb Ha]. apply andb_true_iff in Hb as [Hgr Hbl].
  apply Z.leb_le in Hgr, Hbl, Ha. auto.
Qed.

Lemma violet_alpha_band (o : Z) : in_u8 o -> violet_alpha o <= 180.
Proof.
  intros Ho.
  assert (Hall : all_u8 (fun o => violet_alpha o <=? 180) = true)
    by (vm_compute; reflexivity).
  apply Z.leb_le. exact (all_u8_spec _ Hall o Ho).
Qed.

(** Halving in [float32], clipping at 128 and truncating is the integer
    half, capped at 128. *)
Lemma glow_alpha_value (a : Z) : in_u8 a -> glow_alpha a = Z.min 128 (a / 2).
Proof.
  intros Ha.
  assert (Hall : all_u8 (fun a => glow_alpha a =? Z.min 128 (a / 2)) = true)
    by (vm_compute; reflexivity).
  apply Z.eqb_eq. exact (all_u8_spec _ Hall a Ha).
Qed.

Lemma layer_pixel_alpha_range (c o g : Z) : in_u8 (alpha (layer_pixel c o g)).
Proof.
  unfold layer_pixel.
  destruct (is_edge c); [apply u8_range|].
  destruct (is_offset c o); [apply u8_range|].
  destruct (is_faint c o g); [apply u8_range|].
  unfold in_u8; cbn; lia.
Qed.

(** ** Masks *)

Lemma inside_dec {A} (g : Grid A) (y x : nat) : {inside g y x} + {~ inside g y x}.
Proof.
  unfold inside.
  destruct (lt_dec y (ysize g)); [|right; lia].
  destruct (lt_dec x (xsize g)); [left; lia | right; lia].
Qed.

Lemma outside_filter (k : PIL.Kernel) (img : Image) (y x : nat) :
  ~ inside img y x -> ~ inside (PIL.filter k (gray img)) y x.
Proof. unfold inside. rewrite filter_ysize, filter_xsize. exact (fun H => H). Qed.

Lemma masks_outside (img : Image) (y x : nat) :
  ~ inside img y x -> masks_at img y x = (false, false, false).
Proof.
  intros Hout. unfold masks_at.
  rewrite (get_outside (edge_mask img)), (get_outside (offset_mask img)),
    (get_outside (faint_mask img)).
  - reflexivity.
  - apply wf_init.
  - exact Hout.
  - apply wf_init.
  - exact (outside_filter PIL.CONTOUR img y x Hout).
  - apply wf_init.
  - exact (outside_filter kernel_fine img y x Hout).
Qed.

Lemma masks_inside (img : Image) (y x : nat) :
  inside img y x ->
  masks_at img y x
  = (is_edge (Grid.get (combined img) y x),
     is_offset (Grid.get (combined img) y x) (Grid.get (arr_offset img) y x),
     is_faint (Grid.get (combined img) y x) (Grid.get (arr_offset img) y x)
              (Grid.get (gray img) y x)).
Proof.
  intros Hin. unfold masks_at.
  rewrite edge_mask_at, offset_mask_at, faint_mask_at by exact Hin. reflexivity.
Qed.

(** C3: at every pixel position at most one of [edge_mask], [offset_mask]
    and [faint_mask] is true: the three masks are pairwise disjoint. *)
Theorem masks_pairwise_disjoint (img : Image) (y x : nat) :
  Grid.get (edge_mask img) y x && Grid.get (offset_mask img) y x = false /\
  Grid.get (edge_mask img) y x && Grid.get (faint_mask img) y x = false /\
  Grid.get (offset_mask img) y x && Grid.get (faint_mask img) y x = false.
Proof.
  destruct (inside_dec img y x) as [Hin | Hout].
  - pose proof (masks_inside img y x Hin) as Hm. unfold masks_at in Hm.
    injection Hm as -> -> ->. unfold is_faint, is_offset.
    destruct (is_edge _), (40 <? _), (SFltb _ _); repeat split; reflexivity.
  - pose proof (masks_outside img y x Hout) as Hm. unfold masks_at in Hm.
    injection Hm as -> -> ->. repeat split; reflexivity.
Qed.

(** ** The combined edge grid *)

(** ** The glow composite *)

Lemma final_total (img : Image) : final img = Some (composited img).
Proof.
  unfold final, PIL.alpha_composite, Grid.same_size.
  destruct (glow_img_size img) as [Hy Hx]. rewrite Hy, Hx.
  change (ysize (out_img img)) with (ysize img).
  change (xsize (out_img img)) with (xsize img).
  rewrite !Nat.eqb_refl. reflexivity.
Qed.

Lemma inside_glow_img (img : Image) (y x : nat) :
  inside img y x -> inside (glow_img img) y x.
Proof.
  unfold inside. destruct (glow_img_size img) as [-> ->]. exact (fun H => H).
Qed.

Lemma composited_at (img : Image) (y x : nat) :
  inside img y x ->
  Grid.get (composited img) y x
  = PIL.composite_pixel (Grid.get (glow_img img) y x) (Grid.get (out_img img) y x).
Proof.
  intros Hin. unfold composited. rewrite get_map2 by exact (inside_glow_img img y x Hin).
  reflexivity.
Qed.

Lemma composite_under_transparent (dst src : rgba) :
  alpha src = 0 -> PIL.composite_pixel dst src = dst.
Proof. intros Ha. unfold PIL.composite_pixel. rewrite Ha. reflexivity. Qed.

Lemma SHIFTFORDIV255_div (a : Z) : PIL.SHIFTFORDIV255 a = (a / 256 + a) / 256.
Proof.
  unfold PIL.SHIFTFORDIV255. rewrite !Z.shiftr_div_pow2 by lia. reflexivity.
Qed.

(** The alpha of the composite is the rounded quotient by 255 of
    [255 s + d (255 - s)]. *)
Lemma composite_alpha (dst src : rgba) :
  in_u8 (alpha src) -> in_u8 (alpha dst) -> alpha src <> 0 ->
  alpha (PIL.composite_pixel dst src)
  = (2 * (alpha src * 255 + alpha dst * (255 - alpha src)) + 255) / 510.
Proof.
  unfold in_u8. intros Hs Hd Hne. unfold PIL.composite_pixel.
  destruct (alpha src =? 0) eqn:Hz; [apply Z.eqb_eq in Hz; contradiction|].
  cbn [alpha].
  set (s := alpha src) in *. set (d := alpha dst) in *.
  assert (Hblend : 0 <= d * (255 - s) <= 255 * 255) by nia.
  rewrite (u32_small (d * (255 - s))) by lia.
  rewrite (u32_small (s * 255 + d * (255 - s))) by lia.
  set (A := s * 255 + d * (255 - s)) in *.
  assert (HA : 255 <= A <= 65025) by (unfold A; nia).
  rewrite (u32_small (A + 128)) by lia.
  rewrite SHIFTFORDIV255_div.
  rewrite u8_small; unfold in_u8; Z.div_mod_to_equations; lia.
Qed.

Lemma composite_alpha_ge (dst src : rgba) :
  in_u8 (alpha src) -> in_u8 (alpha dst) ->
  alpha src <= alpha (PIL.composite_pixel dst src) <= 255.
Proof.
  intros Hs Hd. destruct (Z.eq_dec (alpha src) 0) as [Hz | Hne].
  - rewrite composite_under_transparent by exact Hz. unfold in_u8 in *. lia.
  - rewrite composite_alpha by assumption. unfold in_u8 in *.
    assert (0 <= alpha dst * (255 - alpha src) <= 255 * (255 - alpha src)) by nia.
    Z.div_mod_to_equations. lia.
Qed.

Lemma box_blur_pass_at (r : spec_float) (im : Grid rgba) (y x : nat) :
  inside im y x -> pixel_u8 (Grid.get (PIL.ImagingHorizontalBoxBlur r im) y x).
Proof.
  intros [Hy Hx]. unfold PIL.ImagingHorizontalBoxBlur.
  destruct (PIL.box_weights r) as [[radius ww] fw].
  rewrite get_init by assumption.
  unfold pixel_u8, PIL.box_sample. cbn [red green blue alpha].
  repeat split; apply u8_range.
Qed.

Lemma GaussianBlur_at (im : Grid rgba) (y x : nat) :
  inside im y x -> pixel_u8 (Grid.get (PIL.GaussianBlur 2 im) y x).
Proof.
  intros [Hy Hx]. unfold PIL.GaussianBlur. change (2 =? 0) with false. cbv iota.
  unfold PIL.ImagingBoxBlur.
  set (r := PIL.gaussian_box_radius 2 3).
  set (t := PIL.ImagingTranspose (Nat.iter 3 (PIL.ImagingHorizontalBoxBlur r) im)).
  destruct (box_blur_passes_size r 3 im) as [Hy3 Hx3].
  assert (Hty : ysize t = xsize im) by (subst t; cbn; exact Hx3).
  assert (Htx : xsize t = ysize im) by (subst t; cbn; exact Hy3).
  destruct (box_blur_passes_size r 2 t) as [Hy2 Hx2].
  change (Nat.iter 3 (PIL.ImagingHorizontalBoxBlur r) t)
    with (PIL.ImagingHorizontalBoxBlur r (Nat.iter 2 (PIL.ImagingHorizontalBoxBlur r) t)).
  set (u := Nat.iter 2 (PIL.ImagingHorizontalBoxBlur r) t) in *.
  destruct (box_blur_pass_size r u) as [Hy1 Hx1].
  unfold PIL.ImagingTranspose at 1.
  rewrite get_init by lia.
  apply box_blur_pass_at. unfold inside. lia.
Qed.

Lemma glow_img_at (img : Image) (y x : nat) :
  inside img y x ->
  Grid.get (glow_img img) y x
  = set_band band3 (glow_alpha (alpha (Grid.get (glow img) y x)))
                   (Grid.get (glow img) y x).
Proof.
  intros Hin.
  assert (Hg : inside (glow img) y x).
  { unfold inside, glow. destruct (GaussianBlur_size 2 (out_img img)) as [-> ->].
    exact Hin. }
  unfold glow_img, glow_arr, np.store_channel. rewrite get_map2 by exact Hg.
  unfold np.astype_uint8, np.clip, np.mul_f32, np.array_float32, np.channel.
  rewrite !get_map by exact Hg. reflexivity.
Qed.

Lemma glow_at (img : Image) (y x : nat) :
  inside img y x -> pixel_u8 (Grid.get (glow img) y x).
Proof. intros Hin. unfold glow. apply GaussianBlur_at. exact Hin. Qed.

Lemma glow_img_alpha (img : Image) (y x : nat) :
  inside img y x ->
  alpha (Grid.get (glow_img img) y x)
  = Z.min 128 (alpha (Grid.get (glow img) y x) / 2).
Proof.
  intros Hin. rewrite glow_img_at by exact Hin. cbn [set_band alpha].
  apply glow_alpha_value. apply (glow_at img y x Hin).
Qed.

Lemma out_img_alpha_range (img : Image) (y x : nat) :
  inside img y x -> in_u8 (alpha (Grid.get (out_img img) y x)).
Proof.
  intros Hin. unfold out_img. rewrite result_at by exact Hin.
  apply layer_pixel_alpha_range.
Qed.

Lemma glow_img_alpha_range (img : Image) (y x : nat) :
  inside img y x -> 0 <= alpha (Grid.get (glow_img img) y x) <= 128.
Proof.
  intros Hin. rewrite glow_img_alpha by exact Hin.
  destruct (glow_at img y x Hin) as (_ & _ & _ & Ha). unfold in_u8 in Ha.
  assert (0 <= alpha (Grid.get (glow img) y x) / 2) by (apply Z.div_pos; lia).
  lia.
Qed.

Lemma composited_alpha_ge (img : Image) (y x : nat) :
  alpha (Grid.get (out_img img) y x) <= alpha (Grid.get (composited img) y x).
Proof.
  destruct (inside_dec img y x) as [Hin | Hout].
  - rewrite composited_at by exact Hin.
    apply composite_alpha_ge.
    + apply out_img_alpha_range. exact Hin.
    + pose proof (glow_img_alpha_range img y x Hin). unfold in_u8. lia.
  - rewrite (get_outside (out_img img)), (get_outside (composited img)).
    + reflexivity.
    + apply wf_init.
    + unfold inside in *. destruct (glow_img_size img) as [Hy Hx].
      change (ysize (composited img)) with (ysize (glow_img img)).
      change (xsize (composited img)) with (xsize (glow_img img)).
      rewrite Hy, Hx. exact Hout.
    + apply wf_init.
    + exact Hout.
Qed.

(** C10: the glow composite never lowers opacity: at every position the
    alpha of the composited output is at least the alpha of the sharp
    pre-glow image. *)
Theorem glow_composite_never_lowers_alpha (img : Image) :
  exists out,
    final img = Some out /\
    forall y x, alpha (Grid.get (out_img img) y x) <= alpha (Grid.get out y x).
Proof.
  exists (composited img). split; [apply final_total|].
  intros y x. apply composited_alpha_ge.
Qed.

(** ** Pixels outside the three masks *)

Lemma unmasked_layer_pixel (c o g : Z) :
  is_edge c = false -> is_offset c o = false -> is_faint c o g = false ->
  layer_pixel c o g = mkRgba 0 0 0 0.
Proof. intros He Ho Hf. unfold layer_pixel. rewrite He, Ho, Hf. reflexivity. Qed.


(** C2, as the code has it: a pixel outside the three masks is
    [(0, 0, 0, 0)] in the pre-glow buffer; in the composited output it is
    the pixel of the glow buffer, so that its alpha is half the alpha of
    the blurred pre-glow buffer at that position, rounded down: at most
    127, and in general not 0. *)
Theorem unmasked_pixel_transparent_before_glow (img : Image) (y x : nat) :
  inside img y x ->
  masks_at img y x = (false, false, false) ->
  Grid.get (result img) y x = mkRgba 0 0 0 0 /\
  exists out,
    final img = Some out /\
    Grid.get out y x = Grid.get (glow_img img) y x /\
    alpha (Grid.get out y x) = alpha (Grid.get (glow img) y x) / 2 /\
    0 <= alpha (Grid.get out y x) <= 127.
Proof.
  intros Hin Hmasks. rewrite masks_inside in Hmasks by exact Hin.
  injection Hmasks as He Ho Hf.
  assert (Hres : Grid.get (result img) y x = mkRgba 0 0 0 0).
  { rewrite result_at by exact Hin. apply unmasked_layer_pixel; assumption. }
  split; [exact Hres|].
  exists (composited img). split; [apply final_total|].
  assert (Hc : Grid.get (composited img) y x = Grid.get (glow_img img) y x).
  { rewrite composited_at by exact Hin. apply composite_under_transparent.
    unfold out_img. rewrite Hres. reflexivity. }
  split; [exact Hc|]. rewrite Hc, glow_img_alpha by exact Hin.
  destruct (glow_at img y x Hin) as (_ & _ & _ & Ha). unfold in_u8 in Ha.
  generalize dependent (alpha (Grid.get (glow img) y x)). intros a Ha.
  split; Z.div_mod_to_equations; lia.
Qed.

Lemma unmasked_pixel_transparent_before_glow_witness :
  inside ring3x3 1 1 /\
  masks_at ring3x3 1 1 = (false, false, false) /\
  Grid.get (result ring3x3) 1 1 = mkRgba 0 0 0 0.
Proof.
  assert (Hin : inside ring3x3 1 1) by (unfold inside; cbn; lia).
  assert (Hmasks : masks_at ring3x3 1 1 = (false, false, false))
    by (vm_compute; reflexivity).
  split; [exact Hin|]. split; [exact Hmasks|].
  exact (proj1 (unmasked_pixel_transparent_before_glow ring3x3 1 1 Hin Hmasks)).
Defined.

(** C2, as the claim states it, fails: the centre of [ring3x3] is outside
    the three masks, and the glow of its neighbours gives it a positive
    alpha in the composited output. *)
Lemma glow_reaches_unmasked_pixel :
  inside ring3x3 1 1 /\
  masks_at ring3x3 1 1 = (false, false, false) /\
  exists out,
    final ring3x3 = Some out /\
    0 < alpha (Grid.get out 1 1).
Proof.
  split; [unfold inside; cbn; lia|].
  split; [vm_compute; reflexivity|].
  exists (composited ring3x3). split; [apply final_total|].
  vm_compute. reflexivity.
Qed.

(** ** Bands of the layers *)

Lemma gray_range (img : Image) (y x : nat) :
  inside img y x -> in_u8 (Grid.get (gray img) y x).
Proof. intros Hin. rewrite gray_at by exact Hin. apply rgb2l_range. Qed.

Lemma arr_offset_range (img : Image) (y x : nat) :
  inside img y x -> in_u8 (Grid.get (arr_offset img) y x).
Proof. intros Hin. rewrite arr_offset_at by exact Hin. apply u8_range. Qed.

(** ** The blank image *)

Lemma inside_interior3 (img : Image) (y x : nat) : interior3 img y x -> inside img y x.
Proof. unfold interior3, inside. lia. Qed.

Lemma gray_black (img : Image) :
  all_black img -> forall y x, Grid.get (gray img) y x = 0.
Proof.
  intros Hblack y x. destruct (inside_dec img y x) as [Hin | Hout].
  - rewrite gray_at by exact Hin. rewrite (Hblack y x Hin). reflexivity.
  - apply (get_outside (gray img)); [apply wf_init | exact Hout].
Qed.

Lemma weighted_sum_zero (k : PIL.Kernel) (im : Grid Z) (y x : nat) :
  (forall y' x', Grid.get im y' x' = 0) -> PIL.weighted_sum k im y x = 0.
Proof.
  intros Hzero. unfold PIL.weighted_sum.
  destruct (PIL.size k); cbn [PIL.side PIL.border Nat.mul Nat.add seq flat_map List.map app
                              fold_right];
    rewrite !Hzero, !Z.mul_0_r; reflexivity.
Qed.

Lemma filter_zero (k : PIL.Kernel) (im : Grid Z) :
  PIL.offset k = 0 ->
  (forall y x, Grid.get im y x = 0) ->
  forall y x, Grid.get (PIL.filter k im) y x = 0.
Proof.
  intros Hoff Hzero y x. unfold PIL.filter.
  destruct (_ || _)%bool; [apply Hzero|].
  set (g := Grid.init _ _ _).
  destruct (inside_dec g y x) as [[Hy Hx] | Hout].
  - subst g. rewrite get_init by assumption.
    destruct (PIL.interior k im y x); [|apply Hzero].
    rewrite Hoff, weighted_sum_zero by exact Hzero. reflexivity.
  - apply (get_outside g); [apply wf_init | exact Hout].
Qed.

Lemma combined_black (img : Image) (y x : nat) :
  all_black img -> inside img y x -> Grid.get (combined img) y x = 0.
Proof.
  intros Hblack Hin. rewrite combined_at by exact Hin.
  unfold edges_fine, edges_medium, edges_coarse.
  rewrite !filter_zero by (try reflexivity; apply gray_black; exact Hblack).
  vm_compute. reflexivity.
Qed.

(** The contour filter of a blank image is white away from the frame. *)
Lemma edges_offset_black (img : Image) (y x : nat) :
  all_black img -> interior3 img y x -> Grid.get (edges_offset img) y x = 255.
Proof.
  intros Hblack Hint. pose proof Hint as (Hy1 & Hy2 & Hx1 & Hx2).
  unfold edges_offset, PIL.filter.
  change (xsize (gray img)) with (xsize img). change (ysize (gray img)) with (ysize img).
  change (PIL.side (PIL.size PIL.CONTOUR)) with 3%nat.
  destruct (Nat.ltb_spec (xsize img) 3); [lia|].
  destruct (Nat.ltb_spec (ysize img) 3); [lia|].
  cbn [orb]. rewrite get_init by lia.
  unfold PIL.interior.
  change (xsize (gray img)) with (xsize img). change (ysize (gray img)) with (ysize img).
  change (PIL.border (PIL.size PIL.CONTOUR)) with 1%nat.
  destruct (Nat.leb_spec 1 y); [|lia]. destruct (Nat.ltb_spec (y + 1) (ysize img)); [|lia].
  destruct (Nat.leb_spec 1 x); [|lia]. destruct (Nat.ltb_spec (x + 1) (xsize img)); [|lia].
  cbn [andb]. rewrite weighted_sum_zero by (apply gray_black; exact Hblack).
  reflexivity.
Qed.

(** C1 on the code: in an all-black, fully opaque image every pixel away
    from the frame is painted violet with alpha 102 before the glow, and is
    saved with alpha at least 102: the output is not transparent. *)
Theorem blank_image_interior_is_violet (img : Image) (y x : nat) :
  all_black img ->
  interior3 img y x ->
  Grid.get (out_img img) y x = mkRgba 147 51 234 102 /\
  exists out, final img = Some out /\ 102 <= alpha (Grid.get out y x).
Proof.
  intros Hblack Hint. pose proof (inside_interior3 img y x Hint) as Hin.
  assert (Hout : Grid.get (out_img img) y x = mkRgba 147 51 234 102).
  { unfold out_img. rewrite result_at by exact Hin.
    rewrite combined_black by assumption.
    rewrite arr_offset_at by exact Hin.
    rewrite edges_offset_black by assumption.
    rewrite gray_black by exact Hblack.
    vm_compute. reflexivity. }
  split; [exact Hout|].
  exists (composited img). split; [apply final_total|].
  pose proof (composited_alpha_ge img y x) as Hge.
  rewrite Hout in Hge. exact Hge.
Qed.

Lemma black3x3_all_black : all_black black3x3.
Proof.
  intros y x [Hy Hx]. unfold black3x3. rewrite get_init by assumption. reflexivity.
Qed.

Lemma blank_image_interior_is_violet_witness :
  all_black black3x3 /\ interior3 black3x3 1 1 /\
  Grid.get (out_img black3x3) 1 1 = mkRgba 147 51 234 102.
Proof.
  assert (Hint : interior3 black3x3 1 1) by (unfold interior3; cbn; lia).
  split; [exact black3x3_all_black|]. split; [exact Hint|].
  exact (proj1 (blank_image_interior_is_violet black3x3 1 1 black3x3_all_black Hint)).
Defined.


(** ** Files *)

Lemma save_size (im : Grid rgba) :
  ysize (save im) = ysize im /\ xsize (save im) = xsize im /\ Grid.wf (save im).
Proof. unfold save. split; [reflexivity|]. split; [reflexivity|]. apply wf_init. Qed.

(** What a call that returns has read and written. *)
Lemma create_wireframe_returns (stdout : bool) (fs fs1 : FileSystem)
    (src_path dst_path : list string) :
  create_wireframe stdout fs src_path dst_path = Returns fs1 ->
  stdout = true /\
  exists w img r,
    fs !! src_path = Some (RegularFile true w (Some img)) /\
    fs1 = <[dst_path := RegularFile r true (Some (save (composited img)))]> fs.
Proof.
  unfold create_wireframe, Image_open, print.
  destruct (fs !! src_path) as [[dw | [|] w [img|]]|]; try discriminate.
  rewrite final_total. unfold Image_save.
  destruct (fs !! parent dst_path) as [[dw|]|]; try discriminate.
  destruct (fs !! dst_path) as [[dw'| r [|] c]|]; try discriminate.
  - destruct stdout; [|discriminate]. intros H. injection H as <-.
    split; [reflexivity|]. exists w, img, r. split; reflexivity.
  - destruct dw; try discriminate.
    destruct stdout; [|discriminate]. intros H. injection H as <-.
    split; [reflexivity|]. exists w, img, true. split; reflexivity.
Qed.

(** Writing over a file of one's own. *)
Lemma create_wireframe_overwrites (fs : FileSystem) (src_path dst_path : list string)
    (w dw r : bool) (img : Image) (c : option Image) :
  fs !! src_path = Some (RegularFile true w (Some img)) ->
  fs !! parent dst_path = Some (Directory dw) ->
  fs !! dst_path = Some (RegularFile r true c) ->
  create_wireframe true fs src_path dst_path
  = Returns (<[dst_path := RegularFile r true (Some (save (composited img)))]> fs).
Proof.
  intros Hsrc Hdir Hdst. unfold create_wireframe, Image_open. rewrite Hsrc, final_total.
  unfold Image_save. rewrite Hdir, Hdst. reflexivity.
Qed.

(** Writing a new file in a writable directory. *)
Lemma create_wireframe_creates (fs : FileSystem) (src_path dst_path : list string)
    (w : bool) (img : Image) :
  fs !! src_path = Some (RegularFile true w (Some img)) ->
  fs !! parent dst_path = Some (Directory true) ->
  fs !! dst_path = None ->
  create_wireframe true fs src_path dst_path
  = Returns (<[dst_path := RegularFile true true (Some (save (composited img)))]> fs).
Proof.
  intros Hsrc Hdir Hdst. unfold create_wireframe, Image_open. rewrite Hsrc, final_total.
  unfold Image_save. rewrite Hdir, Hdst. reflexivity.
Qed.

(** Saving into a directory that does not exist raises, and so does
    opening a file that holds no picture. *)
Example create_wireframe_missing_directory :
  create_wireframe true avatars
    ["iaret"; "assets"; "avatar"; "idle.png"]%string ["nodir"; "out.png"]%string
  = Raises save_raised.
Proof. vm_compute. reflexivity. Qed.

Example create_wireframe_undecodable_source :
  create_wireframe true broken_avatars
    ["iaret"; "assets"; "avatar"; "idle.png"]%string
    ["iaret"; "assets"; "avatar"; "out.png"]%string
  = Raises open_raised.
Proof. vm_compute. reflexivity. Qed.

(** X20: whenever [create_wireframe] returns, the source path held a
    readable picture, the output path holds a writable file with the
    encoding of the composited image, which has the width and the height of
    the source, and no other path has changed. *)
Theorem create_wireframe_writes_one_file (stdout : bool) (fs fs' : FileSystem)
    (src_path dst_path : list string) :
  create_wireframe stdout fs src_path dst_path = Returns fs' ->
  exists w img r out,
    fs !! src_path = Some (RegularFile true w (Some img)) /\
    final img = Some out /\
    fs' !! dst_path = Some (RegularFile r true (Some (save out))) /\
    xsize (save out) = xsize img /\ ysize (save out) = ysize img /\
    forall p, p <> dst_path -> fs' !! p = fs !! p.
Proof.
  intros H. apply create_wireframe_returns in H as (_ & w & img & r & Hsrc & ->).
  exists w, img, r, (composited img).
  split; [exact Hsrc|]. split; [apply final_total|].
  split; [apply lookup_insert_eq|].
  destruct (save_size (composited img)) as (Hy & Hx & _).
  destruct (glow_img_size img) as [Hgy Hgx].
  split; [rewrite Hx; exact Hgx|]. split; [rewrite Hy; exact Hgy|].
  intros p Hp. apply lookup_insert_ne. congruence.
Qed.

Lemma create_wireframe_writes_one_file_witness :
  exists fs',
    create_wireframe true avatars_with_holo
      ["iaret"; "assets"; "avatar"; "idle.png"]%string
      ["iaret"; "assets"; "holo"; "holo_portrait.png"]%string
    = Returns fs' /\
    forall p, p <> ["iaret"; "assets"; "holo"; "holo_portrait.png"]%string ->
              fs' !! p = avatars_with_holo !! p.
Proof.
  assert (Hrun :
    create_wireframe true avatars_with_holo
      ["iaret"; "assets"; "avatar"; "idle.png"]%string
      ["iaret"; "assets"; "holo"; "holo_portrait.png"]%string
    = Returns (<[ ["iaret"; "assets"; "holo"; "holo_portrait.png"]%string
                  := RegularFile true true (Some (save (composited ring3x3))) ]>
               avatars_with_holo)).
  { apply (create_wireframe_creates _ _ _ false ring3x3); vm_compute; reflexivity. }
  eexists. split; [exact Hrun|].
  destruct (create_wireframe_writes_one_file _ _ _ _ _ Hrun)
    as (w & img & r & out & _ & _ & _ & _ & _ & Hframe).
  exact Hframe.
Defined.

(** ** The source alpha *)

Lemma gray_same_rgb (img1 img2 : Image) : same_rgb img1 img2 -> gray img1 = gray img2.
Proof.
  intros (Hy & Hx & Hrgb). unfold gray, PIL.convert_L, Grid.map.
  rewrite <- Hy, <- Hx. apply init_ext. intros y x Hlty Hltx.
  destruct (Hrgb y x (conj Hlty Hltx)) as (Hr & Hg & Hb).
  unfold PIL.rgb2l, PIL.L24. rewrite Hr, Hg, Hb. reflexivity.
Qed.

(** C9: the output does not depend on the alpha band of the source: two
    images of the same size that agree on R, G and B at every position
    give the same result. *)
Theorem final_ignores_source_alpha (img1 img2 : Image) :
  same_rgb img1 img2 -> final img1 = final img2.
Proof.
  intros Hsame. pose proof (gray_same_rgb img1 img2 Hsame) as Hgray.
  destruct Hsame as (Hy & Hx & _).
  unfold final, glow_img, glow_arr, glow, out_img, result, result_violet, result_cyan,
    faint_band, faint_mask, orig_gray, offset_mask, arr_offset, edges_offset, edge_mask,
    combined, combined_boost, combined_sum, arr_fine, arr_medium, arr_coarse,
    edges_fine, edges_medium, edges_coarse, h, w.
  rewrite Hgray, Hy, Hx. reflexivity.
Qed.

Lemma final_ignores_source_alpha_witness :
  same_rgb black3x3 clear3x3 /\ final black3x3 = final clear3x3.
Proof.
  assert (Hsame : same_rgb black3x3 clear3x3).
  { split; [reflexivity|]. split; [reflexivity|].
    intros y x [Hy Hx]. unfold black3x3, clear3x3.
    rewrite !get_init by assumption. repeat split; reflexivity. }
  split; [exact Hsame|].
  exact (final_ignores_source_alpha black3x3 clear3x3 Hsame).
Defined.

(** ** The compositing operator *)

Lemma layer_pixel_u8 (c o g : Z) : pixel_u8 (layer_pixel c o g).
Proof.
  unfold layer_pixel, pixel_u8.
  destruct (is_edge c); [|destruct (is_offset c o); [|destruct (is_faint c o g)]];
    cbn [red green blue alpha]; repeat split;
    first [apply u8_range | unfold in_u8; lia].
Qed.

Lemma get_band_u8 (c : band) (p : rgba) : pixel_u8 p -> in_u8 (get_band c p).
Proof. intros (Hr & Hg & Hb & Ha). destruct c; assumption. Qed.

(** The rounded division by [255 * 128] of the library, on the range of
    a blend of two samples. *)
Lemma blend_quotient (T : Z) :
  0 <= T <= 255 * 32640 ->
  let out := PIL.SHIFTFORDIV255 (T + 16384) / 128 in
  T - 16640 <= 32640 * out <= T + 16384 /\ 0 <= out <= 255.
Proof.
  intros HT. cbv zeta. rewrite SHIFTFORDIV255_div.
  Z.div_mod_to_equations. lia.
Qed.

(** One colour band of the composite, without the wrap-arounds. *)
Lemma blend_value (s d cs cd : Z) :
  in_u8 s -> in_u8 d -> in_u8 cs -> in_u8 cd -> s <> 0 ->
  (let blend := u32 (d * (255 - s)) in
   let outa255 := u32 (s * 255 + blend) in
   let coef1 := u32 (s * 255 * 255 * 2 ^ PIL.PRECISION_BITS) / outa255 in
   let coef2 := u32 (255 * 2 ^ PIL.PRECISION_BITS - coef1) in
   let tmp := u32 (cs * coef1 + cd * coef2) in
   u8 (Z.shiftr (PIL.SHIFTFORDIV255 (u32 (tmp + 128 * 2 ^ PIL.PRECISION_BITS)))
                PIL.PRECISION_BITS))
  = (let A := s * 255 + d * (255 - s) in
     let q := s * 255 * 255 * 128 / A in
     PIL.SHIFTFORDIV255 (cs * q + cd * (32640 - q) + 16384) / 128).
Proof.
  unfold in_u8. intros Hs Hd Hcs Hcd Hne. cbv zeta.
  change (2 ^ PIL.PRECISION_BITS) with 128. change (128 * 128) with 16384.
  change (255 * 128) with 32640.
  assert (Hblend : 0 <= d * (255 - s) <= 255 * 255) by nia.
  rewrite (u32_small (d * (255 - s))) by lia.
  rewrite (u32_small (s * 255 + d * (255 - s))) by lia.
  set (A := s * 255 + d * (255 - s)) in *.
  assert (HA : 255 * s <= A <= 65025) by (unfold A; nia).
  rewrite (u32_small (s * 255 * 255 * 128)) by lia.
  set (q := s * 255 * 255 * 128 / A).
  assert (Hq : 0 <= q <= 32640).
  { split.
    - apply Z.div_pos; lia.
    - apply Z.div_le_upper_bound; lia. }
  rewrite (u32_small (32640 - q)) by lia.
  assert (HT : 0 <= cs * q + cd * (32640 - q) <= 255 * 32640) by nia.
  rewrite (u32_small (cs * q + cd * (32640 - q))) by lia.
  rewrite (u32_small (cs * q + cd * (32640 - q) + 16384)) by lia.
  rewrite Z.shiftr_div_pow2 by (unfold PIL.PRECISION_BITS; lia).
  change (2 ^ PIL.PRECISION_BITS) with 128.
  destruct (blend_quotient _ HT) as [_ Hout].
  apply u8_small. exact Hout.
Qed.

Lemma composite_band (c : band) (dst src : rgba) :
  pixel_u8 src -> pixel_u8 dst -> alpha src <> 0 -> c <> band3 ->
  Z.abs (get_band c (PIL.composite_pixel dst src) * over_den src dst
         - over_num c src dst) <= over_den src dst.
Proof.
  intros Hsrc Hdst Hne Hc.
  pose proof (get_band_u8 c src Hsrc) as Hcs.
  pose proof (get_band_u8 c dst Hdst) as Hcd.
  destruct Hsrc as (_ & _ & _ & Hs). destruct Hdst as (_ & _ & _ & Hd).
  assert (Hband : get_band c (PIL.composite_pixel dst src)
    = let A := alpha src * 255 + alpha dst * (255 - alpha src) in
      let q := alpha src * 255 * 255 * 128 / A in
      PIL.SHIFTFORDIV255 (get_band c src * q + get_band c dst * (32640 - q) + 16384) / 128).
  { rewrite <- (blend_value (alpha src) (alpha dst) (get_band c src) (get_band c dst))
      by assumption.
    unfold PIL.composite_pixel.
    destruct (alpha src =? 0) eqn:Hz; [apply Z.eqb_eq in Hz; contradiction|].
    destruct c; try reflexivity. contradiction. }
  unfold in_u8 in *.
  rewrite Hband. clear Hband. cbv zeta.
  unfold over_den, over_num.
  set (s := alpha src) in *. set (d := alpha dst) in *.
  set (cs := get_band c src) in *. set (cd := get_band c dst) in *.
  replace (255 * s + d * (255 - s)) with (s * 255 + d * (255 - s)) by lia.
  set (A := s * 255 + d * (255 - s)).
  assert (HA : 255 * s <= A <= 65025) by (unfold A; nia).
  set (q := s * 255 * 255 * 128 / A).
  assert (Hdiv : q * A <= s * 255 * 255 * 128 < q * A + A).
  { unfold q. pose proof (Z.mul_div_le (s * 255 * 255 * 128) A ltac:(lia)).
    pose proof (Z.mul_succ_div_gt (s * 255 * 255 * 128) A ltac:(lia)). lia. }
  assert (Hq : 0 <= q <= 32640).
  { split.
    - apply Z.div_pos; lia.
    - apply Z.div_le_upper_bound; lia. }
  set (T := cs * q + cd * (32640 - q)).
  assert (HT : 0 <= T <= 255 * 32640) by (unfold T; nia).
  destruct (blend_quotient T HT) as [Hnear _].
  set (out := PIL.SHIFTFORDIV255 (T + 16384) / 128) in *.
  set (r := s * 255 * 255 * 128 - q * A).
  assert (Hr : 0 <= r < A) by (unfold r; lia).
  assert (Hid : 32640 * (out * A - (cs * (255 * s) + cd * (d * (255 - s))))
                = A * (32640 * out - T) + (cd - cs) * r).
  { unfold T, r, A. ring. }
  assert (HD : -16640 <= 32640 * out - T <= 16384) by lia.
  assert (He : -255 <= cd - cs <= 255) by lia.
  assert (HA0 : 0 < A) by lia.
  clearbody out T r A q. clear - Hid HD He HA0 Hr.
  assert (H1 : - 16640 * A <= A * (32640 * out - T) <= 16384 * A) by nia.
  assert (H2 : - 255 * A <= (cd - cs) * r <= 255 * A) by nia.
  apply Z.abs_le. lia.
Qed.

Lemma composite_is_over (dst src : rgba) :
  pixel_u8 src -> pixel_u8 dst -> is_over (PIL.composite_pixel dst src) src dst.
Proof.
  intros Hsrc Hdst. destruct (Z.eq_dec (alpha src) 0) as [Hz | Hne].
  - rewrite composite_under_transparent by exact Hz.
    unfold is_over, over_den, over_num. rewrite Hz.
    destruct Hdst as (_ & _ & _ & Hd). unfold in_u8 in Hd.
    split.
    + replace (255 * alpha dst - (255 * 0 + alpha dst * (255 - 0))) with 0 by lia.
      cbn. lia.
    + intros c _.
      replace (get_band c dst * (255 * 0 + alpha dst * (255 - 0))
               - (get_band c src * (255 * 0) + get_band c dst * (alpha dst * (255 - 0))))
        with 0 by ring.
      cbn. lia.
  - split.
    + rewrite composite_alpha; [| apply Hsrc | apply Hdst | exact Hne].
      unfold over_den.
      destruct Hsrc as (_ & _ & _ & Hs). destruct Hdst as (_ & _ & _ & Hd).
      unfold in_u8 in *.
      replace (alpha src * 255 + alpha dst * (255 - alpha src))
        with (255 * alpha src + alpha dst * (255 - alpha src)) by lia.
      set (A := 255 * alpha src + alpha dst * (255 - alpha src)).
      assert (HA : 0 <= A) by (unfold A; nia).
      clearbody A.
      assert (Hq : -127 <= 255 * ((2 * A + 255) / 510) - A <= 127)
        by (Z.div_mod_to_equations; lia).
      apply (proj2 (Z.abs_le _ 127)) in Hq. lia.
    + intros c Hc. apply composite_band; assumption.
Qed.

(** ** The glow compositor *)

Lemma out_img_u8 (img : Image) (y x : nat) :
  inside img y x -> pixel_u8 (Grid.get (out_img img) y x).
Proof.
  intros Hin. unfold out_img. rewrite result_at by exact Hin. apply layer_pixel_u8.
Qed.

Lemma glow_img_u8 (img : Image) (y x : nat) :
  inside img y x -> pixel_u8 (Grid.get (glow_img img) y x).
Proof.
  intros Hin. rewrite glow_img_at by exact Hin.
  generalize (glow_at img y x Hin). generalize (Grid.get (glow img) y x).
  intros p (Hr & Hg & Hb & _).
  unfold pixel_u8. cbn [set_band red green blue alpha].
  split; [exact Hr|]. split; [exact Hg|]. split; [exact Hb|].
  unfold glow_alpha, scale_f32. apply u8_range.
Qed.

Lemma composite_pixel_u8 (dst src : rgba) :
  pixel_u8 dst -> pixel_u8 (PIL.composite_pixel dst src).
Proof.
  intros Hd. unfold PIL.composite_pixel. destruct (alpha src =? 0); [exact Hd|].
  unfold pixel_u8. cbn [red green blue alpha].
  split; [apply u8_range|]. split; [apply u8_range|]. split; apply u8_range.
Qed.

(** C7: for every source image the pipeline produces an image, and the
    image handed to [save], like the one [save] encodes, has the width and
    the height of the source, every row holding that many pixels of four
    8-bit bands (RGBA). *)
Theorem final_preserves_size (img : Image) :
  exists out : Grid rgba,
    final img = Some out /\
    xsize out = xsize img /\ ysize out = ysize img /\ Grid.wf out /\
    (forall y x, inside img y x -> pixel_u8 (Grid.get out y x)) /\
    xsize (save out) = xsize img /\ ysize (save out) = ysize img /\
    Grid.wf (save out).
Proof.
  exists (composited img). split; [apply final_total|].
  destruct (glow_img_size img) as [Hgy Hgx].
  destruct (save_size (composited img)) as (Hy & Hx & Hwf).
  assert (Hcx : xsize (composited img) = xsize img) by exact Hgx.
  assert (Hcy : ysize (composited img) = ysize img) by exact Hgy.
  split; [exact Hcx|]. split; [exact Hcy|].
  split; [unfold composited, Grid.map2; apply wf_init|].
  split.
  - intros y x Hin. rewrite composited_at by exact Hin.
    apply composite_pixel_u8. apply glow_img_u8. exact Hin.
  - rewrite Hx, Hy. split; [exact Hcx|]. split; [exact Hcy | exact Hwf].
Qed.

(* ===================================================================== *)
(** * Further properties of the pipeline *)
(* ===================================================================== *)

(** ** The values the layers can take *)

Lemma combined_range (img : Image) (y x : nat) :
  inside img y x ->
  Grid.get (combined img) y x = 0 \/ 30 <= Grid.get (combined img) y x <= 255.
Proof. intros Hin. rewrite combined_at by exact Hin. apply combine_cases. Qed.

Lemma cyan_alpha_band (c : Z) : 30 <= c <= 255 -> 27 <= cyan_alpha c <= 229.
Proof.
  intros Hc.
  assert (Hall : all_u8 (fun c => (c <? 30) || ((27 <=? cyan_alpha c)
                                               && (cyan_alpha c <=? 229))) = true)
    by (vm_compute; reflexivity).
  pose proof (all_u8_spec _ Hall c ltac:(unfold in_u8; lia)) as Hb. cbv beta in Hb.
  apply orb_true_iff in Hb as [Hb | Hb]; [apply Z.ltb_lt in Hb; lia|].
  apply andb_true_iff in Hb as [Hlo Hhi]. apply Z.leb_le in Hlo, Hhi. lia.
Qed.

Lemma violet_alpha_tight (o : Z) : in_u8 o -> 40 < o -> 16 <= violet_alpha o <= 102.
Proof.
  intros Ho Hgt.
  assert (Hall : all_u8 (fun o => (o <=? 40) || ((16 <=? violet_alpha o)
                                                && (violet_alpha o <=? 102))) = true)
    by (vm_compute; reflexivity).
  pose proof (all_u8_spec _ Hall o Ho) as Hb. cbv beta in Hb.
  apply orb_true_iff in Hb as [Hb | Hb]; [apply Z.leb_le in Hb; lia|].
  apply andb_true_iff in Hb as [Hlo Hhi]. apply Z.leb_le in Hlo, Hhi. lia.
Qed.

Lemma faint_tight (g : Z) :
  in_u8 g -> SFltb (f32 30) (f32 g) = true ->
  7 <= faint_green g <= 63 /\ 6 <= faint_blue g <= 56 /\ 3 <= faint_alpha g <= 30.
Proof.
  intros Hg Hgt.
  assert (Hall : all_u8 (fun g => negb (SFltb (f32 30) (f32 g))
      || ((7 <=? faint_green g) && (faint_green g <=? 63)
          && (6 <=? faint_blue g) && (faint_blue g <=? 56)
          && (3 <=? faint_alpha g) && (faint_alpha g <=? 30))) = true)
    by (vm_compute; reflexivity).
  pose proof (all_u8_spec _ Hall g Hg) as Hb. cbv beta in Hb.
  rewrite Hgt in Hb. cbn [negb orb] in Hb.
  repeat (apply andb_true_iff in Hb as [Hb ?]).
  repeat match goal with H : (_ <=? _) = true |- _ => apply Z.leb_le in H end.
  lia.
Qed.

(** X1: the layer clamps never bind.  Before the glow an edge pixel is cyan
    with alpha in [[27, 229]], a secondary pixel is violet with alpha in
    [[16, 102]], and a faint pixel has red 0, green in [[7, 63]], blue in
    [[6, 56]] and alpha in [[3, 30]]: a painted pixel is neither invisible
    nor opaque. *)
Theorem painted_pixels_are_translucent (img : Image) (y x : nat) :
  inside img y x ->
  (Grid.get (edge_mask img) y x = true ->
     exists a, Grid.get (result img) y x = mkRgba 0 255 220 a /\ 27 <= a <= 229) /\
  (Grid.get (offset_mask img) y x = true ->
     exists a, Grid.get (result img) y x = mkRgba 147 51 234 a /\ 16 <= a <= 102) /\
  (Grid.get (faint_mask img) y x = true ->
     exists g b a, Grid.get (result img) y x = mkRgba 0 g b a /\
                   7 <= g <= 63 /\ 6 <= b <= 56 /\ 3 <= a <= 30).
Proof.
  intros Hin.
  pose proof (gray_range img y x Hin) as Hg.
  pose proof (arr_offset_range img y x Hin) as Ho.
  pose proof (combined_range img y x Hin) as Hc.
  rewrite edge_mask_at, faint_mask_at, offset_mask_at, result_at by exact Hin.
  generalize dependent (Grid.get (combined img) y x).
  generalize dependent (Grid.get (arr_offset img) y x).
  generalize dependent (Grid.get (gray img) y x).
  intros g Hg o Ho c Hc. unfold layer_pixel.
  split; [|split].
  - intros He. rewrite He. exists (cyan_alpha c). split; [reflexivity|].
    apply cyan_alpha_band. unfold is_edge in He. apply Z.ltb_lt in He. lia.
  - intros Hoff. rewrite Hoff. unfold is_offset in Hoff.
    apply andb_true_iff in Hoff as [Hgt Hne]. apply negb_true_iff in Hne. rewrite Hne.
    exists (violet_alpha o). split; [reflexivity|].
    apply violet_alpha_tight; [exact Ho | apply Z.ltb_lt; exact Hgt].
  - intros Hf. rewrite Hf. unfold is_faint in Hf.
    apply andb_true_iff in Hf as [Hf Hno]. apply andb_true_iff in Hf as [Hgt Hne].
    apply negb_true_iff in Hno, Hne. rewrite Hne, Hno.
    exists (faint_green g), (faint_blue g), (faint_alpha g). split; [reflexivity|].
    apply faint_tight; assumption.
Qed.

Lemma painted_pixels_are_translucent_witness :
  inside ring3x3 0 0 /\
  exists a, Grid.get (result ring3x3) 0 0 = mkRgba 0 255 220 a /\ 27 <= a <= 229.
Proof.
  assert (Hin : inside ring3x3 0 0) by (unfold inside; cbn; lia).
  split; [exact Hin|].
  apply (proj1 (painted_pixels_are_translucent ring3x3 0 0 Hin)).
  vm_compute. reflexivity.
Defined.

Lemma layer_pixel_alpha_le (c o g : Z) :
  in_u8 o -> in_u8 g -> (c = 0 \/ 30 <= c <= 255) ->
  0 <= alpha (layer_pixel c o g) <= 229.
Proof.
  intros Ho Hg Hc. unfold layer_pixel.
  destruct (is_edge c) eqn:He.
  - unfold is_edge in He. apply Z.ltb_lt in He. cbn [alpha].
    pose proof (cyan_alpha_band c ltac:(lia)). lia.
  - destruct (is_offset c o) eqn:Hoff.
    + unfold is_offset in Hoff. apply andb_true_iff in Hoff as [Hgt _].
      apply Z.ltb_lt in Hgt. cbn [alpha].
      pose proof (violet_alpha_tight o Ho Hgt). lia.
    + destruct (is_faint c o g) eqn:Hf; cbn [alpha]; [|lia].
      unfold is_faint in Hf. apply andb_true_iff in Hf as [Hf _].
      apply andb_true_iff in Hf as [Hgt _].
      pose proof (faint_tight g Hg Hgt). lia.
Qed.

(** C5, as the code has it: a pixel painted by the violet layer has alpha
    at most 180 in the pre-glow buffer and in the composited output, and
    the alpha of the glow buffer is at most 128 everywhere; a pixel painted
    by the faint layer has alpha at most 40, green at most 80 and blue at
    most 70 in the pre-glow buffer, not in the output. *)
Theorem faint_band_before_glow_violet_band_saved (img : Image) (y x : nat) :
  inside img y x ->
  (Grid.get (faint_mask img) y x = true ->
     alpha (Grid.get (result img) y x) <= 40 /\
     green (Grid.get (result img) y x) <= 80 /\
     blue (Grid.get (result img) y x) <= 70) /\
  (exists out,
     final img = Some out /\
     (Grid.get (offset_mask img) y x = true ->
        alpha (Grid.get (result img) y x) <= 180 /\
        alpha (Grid.get out y x) <= 180)) /\
  alpha (Grid.get (glow_img img) y x) <= 128.
Proof.
  intros Hin.
  pose proof (gray_range img y x Hin) as Hg.
  pose proof (arr_offset_range img y x Hin) as Ho.
  pose proof (glow_img_alpha_range img y x Hin) as Hglow.
  split; [|split; [|lia]].
  - rewrite faint_mask_at, result_at by exact Hin.
    intros Hf. unfold layer_pixel. rewrite Hf.
    unfold is_faint in Hf. apply andb_true_iff in Hf as [Hf Hno].
    apply andb_true_iff in Hf as [_ Hne].
    apply negb_true_iff in Hno, Hne. rewrite Hne, Hno. cbn [alpha green blue].
    destruct (faint_bands _ Hg) as (Hgr & Hbl & Hal). auto.
  - exists (composited img). split; [apply final_total|].
    intros Hoff.
    assert (Hres : exists a, Grid.get (result img) y x = mkRgba 147 51 234 a /\
                             16 <= a <= 102).
    { rewrite offset_mask_at in Hoff by exact Hin. rewrite result_at by exact Hin.
      unfold layer_pixel. rewrite Hoff. unfold is_offset in Hoff.
      apply andb_true_iff in Hoff as [Hgt Hne]. apply negb_true_iff in Hne.
      rewrite Hne. eexists. split; [reflexivity|].
      apply violet_alpha_tight; [exact Ho | apply Z.ltb_lt; exact Hgt]. }
    destruct Hres as (a & Hres & Ha). rewrite Hres. cbn [alpha]. split; [lia|].
    rewrite composited_at by exact Hin. unfold out_img. rewrite Hres.
    generalize dependent (Grid.get (glow_img img) y x). intros d Hd.
    rewrite composite_alpha; cbn [alpha]; unfold in_u8; try lia.
    assert (alpha d * (255 - a) <= 128 * (255 - a)) by nia.
    Z.div_mod_to_equations. lia.
Qed.

Lemma faint_band_before_glow_violet_band_saved_witness :
  inside faint3x3 1 1 /\
  alpha (Grid.get (glow_img faint3x3) 1 1) <= 128.
Proof.
  assert (Hin : inside faint3x3 1 1) by (unfold inside; cbn; lia).
  split; [exact Hin|].
  exact (proj2 (proj2 (faint_band_before_glow_violet_band_saved faint3x3 1 1 Hin))).
Defined.

(** C5, as the claim states it, fails: the centre of [faint3x3] is painted
    by the faint layer as [(0, 12, 11, 6)], and the composite over the glow
    of its neighbours saves it with alpha above 40, green above 80 and blue
    above 70. *)
Lemma faint_pixel_exceeds_band_after_glow :
  inside faint3x3 1 1 /\
  Grid.get (faint_mask faint3x3) 1 1 = true /\
  Grid.get (result faint3x3) 1 1 = mkRgba 0 12 11 6 /\
  exists out,
    final faint3x3 = Some out /\
    40 < alpha (Grid.get out 1 1) /\
    80 < green (Grid.get out 1 1) /\
    70 < blue (Grid.get out 1 1).
Proof.
  split; [unfold inside; cbn; lia|].
  split; [vm_compute; reflexivity|].
  split; [vm_compute; reflexivity|].
  exists (composited faint3x3). split; [apply final_total|].
  vm_compute. repeat split; reflexivity.
Qed.

Lemma composited_outside (img : Image) (y x : nat) :
  ~ inside img y x -> Grid.get (composited img) y x = mkRgba 0 0 0 0.
Proof.
  intros Hout. apply (get_outside (composited img)); [apply wf_init|].
  unfold inside in *. destruct (glow_img_size img) as [Hy Hx].
  change (ysize (composited img)) with (ysize (glow_img img)).
  change (xsize (composited img)) with (xsize (glow_img img)).
  rewrite Hy, Hx. exact Hout.
Qed.

(** X2: the saved image is never opaque: the alpha of every pixel of the
    output is at most 242. *)
Theorem output_is_never_opaque (img : Image) :
  exists out,
    final img = Some out /\
    forall y x, 0 <= alpha (Grid.get out y x) <= 242.
Proof.
  exists (composited img). split; [apply final_total|].
  intros y x. destruct (inside_dec img y x) as [Hin | Hout].
  - rewrite composited_at by exact Hin.
    assert (Hs : 0 <= alpha (Grid.get (out_img img) y x) <= 229).
    { unfold out_img. rewrite result_at by exact Hin.
      apply layer_pixel_alpha_le;
        [apply arr_offset_range | apply gray_range | apply combined_range]; exact Hin. }
    assert (Hd : 0 <= alpha (Grid.get (glow_img img) y x) <= 127).
    { rewrite glow_img_alpha by exact Hin.
      destruct (glow_at img y x Hin) as (_ & _ & _ & Ha). unfold in_u8 in Ha.
      generalize dependent (alpha (Grid.get (glow img) y x)). intros a Ha.
      Z.div_mod_to_equations. lia. }
    generalize dependent (Grid.get (out_img img) y x).
    generalize dependent (Grid.get (glow_img img) y x).
    intros dst Hd src Hs.
    destruct (Z.eq_dec (alpha src) 0) as [Hz | Hne].
    + rewrite composite_under_transparent by exact Hz. lia.
    + rewrite composite_alpha by (unfold in_u8; lia || assumption).
      assert (HA : 0 <= alpha src * 255 + alpha dst * (255 - alpha src) <= 61697) by nia.
      generalize dependent (alpha src * 255 + alpha dst * (255 - alpha src)).
      intros A HA. Z.div_mod_to_equations. lia.
  - rewrite composited_outside by exact Hout. cbn. lia.
Qed.

(** ** The frame of the image *)

Lemma filter_outside_interior (k : PIL.Kernel) (im : Grid Z) (y x : nat) :
  inside im y x -> PIL.interior k im y x = false ->
  Grid.get (PIL.filter k im) y x = Grid.get im y x.
Proof.
  intros [Hy Hx] Hint. unfold PIL.filter.
  destruct (_ || _)%bool; [reflexivity|].
  rewrite get_init by assumption. rewrite Hint. reflexivity.
Qed.

Lemma frame_not_interior (k : PIL.Kernel) (img : Image) (y x : nat) :
  on_frame img y x -> PIL.interior k (gray img) y x = false.
Proof.
  intros [[Hy Hx] Hframe]. unfold PIL.interior.
  change (ysize (gray img)) with (ysize img). change (xsize (gray img)) with (xsize img).
  assert (Hb : (1 <= PIL.border (PIL.size k))%nat) by (destruct (PIL.size k); cbn; lia).
  destruct (Nat.leb_spec (PIL.border (PIL.size k)) y); [|reflexivity].
  destruct (Nat.ltb_spec (y + PIL.border (PIL.size k)) (ysize img)); [|reflexivity].
  destruct (Nat.leb_spec (PIL.border (PIL.size k)) x); [|reflexivity].
  destruct (Nat.ltb_spec (x + PIL.border (PIL.size k)) (xsize img)); [|reflexivity].
  lia.
Qed.

Lemma filter_on_frame (k : PIL.Kernel) (img : Image) (y x : nat) :
  on_frame img y x ->
  Grid.get (PIL.filter k (gray img)) y x = Grid.get (gray img) y x.
Proof.
  intros Hframe. apply filter_outside_interior.
  - exact (proj1 Hframe).
  - apply frame_not_interior. exact Hframe.
Qed.

Lemma frame_layer_pixel (g : Z) :
  in_u8 g -> layer_pixel (combine g g g) (contour_scaled g) g = frame_pixel g.
Proof.
  intros Hg.
  assert (Hall : all_u8 (fun g =>
      Bool.eqb (is_edge (combine g g g)) (12 <=? g)
      && negb (is_offset (combine g g g) (contour_scaled g))
      && negb (is_faint (combine g g g) (contour_scaled g) g)) = true)
    by (vm_compute; reflexivity).
  pose proof (all_u8_spec _ Hall g Hg) as Hb. cbv beta in Hb.
  apply andb_true_iff in Hb as [Hb Hf]. apply andb_true_iff in Hb as [He Ho].
  apply Bool.eqb_prop in He. apply negb_true_iff in Ho, Hf.
  unfold layer_pixel, frame_pixel. rewrite He, Ho, Hf. reflexivity.
Qed.

Lemma combined_on_frame (img : Image) (y x : nat) :
  on_frame img y x ->
  Grid.get (combined img) y x
  = combine (Grid.get (gray img) y x) (Grid.get (gray img) y x) (Grid.get (gray img) y x).
Proof.
  intros Hframe. rewrite combined_at by exact (proj1 Hframe).
  unfold edges_fine, edges_medium, edges_coarse.
  rewrite !filter_on_frame by exact Hframe. reflexivity.
Qed.

Lemma result_on_frame (img : Image) (y x : nat) :
  on_frame img y x ->
  Grid.get (result img) y x = frame_pixel (Grid.get (gray img) y x).
Proof.
  intros Hframe. pose proof (proj1 Hframe) as Hin.
  rewrite result_at by exact Hin. rewrite combined_on_frame by exact Hframe.
  rewrite arr_offset_at by exact Hin. unfold edges_offset.
  rewrite filter_on_frame by exact Hframe.
  apply frame_layer_pixel. apply gray_range. exact Hin.
Qed.

(** X3: on the outermost rows and columns the edge filters return the
    luminance itself, so the pre-glow pixel depends on that luminance
    alone: it is a cyan edge pixel when the luminance is at least 12 and
    fully transparent otherwise.  Every pixel of an image less than three
    pixels wide or high is such a pixel. *)
Theorem frame_pixel_rule (img : Image) (y x : nat) :
  on_frame img y x ->
  Grid.get (result img) y x = frame_pixel (Grid.get (gray img) y x) /\
  Grid.get (edge_mask img) y x = (12 <=? Grid.get (gray img) y x).
Proof.
  intros Hframe. pose proof (proj1 Hframe) as Hin.
  split; [apply result_on_frame; exact Hframe|].
  rewrite edge_mask_at by exact Hin. rewrite combined_on_frame by exact Hframe.
  pose proof (gray_range img y x Hin) as Hg.
  generalize dependent (Grid.get (gray img) y x). intros g Hg.
  assert (Hall : all_u8 (fun g => Bool.eqb (is_edge (combine g g g)) (12 <=? g)) = true)
    by (vm_compute; reflexivity).
  apply Bool.eqb_prop. exact (all_u8_spec _ Hall g Hg).
Qed.

Lemma frame_pixel_rule_witness :
  on_frame ring3x3 0 1 /\
  Grid.get (edge_mask ring3x3) 0 1 = (12 <=? Grid.get (gray ring3x3) 0 1).
Proof.
  assert (Hframe : on_frame ring3x3 0 1).
  { split; [unfold inside; cbn; lia | left; reflexivity]. }
  split; [exact Hframe|].
  exact (proj2 (frame_pixel_rule ring3x3 0 1 Hframe)).
Defined.

(** ** Flat regions *)

Lemma interior5_inside (img : Image) (y x : nat) : interior5 img y x -> inside img y x.
Proof. unfold interior5, inside. lia. Qed.

Lemma interior_true (k : PIL.Kernel) (img : Image) (y x : nat) :
  interior5 img y x -> PIL.interior k (gray img) y x = true.
Proof.
  intros (Hy1 & Hy2 & Hx1 & Hx2). unfold PIL.interior.
  change (ysize (gray img)) with (ysize img). change (xsize (gray img)) with (xsize img).
  assert (Hb : (PIL.border (PIL.size k) <= 2)%nat) by (destruct (PIL.size k); cbn; lia).
  destruct (Nat.leb_spec (PIL.border (PIL.size k)) y); [|lia].
  destruct (Nat.ltb_spec (y + PIL.border (PIL.size k)) (ysize img)); [|lia].
  destruct (Nat.leb_spec (PIL.border (PIL.size k)) x); [|lia].
  destruct (Nat.ltb_spec (x + PIL.border (PIL.size k)) (xsize img)); [|lia].
  reflexivity.
Qed.

Lemma filter_interior (k : PIL.Kernel) (img : Image) (y x : nat) :
  interior5 img y x ->
  Grid.get (PIL.filter k (gray img)) y x
  = PIL.clip8 (PIL.offset k + PIL.weighted_sum k (gray img) y x).
Proof.
  intros Hint. pose proof Hint as (Hy1 & Hy2 & Hx1 & Hx2). unfold PIL.filter.
  change (ysize (gray img)) with (ysize img). change (xsize (gray img)) with (xsize img).
  assert (Hs : (PIL.side (PIL.size k) <= 5)%nat) by (destruct (PIL.size k); cbn; lia).
  destruct (Nat.ltb_spec (xsize img) (PIL.side (PIL.size k))); [lia|].
  destruct (Nat.ltb_spec (ysize img) (PIL.side (PIL.size k))); [lia|].
  cbn [orb]. rewrite get_init by lia.
  rewrite interior_true by exact Hint. reflexivity.
Qed.

(** The four kernels of the program sum to zero: on a window of constant
    luminance their window sum vanishes. *)
Lemma weighted_sum_flat (k : PIL.Kernel) (im : Grid Z) (y x : nat) (g : Z) :
  In k [kernel_fine; PIL.FIND_EDGES; PIL.CONTOUR; kernel_coarse] ->
  (forall y' x', in_window y x y' x' -> Grid.get im y' x' = g) ->
  PIL.weighted_sum k im y x = 0.
Proof.
  intros Hk Hflat. unfold PIL.weighted_sum.
  destruct Hk as [<- | [<- | [<- | [<- | []]]]];
    cbn [PIL.size kernel_fine kernel_coarse PIL.FIND_EDGES PIL.CONTOUR PIL.laplacian3
         PIL.kernel PIL.side PIL.border Nat.mul Nat.add seq flat_map List.map app
         fold_right nth];
    rewrite !Hflat by (unfold in_window; lia); lia.
Qed.

(** X4: a flat region is filled.  Where the luminance is constant on the
    5x5 window around a position (at least two pixels away from the frame),
    the pre-glow pixel is violet [(147, 51, 234)] with alpha 102, whatever
    the luminance. *)
Theorem flat_region_is_violet (img : Image) (y x : nat) (g : Z) :
  interior5 img y x ->
  (forall y' x', in_window y x y' x' -> Grid.get (gray img) y' x' = g) ->
  Grid.get (result img) y x = mkRgba 147 51 234 102.
Proof.
  intros Hint Hflat. pose proof (interior5_inside img y x Hint) as Hin.
  rewrite result_at, combined_at, arr_offset_at by exact Hin.
  unfold edges_fine, edges_medium, edges_coarse, edges_offset.
  rewrite !filter_interior by exact Hint.
  rewrite !(weighted_sum_flat _ (gray img) y x g) by (cbn; tauto || exact Hflat).
  change (PIL.clip8 (PIL.offset kernel_fine + 0)) with 0.
  change (PIL.clip8 (PIL.offset PIL.FIND_EDGES + 0)) with 0.
  change (PIL.clip8 (PIL.offset kernel_coarse + 0)) with 0.
  change (PIL.clip8 (PIL.offset PIL.CONTOUR + 0)) with 255.
  assert (Hc : combine 0 0 0 = 0) by (vm_compute; reflexivity).
  assert (Ho : contour_scaled 255 = 255) by (vm_compute; reflexivity).
  assert (Hv : violet_alpha 255 = 102) by (vm_compute; reflexivity).
  rewrite Hc, Ho. unfold layer_pixel.
  change (is_edge 0) with false. change (is_offset 0 255) with true.
  cbv iota. rewrite Hv. reflexivity.
Qed.

Lemma flat_region_is_violet_witness :
  interior5 white5x5 2 2 /\
  Grid.get (result white5x5) 2 2 = mkRgba 147 51 234 102.
Proof.
  assert (Hint : interior5 white5x5 2 2) by (unfold interior5; cbn; lia).
  split; [exact Hint|].
  apply (flat_region_is_violet white5x5 2 2 255 Hint).
  intros y' x' (Hy1 & Hy2 & Hx1 & Hx2).
  rewrite gray_at by (unfold inside; cbn; lia).
  unfold white5x5. rewrite get_init by lia. reflexivity.
Defined.

(** ** Locality *)

Lemma weighted_sum_local (k : PIL.Kernel) (im1 im2 : Grid Z) (y x : nat) :
  (forall y' x', in_window y x y' x' -> Grid.get im1 y' x' = Grid.get im2 y' x') ->
  PIL.weighted_sum k im1 y x = PIL.weighted_sum k im2 y x.
Proof.
  intros Hsame. unfold PIL.weighted_sum.
  destruct (PIL.size k);
    cbn [PIL.side PIL.border Nat.mul Nat.add seq flat_map List.map app fold_right];
    rewrite !(Hsame _ _) by (unfold in_window; lia); reflexivity.
Qed.

Lemma filter_local (k : PIL.Kernel) (im1 im2 : Grid Z) (y x : nat) :
  ysize im1 = ysize im2 -> xsize im1 = xsize im2 ->
  inside im1 y x ->
  (forall y' x', in_window y x y' x' -> Grid.get im1 y' x' = Grid.get im2 y' x') ->
  Grid.get (PIL.filter k im1) y x = Grid.get (PIL.filter k im2) y x.
Proof.
  intros Hys Hxs [Hy Hx] Hsame.
  assert (Hcentre : Grid.get im1 y x = Grid.get im2 y x)
    by (apply Hsame; unfold in_window; lia).
  unfold PIL.filter, PIL.interior. rewrite <- Hys, <- Hxs.
  destruct (_ || _)%bool; [exact Hcentre|].
  rewrite !get_init by assumption.
  destruct (_ && _)%bool; [|exact Hcentre].
  rewrite (weighted_sum_local k im1 im2 y x Hsame). reflexivity.
Qed.

Lemma result_local (img1 img2 : Image) (y x : nat) :
  ysize img1 = ysize img2 -> xsize img1 = xsize img2 ->
  inside img1 y x ->
  (forall y' x', in_window y x y' x' ->
     Grid.get (gray img1) y' x' = Grid.get (gray img2) y' x') ->
  Grid.get (result img1) y x = Grid.get (result img2) y x.
Proof.
  intros Hys Hxs Hin1 Hsame.
  assert (Hin2 : inside img2 y x) by (unfold inside in *; lia).
  assert (Hcentre : Grid.get (gray img1) y x = Grid.get (gray img2) y x)
    by (apply Hsame; unfold in_window; lia).
  assert (Hf : forall k, Grid.get (PIL.filter k (gray img1)) y x
                         = Grid.get (PIL.filter k (gray img2)) y x).
  { intros k. apply filter_local; [exact Hys | exact Hxs | exact Hin1 | exact Hsame]. }
  rewrite result_at, combined_at, arr_offset_at by exact Hin1.
  rewrite result_at, combined_at, arr_offset_at by exact Hin2.
  unfold edges_fine, edges_medium, edges_coarse, edges_offset.
  rewrite !Hf, Hcentre. reflexivity.
Qed.

(** X5: the pre-glow pixel is local: it is determined by the size of the
    image and by the luminance on the 5x5 window around its position.  Two
    images of the same size that agree there have the same pre-glow pixel
    at that position. *)
Theorem result_is_local (img1 img2 : Image) (y x : nat) :
  ysize img1 = ysize img2 -> xsize img1 = xsize img2 ->
  inside img1 y x ->
  (forall y' x', in_window y x y' x' ->
     Grid.get (gray img1) y' x' = Grid.get (gray img2) y' x') ->
  Grid.get (result img1) y x = Grid.get (result img2) y x.
Proof.
  intros Hys Hxs Hin1 Hsame.
  assert (Hin2 : inside img2 y x) by (unfold inside in *; lia).
  rewrite result_at, combined_at, arr_offset_at by exact Hin1.
  rewrite result_at, combined_at, arr_offset_at by exact Hin2.
  unfold edges_fine, edges_medium, edges_coarse, edges_offset.
  rewrite !(filter_local _ (gray img1) (gray img2) y x Hys Hxs Hin1 Hsame).
  rewrite (Hsame y x) by (unfold in_window; lia).
  reflexivity.
Qed.

Lemma result_is_local_witness :
  inside (strip7 black) 0 0 /\
  Grid.get (result (strip7 black)) 0 0 = Grid.get (result (strip7 white)) 0 0.
Proof.
  assert (Hin : inside (strip7 black) 0 0) by (unfold inside; cbn; lia).
  split; [exact Hin|].
  apply (result_is_local (strip7 black) (strip7 white) 0 0 eq_refl eq_refl Hin).
  intros y' x' (Hy1 & Hy2 & Hx1 & Hx2).
  assert (Hy0 : y' = 0%nat \/ (1 <= y')%nat) by lia.
  destruct Hy0 as [-> | Hy0].
  - rewrite !gray_at by (unfold inside; cbn; lia).
    unfold strip7. rewrite !get_init by lia.
    destruct (Nat.eqb_spec x' 6); [lia | reflexivity].
  - rewrite !(get_outside (gray _)) by (try apply wf_init; unfold inside; cbn; lia).
    reflexivity.
Defined.

(** ** The empty wireframe *)















(* ===================================================================== *)
(** * The driver *)
(* ===================================================================== *)

(** ** Paths *)

Lemma parent_joinpath (dir : list string) (name : string) :
  parent (joinpath dir name) = dir.
Proof. unfold parent, joinpath. apply removelast_last. Qed.

Lemma joinpath_length (dir : list string) (name : string) :
  length (joinpath dir name) = S (length dir).
Proof. unfold joinpath. rewrite length_app. cbn. lia. Qed.

Lemma joinpath_inj (dir : list string) (a b : string) :
  joinpath dir a = joinpath dir b -> a = b.
Proof.
  unfold joinpath. intros H. apply app_inv_head in H. injection H as H. exact H.
Qed.

Lemma asset_is_not_holo (pkg : list string) (a b : string) :
  joinpath (ASSET_DIR pkg) a <> joinpath (HOLO_DIR pkg) b.
Proof.
  unfold ASSET_DIR, HOLO_DIR, joinpath. rewrite <- !app_assoc. intros H.
  apply app_inv_head in H. cbn in H. discriminate H.
Qed.

Lemma MAPPINGS_outputs_NoDup : NoDup (List.map snd MAPPINGS).
Proof. apply (bool_decide_unpack _). vm_compute. exact I. Qed.

Lemma parents_and_self_length (p q : list string) :
  In q (parents_and_self p) -> (length q <= length p)%nat.
Proof.
  unfold parents_and_self. intros H. apply in_map_iff in H as (n & <- & _).
  rewrite length_firstn. lia.
Qed.

Lemma self_in_parents_and_self (p : list string) :
  p <> [] -> In p (parents_and_self p).
Proof.
  intros Hp. unfold parents_and_self. apply in_map_iff. exists (length p).
  split; [apply firstn_all|]. apply in_seq.
  destruct p; [contradiction|]. cbn. lia.
Qed.

Lemma holo_is_no_parent (pkg : list string) (name : string) :
  ~ In (joinpath (HOLO_DIR pkg) name) (parents_and_self (HOLO_DIR pkg)).
Proof.
  intros H. apply parents_and_self_length in H. rewrite joinpath_length in H. lia.
Qed.

Lemma asset_is_no_parent (pkg : list string) (name : string) :
  ~ In (joinpath (ASSET_DIR pkg) name) (parents_and_self (HOLO_DIR pkg)).
Proof.
  intros H. apply parents_and_self_length in H.
  unfold ASSET_DIR, HOLO_DIR in H. rewrite !joinpath_length in H. lia.
Qed.

(** ** The output directory *)

Lemma makedirs_spec (l : list (list string)) :
  forall fs fs' : FileSystem,
    makedirs fs l = Returns fs' ->
    (forall p, fs' !! p = fs !! p \/
               (fs !! p = None /\ fs' !! p = Some (Directory true) /\ In p l)) /\
    (forall p, In p l -> exists w, fs' !! p = Some (Directory w)).
Proof.
  induction l as [|p0 l IH]; intros fs fs' H; cbn [makedirs] in H.
  - injection H as <-. split; [intros p; left; reflexivity | intros p []].
  - destruct (fs !! p0) as [[w | r w c]|] eqn:Hp0; [| discriminate H |].
    + destruct (IH fs fs' H) as [Hall Hdirs]. split.
      * intros p. destruct (Hall p) as [Hsame | (Hnone & Hnew & Hin)];
          [left; exact Hsame | right].
        split; [exact Hnone|]. split; [exact Hnew | right; exact Hin].
      * intros p [<- | Hin]; [|apply Hdirs; exact Hin].
        exists w. destruct (Hall p0) as [-> | (Hnone & _)]; [exact Hp0 | congruence].
    + destruct (fs !! parent p0) as [[[|]| ]|]; try discriminate H.
      destruct (IH _ fs' H) as [Hall Hdirs].
      assert (Hp0' : fs' !! p0 = Some (Directory true)).
      { destruct (Hall p0) as [-> | (Hnone & _)].
        - apply lookup_insert_eq.
        - rewrite lookup_insert_eq in Hnone. discriminate Hnone. }
      split.
      * intros p. destruct (decide (p = p0)) as [-> | Hne].
        -- right. split; [exact Hp0|]. split; [exact Hp0' | left; reflexivity].
        -- destruct (Hall p) as [Hsame | (Hnone & Hnew & Hin)].
           ++ left. rewrite Hsame. apply lookup_insert_ne. congruence.
           ++ right. rewrite lookup_insert_ne in Hnone by congruence.
              split; [exact Hnone|]. split; [exact Hnew | right; exact Hin].
      * intros p [<- | Hin]; [exists true; exact Hp0' | apply Hdirs; exact Hin].
Qed.

Lemma makedirs_existing (l : list (list string)) (fs : FileSystem) :
  (forall p, In p l -> exists w, fs !! p = Some (Directory w)) ->
  makedirs fs l = Returns fs.
Proof.
  induction l as [|p0 l IH]; intros H; [reflexivity|]. cbn [makedirs].
  destruct (H p0 (or_introl eq_refl)) as [w ->].
  apply IH. intros p Hp. apply H. right. exact Hp.
Qed.

(** ** The loop *)

Section Loop.

Variable pkg : list string.

Local Abbreviation asset := (joinpath (ASSET_DIR pkg)).
Local Abbreviation holo := (joinpath (HOLO_DIR pkg)).

Lemma main_step_raises (stdout : bool) (l : list (string * string)) (e : exception) :
  fold_left (main_step pkg stdout) l (Raises e) = Raises e.
Proof. induction l as [|m l IH]; [reflexivity | exact IH]. Qed.

Lemma main_step_returns (stdout : bool) (fs fs1 : FileSystem) (m : string * string) :
  main_step pkg stdout (Returns fs) m = Returns fs1 ->
  stdout = true /\
  ((fs !! asset (fst m) = None /\ fs1 = fs) \/
   (exists w img r,
      fs !! asset (fst m) = Some (RegularFile true w (Some img)) /\
      fs1 = <[holo (snd m) := RegularFile r true (Some (save (composited img)))]> fs)).
Proof.
  unfold main_step. destruct (fs !! asset (fst m)) as [n|] eqn:Hsrc.
  - intros H. apply create_wireframe_returns in H as (Hout & w & img & r & Hn & Hfs1).
    split; [exact Hout|]. right.
    exists w, img, r. split; [|exact Hfs1]. rewrite <- Hn. symmetry. exact Hsrc.
  - unfold print. destruct stdout; [|discriminate].
    intros H. injection H as <-. split; [reflexivity|]. left. split; reflexivity.
Qed.

(** What a loop over [l] that returns has left in the file system. *)
Lemma run_returns (stdout : bool) (l : list (string * string)) :
  NoDup (List.map snd l) ->
  forall fs fs' : FileSystem,
    run pkg stdout l fs = Returns fs' ->
    (forall p, (forall m, In m l -> p <> holo (snd m)) -> fs' !! p = fs !! p) /\
    (forall m, In m l ->
       stdout = true /\
       match fs !! asset (fst m) with
       | None => fs' !! holo (snd m) = fs !! holo (snd m)
       | Some n =>
           exists w img r,
             n = RegularFile true w (Some img) /\
             fs' !! holo (snd m)
             = Some (RegularFile r true (Some (save (composited img))))
       end).
Proof.
  induction l as [|m l IH]; intros Hnd fs fs' Hrun.
  - injection Hrun as <-. split; [reflexivity | intros m []].
  - cbn [List.map] in Hnd. apply NoDup_cons in Hnd as [Hfresh Hnd].
    unfold run in Hrun. cbn [fold_left] in Hrun.
    destruct (main_step pkg stdout (Returns fs) m) as [fs1|e] eqn:Hstep;
      [|rewrite main_step_raises in Hrun; discriminate Hrun].
    destruct (IH Hnd fs1 fs' Hrun) as [Hframe Hout].
    apply main_step_returns in Hstep as [Hstdout Hstep].
    assert (Hframe1 : forall p, p <> holo (snd m) -> fs1 !! p = fs !! p).
    { intros p Hp. destruct Hstep as [[_ ->] | (w & img & r & _ & ->)]; [reflexivity|].
      apply lookup_insert_ne. congruence. }
    assert (Hfresh' : forall m', In m' l -> holo (snd m') <> holo (snd m)).
    { intros m' Hm' Heq. apply joinpath_inj in Heq.
      apply Hfresh. rewrite <- Heq. apply list_elem_of_In. apply in_map. exact Hm'. }
    split.
    + intros p Hp. rewrite Hframe by (intros m' Hm'; apply Hp; right; exact Hm').
      apply Hframe1. apply Hp. left. reflexivity.
    + intros m' [<- | Hm']; (split; [exact Hstdout|]).
      * rewrite Hframe
          by (intros m' Hm' Heq; apply (Hfresh' m' Hm'); symmetry; exact Heq).
        destruct Hstep as [[-> ->] | (w & img & r & -> & ->)]; [reflexivity|].
        exists w, img, r. split; [reflexivity | apply lookup_insert_eq].
      * destruct (Hout m' Hm') as [_ Hm].
        rewrite (Hframe1 (asset (fst m'))) in Hm by apply asset_is_not_holo.
        destruct (fs !! asset (fst m')); [exact Hm|].
        rewrite Hm. apply Hframe1. apply Hfresh'. exact Hm'.
Qed.

(** A loop over sources that have been converted before changes nothing. *)
Lemma run_again (l : list (string * string)) (fs : FileSystem) :
  (exists dw, fs !! HOLO_DIR pkg = Some (Directory dw)) ->
  (forall m, In m l ->
     fs !! asset (fst m) = None \/
     exists w img r,
       fs !! asset (fst m) = Some (RegularFile true w (Some img)) /\
       fs !! holo (snd m) = Some (RegularFile r true (Some (save (composited img))))) ->
  run pkg true l fs = Returns fs.
Proof.
  intros [dw Hdir]. induction l as [|m l IH]; intros Hl; [reflexivity|].
  unfold run. cbn [fold_left].
  assert (Hstep : main_step pkg true (Returns fs) m = Returns fs).
  { unfold main_step.
    destruct (Hl m (or_introl eq_refl)) as [-> | (w & img & r & Hsrc & Hdst)];
      [reflexivity|].
    rewrite Hsrc.
    rewrite (create_wireframe_overwrites fs _ _ w dw r img
               (Some (save (composited img))) Hsrc);
      [|rewrite parent_joinpath; exact Hdir | exact Hdst].
    f_equal. apply insert_id. exact Hdst. }
  rewrite Hstep. apply IH. intros m' Hm'. apply Hl. right. exact Hm'.
Qed.

Lemma run_completes (l : list (string * string)) :
  NoDup (List.map snd l) ->
  forall fs : FileSystem,
    (exists dw, fs !! HOLO_DIR pkg = Some (Directory dw)) ->
    (forall m, In m l -> ready pkg fs m) ->
    exists fs', run pkg true l fs = Returns fs'.
Proof.
  induction l as [|m l IH]; intros Hnd fs Hdir Hl.
  - exists fs. reflexivity.
  - cbn [List.map] in Hnd. apply NoDup_cons in Hnd as [Hfresh Hnd].
    assert (Hstep : exists fs1,
      main_step pkg true (Returns fs) m = Returns fs1 /\
      forall p, p <> holo (snd m) -> fs1 !! p = fs !! p).
    { unfold main_step.
      destruct (Hl m (or_introl eq_refl))
        as [-> | [(w & img & Hsrc) [[Hnew Hw] | (r & c & Hold)]]].
      - exists fs. split; reflexivity.
      - rewrite Hsrc. eexists. split.
        + apply (create_wireframe_creates fs _ _ w img Hsrc);
            [rewrite parent_joinpath; exact Hw | exact Hnew].
        + intros p Hp. apply lookup_insert_ne. congruence.
      - destruct Hdir as [dw Hdir]. rewrite Hsrc. eexists. split.
        + apply (create_wireframe_overwrites fs _ _ w dw r img c Hsrc);
            [rewrite parent_joinpath; exact Hdir | exact Hold].
        + intros p Hp. apply lookup_insert_ne. congruence. }
    destruct Hstep as (fs1 & Hstep & Hframe1).
    assert (Hholo : HOLO_DIR pkg <> holo (snd m)).
    { intros H. apply (f_equal (@length string)) in H.
      rewrite joinpath_length in H. lia. }
    destruct (IH Hnd fs1) as [fs' Hrun].
    + rewrite Hframe1 by exact Hholo. exact Hdir.
    + intros m' Hm'.
      assert (Hne : holo (snd m') <> holo (snd m)).
      { intros Heq. apply joinpath_inj in Heq.
        apply Hfresh. rewrite <- Heq. apply list_elem_of_In. apply in_map. exact Hm'. }
      unfold ready.
      rewrite (Hframe1 (asset (fst m'))) by apply asset_is_not_holo.
      rewrite (Hframe1 (holo (snd m'))) by exact Hne.
      rewrite (Hframe1 (HOLO_DIR pkg)) by exact Hholo.
      apply Hl. right. exact Hm'.
    + exists fs'. unfold run. cbn [fold_left]. rewrite Hstep. exact Hrun.
Qed.

Lemma main_returns (stdout : bool) (fs fs' : FileSystem) :
  main pkg stdout fs = Returns fs' ->
  exists fs0,
    mkdir fs (HOLO_DIR pkg) = Returns fs0 /\
    run pkg stdout MAPPINGS fs0 = Returns fs' /\
    (forall name, fs0 !! asset name = fs !! asset name) /\
    (forall name, fs0 !! holo name = fs !! holo name).
Proof.
  unfold main, print.
  destruct (mkdir fs (HOLO_DIR pkg)) as [fs0|e] eqn:Hmk; [|discriminate].
  destruct stdout; [|discriminate].
  destruct (run pkg true MAPPINGS fs0) as [fs1|e] eqn:Hrun; [|discriminate].
  intros H. injection H as <-.
  exists fs0. split; [reflexivity|]. split; [exact Hrun|].
  destruct (makedirs_spec _ _ _ Hmk) as [Hall _].
  split; intros name.
  - destruct (Hall (asset name)) as [H | (_ & _ & H)]; [exact H|].
    apply asset_is_no_parent in H. contradiction.
  - destruct (Hall (holo name)) as [H | (_ & _ & H)]; [exact H|].
    apply holo_is_no_parent in H. contradiction.
Qed.

End Loop.

(** ** A run on [avatars] *)

Lemma avatars_mkdir :
  mkdir avatars (HOLO_DIR ["iaret"%string]) = Returns avatars_with_holo.
Proof.
  unfold mkdir.
  change (parents_and_self (HOLO_DIR ["iaret"%string]))
    with ([["iaret"]; ["iaret"; "assets"]; ["iaret"; "assets"; "holo"]]%string).
  cbn [makedirs].
  replace (avatars !! ["iaret"%string]) with (Some (Directory true))
    by (vm_compute; reflexivity).
  replace (avatars !! ["iaret"; "assets"]%string) with (Some (Directory true))
    by (vm_compute; reflexivity).
  replace (avatars !! ["iaret"; "assets"; "holo"]%string) with (@None node)
    by (vm_compute; reflexivity).
  replace (avatars !! parent ["iaret"; "assets"; "holo"]%string)
    with (Some (Directory true)) by (vm_compute; reflexivity).
  reflexivity.
Qed.

Lemma avatars_ready (m : string * string) :
  In m MAPPINGS -> ready ["iaret"%string] avatars_with_holo m.
Proof.
  intros Hm. unfold MAPPINGS in Hm. cbn [In] in Hm.
  destruct Hm as [<- | [<- | [<- | [<- | [<- | [<- | []]]]]]];
    unfold ready; cbn [fst snd].
  - right. split; [exists false, ring3x3; vm_compute; reflexivity|].
    left. split; vm_compute; reflexivity.
  - left. vm_compute. reflexivity.
  - left. vm_compute. reflexivity.
  - left. vm_compute. reflexivity.
  - right. split; [exists true, black3x3; vm_compute; reflexivity|].
    left. split; vm_compute; reflexivity.
  - left. vm_compute. reflexivity.
Qed.

Lemma avatars_run : exists fs', main ["iaret"%string] true avatars = Returns fs'.
Proof.
  destruct (run_completes ["iaret"%string] MAPPINGS MAPPINGS_outputs_NoDup
              avatars_with_holo) as [fs' Hrun]; [|exact avatars_ready|].
  - exists true. vm_compute. reflexivity.
  - exists fs'. unfold main, print. rewrite avatars_mkdir, Hrun. reflexivity.
Qed.

(** ** What [main] does to the files *)

(** X8: whenever [main] returns, every entry of [MAPPINGS] whose source
    path existed had a readable picture there, and its output path holds
    the wireframe of that picture.  (A source that is a directory, that
    cannot be read or that Pillow cannot decode, an output that cannot be
    written and a console without the marks make [main] raise instead.) *)
Theorem main_generates_each_present_source (pkg : list string) (stdout : bool)
    (fs fs' : FileSystem) (src_name dst_name : string) (n : node) :
  main pkg stdout fs = Returns fs' ->
  In (src_name, dst_name) MAPPINGS ->
  fs !! joinpath (ASSET_DIR pkg) src_name = Some n ->
  exists w img r,
    n = RegularFile true w (Some img) /\
    fs' !! joinpath (HOLO_DIR pkg) dst_name
    = Some (RegularFile r true (Some (save (composited img)))).
Proof.
  intros Hmain Hm Hsrc.
  destruct (main_returns pkg stdout fs fs' Hmain) as (fs0 & _ & Hrun & Hasset & _).
  destruct (run_returns pkg stdout MAPPINGS MAPPINGS_outputs_NoDup fs0 fs' Hrun)
    as [_ Hout].
  destruct (Hout _ Hm) as [_ Hdst]. cbn [fst snd] in Hdst.
  rewrite Hasset, Hsrc in Hdst. exact Hdst.
Qed.

Lemma main_generates_each_present_source_witness :
  exists fs',
    main ["iaret"%string] true avatars = Returns fs' /\
    exists w img r,
      RegularFile true false (Some ring3x3) = RegularFile true w (Some img) /\
      fs' !! ["iaret"; "assets"; "holo"; "holo_portrait.png"]%string
      = Some (RegularFile r true (Some (save (composited img)))).
Proof.
  destruct avatars_run as [fs' Hrun]. exists fs'. split; [exact Hrun|].
  apply (main_generates_each_present_source ["iaret"%string] true avatars fs'
           "idle.png" "holo_portrait.png" _ Hrun).
  - left. reflexivity.
  - vm_compute. reflexivity.
Defined.

(** X9: whenever [main] returns, the output path of an entry whose source
    does not exist holds what it held before. *)
Theorem main_skips_missing_source (pkg : list string) (stdout : bool)
    (fs fs' : FileSystem) (src_name dst_name : string) :
  main pkg stdout fs = Returns fs' ->
  In (src_name, dst_name) MAPPINGS ->
  fs !! joinpath (ASSET_DIR pkg) src_name = None ->
  fs' !! joinpath (HOLO_DIR pkg) dst_name = fs !! joinpath (HOLO_DIR pkg) dst_name.
Proof.
  intros Hmain Hm Hsrc.
  destruct (main_returns pkg stdout fs fs' Hmain) as (fs0 & _ & Hrun & Hasset & Hholo).
  destruct (run_returns pkg stdout MAPPINGS MAPPINGS_outputs_NoDup fs0 fs' Hrun)
    as [_ Hout].
  destruct (Hout _ Hm) as [_ Hdst]. cbn [fst snd] in Hdst.
  rewrite Hasset, Hsrc in Hdst. rewrite Hdst. apply Hholo.
Qed.

Lemma main_skips_missing_source_witness :
  exists fs',
    main ["iaret"%string] true avatars = Returns fs' /\
    fs' !! ["iaret"; "assets"; "holo"; "holo_front.png"]%string
    = avatars !! ["iaret"; "assets"; "holo"; "holo_front.png"]%string.
Proof.
  destruct avatars_run as [fs' Hrun]. exists fs'. split; [exact Hrun|].
  apply (main_skips_missing_source ["iaret"%string] true avatars fs'
           "fullbody_front.png" "holo_front.png" Hrun).
  - right. left. reflexivity.
  - vm_compute. reflexivity.
Defined.

(** X10: whenever [main] returns, no file of the asset directory has
    changed, and a path other than the six output paths holds what it held
    before, unless it is the output directory or a directory above it that
    did not exist and has been created. *)
Theorem main_writes_outputs_only (pkg : list string) (stdout : bool)
    (fs fs' : FileSystem) :
  main pkg stdout fs = Returns fs' ->
  (forall name, fs' !! joinpath (ASSET_DIR pkg) name
                = fs !! joinpath (ASSET_DIR pkg) name) /\
  (forall p, (forall dst_name, In dst_name (List.map snd MAPPINGS) ->
                p <> joinpath (HOLO_DIR pkg) dst_name) ->
             fs' !! p = fs !! p \/
             (fs !! p = None /\ fs' !! p = Some (Directory true) /\
              In p (parents_and_self (HOLO_DIR pkg)))).
Proof.
  intros Hmain.
  destruct (main_returns pkg stdout fs fs' Hmain) as (fs0 & Hmk & Hrun & Hasset & _).
  destruct (run_returns pkg stdout MAPPINGS MAPPINGS_outputs_NoDup fs0 fs' Hrun)
    as [Hframe _].
  destruct (makedirs_spec _ _ _ Hmk) as [Hall _].
  split.
  - intros name. rewrite Hframe by (intros m _; apply asset_is_not_holo).
    apply Hasset.
  - intros p Hp.
    rewrite Hframe by (intros m Hm; apply Hp; apply in_map; exact Hm).
    apply Hall.
Qed.

Lemma main_writes_outputs_only_witness :
  exists fs',
    main ["iaret"%string] true avatars = Returns fs' /\
    fs' !! ["iaret"; "assets"; "avatar"; "idle.png"]%string
    = avatars !! ["iaret"; "assets"; "avatar"; "idle.png"]%string.
Proof.
  destruct avatars_run as [fs' Hrun]. exists fs'. split; [exact Hrun|].
  exact (proj1 (main_writes_outputs_only ["iaret"%string] true avatars fs' Hrun)
               "idle.png"%string).
Defined.

(** X11: [main] is idempotent: whenever it returns, a second run on the
    file system it leaves returns too and changes nothing. *)
Theorem main_is_idempotent (pkg : list string) (stdout : bool) (fs fs' : FileSystem) :
  main pkg stdout fs = Returns fs' -> main pkg stdout fs' = Returns fs'.
Proof.
  intros Hmain.
  destruct (main_returns pkg stdout fs fs' Hmain) as (fs0 & Hmk & Hrun & _ & _).
  destruct (run_returns pkg stdout MAPPINGS MAPPINGS_outputs_NoDup fs0 fs' Hrun)
    as [Hframe Hout].
  destruct (makedirs_spec _ _ _ Hmk) as [_ Hdirs].
  assert (Hstdout : stdout = true) by (apply (Hout _ (or_introl eq_refl))).
  subst stdout.
  assert (Hkept : forall p, In p (parents_and_self (HOLO_DIR pkg)) ->
                            exists w, fs' !! p = Some (Directory w)).
  { intros p Hp. destruct (Hdirs p Hp) as [w Hw]. exists w. rewrite <- Hw.
    apply Hframe. intros m _ ->. apply holo_is_no_parent in Hp. exact Hp. }
  unfold main, mkdir, print. rewrite (makedirs_existing _ fs' Hkept).
  rewrite run_again; [reflexivity | |].
  - apply Hkept. apply self_in_parents_and_self.
    unfold HOLO_DIR, joinpath. intros H. apply app_eq_nil in H as [_ H]. discriminate H.
  - intros m Hm. destruct (Hout m Hm) as [_ Hdst].
    rewrite (Hframe (joinpath (ASSET_DIR pkg) (fst m)))
      by (intros m' _; apply asset_is_not_holo).
    destruct (fs0 !! joinpath (ASSET_DIR pkg) (fst m)) as [n|]; [right | left; reflexivity].
    destruct Hdst as (w & img & r & -> & Hdst).
    exists w, img, r. split; [reflexivity | exact Hdst].
Qed.

Lemma main_is_idempotent_witness :
  exists fs',
    main ["iaret"%string] true avatars = Returns fs' /\
    main ["iaret"%string] true fs' = Returns fs'.
Proof.
  destruct avatars_run as [fs' Hrun]. exists fs'. split; [exact Hrun|].
  exact (main_is_idempotent ["iaret"%string] true avatars fs' Hrun).
Defined.



(** X19: one bad avatar stops the batch: when the source of an entry of
    [MAPPINGS] exists and is not a readable picture (a directory, a file
    that cannot be read, bytes that Pillow does not identify), [main]
    raises. *)
Theorem main_raises_on_bad_source (pkg : list string) (stdout : bool) (fs : FileSystem)
    (src_name dst_name : string) (n : node) :
  In (src_name, dst_name) MAPPINGS ->
  fs !! joinpath (ASSET_DIR pkg) src_name = Some n ->
  (forall w img, n <> RegularFile true w (Some img)) ->
  exists e, main pkg stdout fs = Raises e.
Proof.
  intros Hm Hsrc Hbad.
  destruct (main pkg stdout fs) as [fs'|e] eqn:Hmain; [exfalso | exists e; reflexivity].
  destruct (main_returns pkg stdout fs fs' Hmain) as (fs0 & _ & Hrun & Hasset & _).
  destruct (run_returns pkg stdout MAPPINGS MAPPINGS_outputs_NoDup fs0 fs' Hrun)
    as [_ Hout].
  destruct (Hout _ Hm) as [_ Hdst]. cbn [fst snd] in Hdst.
  rewrite Hasset, Hsrc in Hdst. destruct Hdst as (w & img & _ & Hn & _).
  exact (Hbad w img Hn).
Qed.

Lemma main_raises_on_bad_source_witness :
  exists e, main ["iaret"%string] true broken_avatars = Raises e.
Proof.
  apply (main_raises_on_bad_source ["iaret"%string] true broken_avatars
           "idle.png" "holo_portrait.png" (RegularFile true true None)).
  - left. reflexivity.
  - vm_compute. reflexivity.
  - intros w img H. discriminate H.
Defined.

(* ===================================================================== *)
(** * Floating point against exact arithmetic *)
(* ===================================================================== *)

Lemma clip8_range (v : Z) : in_u8 (PIL.clip8 v).
Proof.
  unfold PIL.clip8, in_u8.
  destruct (Z.leb_spec v 0); [lia|]. destruct (Z.leb_spec 255 v); lia.
Qed.

Lemma filter_range (k : PIL.Kernel) (img : Image) (y x : nat) :
  inside img y x -> in_u8 (Grid.get (PIL.filter k (gray img)) y x).
Proof.
  intros Hin. unfold PIL.filter.
  destruct (_ || _)%bool; [apply gray_range; exact Hin|].
  rewrite get_init by apply Hin.
  destruct (PIL.interior k (gray img) y x); [apply clip8_range | apply gray_range; exact Hin].
Qed.

Lemma layer_values_exact (v : Z) :
  in_u8 v ->
  cyan_alpha v = 9 * v / 10 /\
  violet_alpha v = 4 * v / 10 /\
  contour_scaled v = Z.min 255 (3 * v / 2) /\
  faint_green v = v / 4 /\
  faint_blue v = 22 * v / 100 /\
  faint_alpha v = 12 * v / 100 /\
  SFltb (f32 30) (f32 v) = (30 <? v).
Proof.
  intros Hv.
  assert (Hall : all_u8 (fun v =>
      (cyan_alpha v =? 9 * v / 10) && (violet_alpha v =? 4 * v / 10)
      && (contour_scaled v =? Z.min 255 (3 * v / 2)) && (faint_green v =? v / 4)
      && (faint_blue v =? 22 * v / 100) && (faint_alpha v =? 12 * v / 100)
      && Bool.eqb (SFltb (f32 30) (f32 v)) (30 <? v)) = true)
    by (vm_compute; reflexivity).
  pose proof (all_u8_spec _ Hall v Hv) as Hb. cbv beta in Hb.
  repeat (apply andb_true_iff in Hb as [Hb ?]).
  repeat match goal with H : (_ =? _) = true |- _ => apply Z.eqb_eq in H end.
  match goal with H : Bool.eqb _ _ = true |- _ => apply Bool.eqb_prop in H end.
  repeat split; assumption.
Qed.

(** X12: the values of the layers are those of exact integer arithmetic:
    rounding in [float32] and [float64] never shows.  At every position the
    scaled contour is [min(255, floor(3 e / 2))]; an edge pixel has alpha
    [floor(9 c / 10)], a secondary pixel alpha [floor(4 o / 10)], and a
    faint pixel, which has luminance [g > 30], green [floor(g / 4)], blue
    [floor(22 g / 100)] and alpha [floor(12 g / 100)]. *)
Theorem layer_values_are_exact (img : Image) (y x : nat) :
  inside img y x ->
  Grid.get (arr_offset img) y x = Z.min 255 (3 * Grid.get (edges_offset img) y x / 2) /\
  (Grid.get (edge_mask img) y x = true ->
     alpha (Grid.get (result img) y x) = 9 * Grid.get (combined img) y x / 10) /\
  (Grid.get (offset_mask img) y x = true ->
     alpha (Grid.get (result img) y x) = 4 * Grid.get (arr_offset img) y x / 10) /\
  (Grid.get (faint_mask img) y x = true ->
     30 < Grid.get (gray img) y x /\
     green (Grid.get (result img) y x) = Grid.get (gray img) y x / 4 /\
     blue (Grid.get (result img) y x) = 22 * Grid.get (gray img) y x / 100 /\
     alpha (Grid.get (result img) y x) = 12 * Grid.get (gray img) y x / 100).
Proof.
  intros Hin.
  pose proof (gray_range img y x Hin) as Hg.
  pose proof (arr_offset_range img y x Hin) as Ho.
  pose proof (filter_range PIL.CONTOUR img y x Hin) as He.
  fold (edges_offset img) in He.
  assert (Hc : in_u8 (Grid.get (combined img) y x)).
  { destruct (combined_range img y x Hin) as [-> | Hc]; unfold in_u8; lia. }
  split.
  { rewrite arr_offset_at by exact Hin.
    apply (layer_values_exact (Grid.get (edges_offset img) y x) He). }
  rewrite edge_mask_at, faint_mask_at, offset_mask_at, result_at by exact Hin.
  generalize dependent (Grid.get (combined img) y x).
  generalize dependent (Grid.get (arr_offset img) y x).
  generalize dependent (Grid.get (gray img) y x).
  intros g Hg o Ho c Hc. clear He. unfold layer_pixel.
  split; [|split].
  - intros Hedge. rewrite Hedge. cbn [alpha]. apply (layer_values_exact c Hc).
  - intros Hoff. rewrite Hoff. unfold is_offset in Hoff.
    apply andb_true_iff in Hoff as [_ Hne]. apply negb_true_iff in Hne. rewrite Hne.
    cbn [alpha]. apply (layer_values_exact o Ho).
  - intros Hf. rewrite Hf. unfold is_faint in Hf.
    apply andb_true_iff in Hf as [Hf Hno]. apply andb_true_iff in Hf as [Hgt Hne].
    apply negb_true_iff in Hno, Hne. rewrite Hne, Hno. cbn [alpha green blue].
    destruct (layer_values_exact g Hg) as (_ & _ & _ & Hgr & Hbl & Hal & Hlt).
    rewrite Hlt in Hgt. apply Z.ltb_lt in Hgt. auto.
Qed.

Lemma layer_values_are_exact_witness :
  inside faint3x3 1 1 /\
  Grid.get (arr_offset faint3x3) 1 1
  = Z.min 255 (3 * Grid.get (edges_offset faint3x3) 1 1 / 2).
Proof.
  assert (Hin : inside faint3x3 1 1) by (unfold inside; cbn; lia).
  split; [exact Hin|].
  exact (proj1 (layer_values_are_exact faint3x3 1 1 Hin)).
Defined.

(** The kernel of [edges_fine] is the one of [ImageFilter.FIND_EDGES]. *)
Lemma edges_medium_is_fine (img : Image) : edges_medium img = edges_fine img.
Proof. reflexivity. Qed.

Lemma boost_near_exact (f c : Z) :
  in_u8 f -> in_u8 c ->
  Z.min 255 ((4 * f + c) / 2) - 1
  <= scale_f32 (Float.literal 25 10) 255 (weighted f f c)
  <= Z.min 255 ((4 * f + c) / 2).
Proof.
  intros Hf Hc.
  assert (Hall :
    (let k5 := Float.cast Float.binary32 (Float.literal 5 10) in
     let k3 := Float.cast Float.binary32 (Float.literal 3 10) in
     let k2 := Float.cast Float.binary32 (Float.literal 2 10) in
     let k25 := Float.cast Float.binary32 (Float.literal 25 10) in
     let lo := f32 0 in
     let hi := f32 255 in
     all_u8 (fun f =>
       let a := Float.add Float.binary32 (Float.mul Float.binary32 (f32 f) k5)
                                         (Float.mul Float.binary32 (f32 f) k3) in
       all_u8 (fun c =>
         let s := Float.clip (Float.add Float.binary32 a
                                (Float.mul Float.binary32 (f32 c) k2)) lo hi in
         let b := u8 (Float.trunc (Float.clip (Float.mul Float.binary32 s k25) lo hi)) in
         (Z.min 255 ((4 * f + c) / 2) - 1 <=? b) && (b <=? Z.min 255 ((4 * f + c) / 2)))))
    = true) by (vm_compute; reflexivity).
  cbv zeta in Hall.
  pose proof (all_u8_spec _ Hall f Hf) as Hb. cbv beta in Hb.
  pose proof (all_u8_spec _ Hb c Hc) as Hb'. cbv beta in Hb'.
  apply andb_true_iff in Hb' as [Hlo Hhi]. apply Z.leb_le in Hlo, Hhi.
  unfold scale_f32, weighted. split; [exact Hlo | exact Hhi].
Qed.

Lemma combined_spec_floor (f c : Z) :
  in_u8 f -> in_u8 c ->
  Qround.Qfloor (combined_spec f f c) = Z.min 255 ((4 * f + c) / 2).
Proof.
  intros Hf Hc.
  assert (Hall : all_u8 (fun f => all_u8 (fun c =>
      Qround.Qfloor (combined_spec f f c) =? Z.min 255 ((4 * f + c) / 2))) = true)
    by (vm_compute; reflexivity).
  pose proof (all_u8_spec _ Hall f Hf) as Hb. cbv beta in Hb.
  pose proof (all_u8_spec _ Hb c Hc) as Hb'. cbv beta in Hb'.
  apply Z.eqb_eq in Hb'. exact Hb'.
Qed.

(** C4: [combined] is, at every position, the clipped weighted sum
    [clip(0.5 fine + 0.3 medium + 0.2 coarse, 0, 255)], scaled by 2.5 and
    clipped to [[0, 255]], with the values below 30 set to 0; hence every
    value of the grid is 0 or at least 30.  The sum and the product are
    those of [float32]; against the same formula on exact numbers, the
    value stored by line 65 is its integer part or, by rounding, one
    below; line 68 replaces what is below 30 by 0 and keeps the rest. *)
Theorem combined_is_zero_or_at_least_30 (img : Image) (y x : nat) :
  inside img y x ->
  Grid.get (combined_sum img) y x
  = weighted (Grid.get (edges_fine img) y x) (Grid.get (edges_medium img) y x)
             (Grid.get (edges_coarse img) y x) /\
  Grid.get (combined img) y x
  = noise_floor (scale_f32 (Float.literal 25 10) 255 (Grid.get (combined_sum img) y x)) /\
  (Grid.get (combined img) y x = 0 \/ 30 <= Grid.get (combined img) y x <= 255) /\
  Qround.Qfloor (combined_spec (Grid.get (edges_fine img) y x)
                               (Grid.get (edges_medium img) y x)
                               (Grid.get (edges_coarse img) y x)) - 1
  <= Grid.get (combined_boost img) y x
  <= Qround.Qfloor (combined_spec (Grid.get (edges_fine img) y x)
                                  (Grid.get (edges_medium img) y x)
                                  (Grid.get (edges_coarse img) y x)) /\
  (Grid.get (combined_boost img) y x < 30 -> Grid.get (combined img) y x = 0) /\
  (30 <= Grid.get (combined_boost img) y x ->
   Grid.get (combined img) y x = Grid.get (combined_boost img) y x).
Proof.
  intros Hin. split; [exact (combined_sum_at img y x Hin)|]. split.
  { rewrite combined_at, combined_sum_at by exact Hin. reflexivity. }
  split.
  { rewrite combined_at by exact Hin. apply combine_cases. }
  split.
  { rewrite combined_boost_at, combined_sum_at by exact Hin.
    change (edges_medium img) with (edges_fine img).
    pose proof (filter_range kernel_fine img y x Hin) as Hf.
    pose proof (filter_range kernel_coarse img y x Hin) as Hc.
    fold (edges_fine img) in Hf. fold (edges_coarse img) in Hc.
    rewrite (combined_spec_floor _ _ Hf Hc).
    apply boost_near_exact; assumption. }
  rewrite combined_at, combined_boost_at, combined_sum_at by exact Hin.
  unfold combine, noise_floor.
  destruct (Z.ltb_spec
              (scale_f32 (Float.literal 25 10) 255
                 (weighted (Grid.get (edges_fine img) y x) (Grid.get (edges_medium img) y x)
                           (Grid.get (edges_coarse img) y x))) 30) as [Hlt | Hge].
  - split; [reflexivity | lia].
  - split; [lia | reflexivity].
Qed.

Lemma combined_is_zero_or_at_least_30_witness :
  inside ring3x3 1 1 /\
  (Grid.get (combined ring3x3) 1 1 = 0 \/ 30 <= Grid.get (combined ring3x3) 1 1 <= 255).
Proof.
  assert (Hin : inside ring3x3 1 1) by (unfold inside; cbn; lia).
  split; [exact Hin|].
  exact (proj1 (proj2 (proj2 (combined_is_zero_or_at_least_30 ring3x3 1 1 Hin)))).
Defined.

(** X13: the fine and the medium edge maps are the same map, and the
    boosted sum of line 65 is the exact value [min(255, floor((4 fine +
    coarse) / 2))] or one below it: [float32] rounding can cost one unit
    (fine 1 and coarse 82 give 42, not 43), never more, and never adds. *)
Theorem combined_boost_is_near_exact (img : Image) (y x : nat) :
  inside img y x ->
  Grid.get (edges_medium img) y x = Grid.get (edges_fine img) y x /\
  Z.min 255 ((4 * Grid.get (edges_fine img) y x + Grid.get (edges_coarse img) y x) / 2) - 1
  <= Grid.get (combined_boost img) y x
  <= Z.min 255 ((4 * Grid.get (edges_fine img) y x + Grid.get (edges_coarse img) y x) / 2).
Proof.
  intros Hin. split; [reflexivity|].
  rewrite combined_boost_at, combined_sum_at by exact Hin.
  change (edges_medium img) with (edges_fine img).
  apply boost_near_exact.
  - apply (filter_range kernel_fine img y x Hin).
  - apply (filter_range kernel_coarse img y x Hin).
Qed.

Lemma combined_boost_is_near_exact_witness :
  inside ring3x3 1 1 /\
  Grid.get (edges_medium ring3x3) 1 1 = Grid.get (edges_fine ring3x3) 1 1.
Proof.
  assert (Hin : inside ring3x3 1 1) by (unfold inside; cbn; lia).
  split; [exact Hin|].
  exact (proj1 (combined_boost_is_near_exact ring3x3 1 1 Hin)).
Defined.

(* ===================================================================== *)
(** * Mirror images *)
(* ===================================================================== *)

Lemma init_eq {A} (h1 w1 h2 w2 : nat) (f g : nat -> nat -> A) :
  h1 = h2 -> w1 = w2 ->
  (forall y x, (y < h1)%nat -> (x < w1)%nat -> f y x = g y x) ->
  Grid.init h1 w1 f = Grid.init h2 w2 g.
Proof. intros <- <- Hfg. apply init_ext. exact Hfg. Qed.

Lemma mirror_mirrored {A} `{Blank A} (g : Grid A) : mirrored (mirror g) g.
Proof.
  split; [reflexivity|]. split; [reflexivity|].
  intros y x [Hy Hx]. unfold mirror. rewrite get_init by assumption. reflexivity.
Qed.

(** ** The kernel filters *)

Lemma interior_iff (k : PIL.Kernel) (im : Grid Z) (y x : nat) :
  PIL.interior k im y x = true <->
  (PIL.border (PIL.size k) <= y)%nat /\ (y + PIL.border (PIL.size k) < ysize im)%nat /\
  (PIL.border (PIL.size k) <= x)%nat /\ (x + PIL.border (PIL.size k) < xsize im)%nat.
Proof.
  unfold PIL.interior. rewrite !andb_true_iff, !Nat.leb_le, !Nat.ltb_lt. tauto.
Qed.

Lemma weighted_sum_mirror (k : PIL.Kernel) (im1 im2 : Grid Z) (y x : nat) :
  In k [kernel_fine; PIL.FIND_EDGES; PIL.CONTOUR; kernel_coarse] ->
  mirrored im1 im2 ->
  PIL.interior k im2 y x = true ->
  PIL.weighted_sum k im1 y x = PIL.weighted_sum k im2 y (xsize im2 - 1 - x).
Proof.
  intros Hk (Hys & Hxs & Hget) Hint.
  apply interior_iff in Hint. unfold inside in Hget.
  generalize dependent (xsize im2). generalize dependent (ysize im2).
  intros h _ w _ Hget Hint. unfold PIL.weighted_sum.
  destruct Hk as [<- | [<- | [<- | [<- | []]]]];
    cbn [PIL.size kernel_fine kernel_coarse PIL.FIND_EDGES PIL.CONTOUR PIL.laplacian3
         PIL.kernel PIL.side PIL.border Nat.mul Nat.add seq flat_map List.map app
         fold_right nth] in *;
    rewrite !Hget by lia.
  1-3: replace (w - 1 - (x + 0 - 1))%nat with (w - 1 - x + 2 - 1)%nat by lia;
       replace (w - 1 - (x + 1 - 1))%nat with (w - 1 - x + 1 - 1)%nat by lia;
       replace (w - 1 - (x + 2 - 1))%nat with (w - 1 - x + 0 - 1)%nat by lia;
       lia.
  replace (w - 1 - (x + 0 - 2))%nat with (w - 1 - x + 4 - 2)%nat by lia.
  replace (w - 1 - (x + 1 - 2))%nat with (w - 1 - x + 3 - 2)%nat by lia.
  replace (w - 1 - (x + 2 - 2))%nat with (w - 1 - x + 2 - 2)%nat by lia.
  replace (w - 1 - (x + 3 - 2))%nat with (w - 1 - x + 1 - 2)%nat by lia.
  replace (w - 1 - (x + 4 - 2))%nat with (w - 1 - x + 0 - 2)%nat by lia.
  lia.
Qed.

Lemma filter_mirrored (k : PIL.Kernel) (im1 im2 : Grid Z) :
  In k [kernel_fine; PIL.FIND_EDGES; PIL.CONTOUR; kernel_coarse] ->
  mirrored im1 im2 -> mirrored (PIL.filter k im1) (PIL.filter k im2).
Proof.
  intros Hk Hm. pose proof Hm as (Hys & Hxs & Hget).
  split; [rewrite !filter_ysize; exact Hys|].
  split; [rewrite !filter_xsize; exact Hxs|].
  intros y x. rewrite filter_xsize. unfold inside.
  rewrite filter_ysize, filter_xsize. intros [Hy Hx].
  unfold PIL.filter. rewrite Hys, Hxs.
  destruct (_ || _)%bool; [apply Hget; split; assumption|].
  rewrite !get_init by lia.
  assert (H1 : PIL.interior k im1 y x = PIL.interior k im2 y x).
  { apply Bool.eq_iff_eq_true. rewrite !interior_iff, Hys, Hxs. tauto. }
  assert (H2 : PIL.interior k im2 y (xsize im2 - 1 - x) = PIL.interior k im2 y x).
  { apply Bool.eq_iff_eq_true. rewrite !interior_iff. lia. }
  rewrite H1, H2.
  destruct (PIL.interior k im2 y x) eqn:Hi.
  - rewrite (weighted_sum_mirror k im1 im2 y x Hk Hm Hi). reflexivity.
  - apply Hget. split; assumption.
Qed.

(** ** The box blur *)

Lemma sum_snoc (n : nat) (f : nat -> Z) :
  fold_right Z.add 0 (List.map f (seq 0 (S n)))
  = fold_right Z.add 0 (List.map f (seq 0 n)) + f n.
Proof.
  rewrite seq_S, List.map_app, fold_right_app. cbn [List.map fold_right Nat.add].
  generalize (seq 0 n). intros l. induction l as [|a l IH]; cbn [List.map fold_right]; lia.
Qed.

Lemma sum_shift (n : nat) (f : nat -> Z) :
  fold_right Z.add 0 (List.map f (seq 0 (S n)))
  = f 0%nat + fold_right Z.add 0 (List.map (fun d => f (S d)) (seq 0 n)).
Proof.
  cbn [seq List.map fold_right]. rewrite <- seq_shift, List.map_map. reflexivity.
Qed.

Lemma sum_ext (n : nat) (f g : nat -> Z) :
  (forall d, (d < n)%nat -> f d = g d) ->
  fold_right Z.add 0 (List.map f (seq 0 n)) = fold_right Z.add 0 (List.map g (seq 0 n)).
Proof.
  intros Hfg. f_equal. apply List.map_ext_in. intros d Hd. apply in_seq in Hd.
  apply Hfg. lia.
Qed.

(** A sum can be read from its last term. *)
Lemma sum_reverse (n : nat) (f : nat -> Z) :
  fold_right Z.add 0 (List.map f (seq 0 n))
  = fold_right Z.add 0 (List.map (fun d => f (n - 1 - d)%nat) (seq 0 n)).
Proof.
  revert f. induction n as [|n IH]; intros f; [reflexivity|].
  rewrite sum_snoc, sum_shift, (IH f).
  replace (S n - 1 - 0)%nat with n by lia.
  rewrite (sum_ext n (fun d => f (S n - 1 - S d)%nat) (fun d => f (n - 1 - d)%nat))
    by (intros d Hd; f_equal; lia).
  lia.
Qed.

Lemma clamp_index_range (n : nat) (i : Z) :
  (0 < n)%nat -> (PIL.clamp_index (Z.of_nat n - 1) i < n)%nat.
Proof. intros Hn. unfold PIL.clamp_index. lia. Qed.

Lemma clamp_index_mirror (n : nat) (i : Z) :
  (0 < n)%nat ->
  PIL.clamp_index (Z.of_nat n - 1) (Z.of_nat n - 1 - i)
  = (n - 1 - PIL.clamp_index (Z.of_nat n - 1) i)%nat.
Proof. intros Hn. unfold PIL.clamp_index. lia. Qed.

Lemma box_sample_ext (radius ww fw : Z) (n : nat) (line1 line2 : nat -> Z) (x : nat) :
  (0 < n)%nat ->
  (forall i, (i < n)%nat -> line1 i = line2 i) ->
  PIL.box_sample radius ww fw (Z.of_nat n - 1) line1 x
  = PIL.box_sample radius ww fw (Z.of_nat n - 1) line2 x.
Proof.
  intros Hn Hline. unfold PIL.box_sample.
  rewrite !(Hline (PIL.clamp_index _ _)) by (apply clamp_index_range; exact Hn).
  rewrite (sum_ext _ _ (fun d => line2 (PIL.clamp_index (Z.of_nat n - 1)
                                          (Z.of_nat x - radius + Z.of_nat d))))
    by (intros d _; apply Hline; apply clamp_index_range; exact Hn).
  reflexivity.
Qed.

Lemma box_sample_mirror (radius ww fw : Z) (n : nat) (line1 line2 : nat -> Z) (x : nat) :
  (x < n)%nat ->
  (forall i, (i < n)%nat -> line1 i = line2 (n - 1 - i)%nat) ->
  PIL.box_sample radius ww fw (Z.of_nat n - 1) line1 x
  = PIL.box_sample radius ww fw (Z.of_nat n - 1) line2 (n - 1 - x).
Proof.
  intros Hx Hline. assert (Hn : (0 < n)%nat) by lia.
  assert (Hat : forall i,
    line1 (PIL.clamp_index (Z.of_nat n - 1) i)
    = line2 (PIL.clamp_index (Z.of_nat n - 1) (Z.of_nat n - 1 - i))).
  { intros i. rewrite clamp_index_mirror by exact Hn.
    apply Hline. apply clamp_index_range. exact Hn. }
  unfold PIL.box_sample.
  set (m := Z.to_nat (2 * radius + 1)).
  assert (Hacc :
    fold_right Z.add 0
      (List.map (fun d => line1 (PIL.clamp_index (Z.of_nat n - 1)
                                   (Z.of_nat x - radius + Z.of_nat d))) (seq 0 m))
    = fold_right Z.add 0
        (List.map (fun d => line2 (PIL.clamp_index (Z.of_nat n - 1)
                                     (Z.of_nat (n - 1 - x) - radius + Z.of_nat d)))
                  (seq 0 m))).
  { rewrite (sum_reverse m (fun d => line2 _)).
    apply sum_ext. intros d Hd. rewrite Hat. f_equal. f_equal. subst m. lia. }
  rewrite Hacc. rewrite !Hat.
  replace (Z.of_nat n - 1 - (Z.of_nat x - radius - 1))
    with (Z.of_nat (n - 1 - x) + radius + 1) by lia.
  replace (Z.of_nat n - 1 - (Z.of_nat x + radius + 1))
    with (Z.of_nat (n - 1 - x) - radius - 1) by lia.
  rewrite (Z.add_comm (line2 (PIL.clamp_index _ (Z.of_nat (n - 1 - x) + radius + 1)))).
  reflexivity.
Qed.

Lemma box_blur_pass_mirrored (r : spec_float) (a b : Grid rgba) :
  mirrored a b ->
  mirrored (PIL.ImagingHorizontalBoxBlur r a) (PIL.ImagingHorizontalBoxBlur r b).
Proof.
  intros (Hys & Hxs & Hget).
  destruct (box_blur_pass_size r a) as [Hya Hxa].
  destruct (box_blur_pass_size r b) as [Hyb Hxb].
  split; [congruence|]. split; [congruence|].
  intros y x [Hy Hx]. rewrite Hyb in Hy. rewrite Hxb in Hx. rewrite Hxb.
  unfold PIL.ImagingHorizontalBoxBlur.
  destruct (PIL.box_weights r) as [[radius ww] fw].
  rewrite !get_init by lia. rewrite Hxs.
  f_equal; apply box_sample_mirror; try exact Hx;
    intros i Hi; rewrite (Hget y i) by (split; assumption); reflexivity.
Qed.

Lemma box_blur_pass_flipped (r : spec_float) (a b : Grid rgba) :
  flipped a b ->
  flipped (PIL.ImagingHorizontalBoxBlur r a) (PIL.ImagingHorizontalBoxBlur r b).
Proof.
  intros (Hys & Hxs & Hget).
  destruct (box_blur_pass_size r a) as [Hya Hxa].
  destruct (box_blur_pass_size r b) as [Hyb Hxb].
  split; [congruence|]. split; [congruence|].
  intros y x [Hy Hx]. rewrite Hyb in Hy. rewrite Hxb in Hx. rewrite Hyb.
  unfold PIL.ImagingHorizontalBoxBlur.
  destruct (PIL.box_weights r) as [[radius ww] fw].
  rewrite !get_init by lia. rewrite Hxs.
  f_equal; apply box_sample_ext; try lia;
    intros i Hi; rewrite (Hget y i) by (split; assumption); reflexivity.
Qed.

Lemma box_blur_passes_mirrored (r : spec_float) (n : nat) (a b : Grid rgba) :
  mirrored a b ->
  mirrored (Nat.iter n (PIL.ImagingHorizontalBoxBlur r) a)
           (Nat.iter n (PIL.ImagingHorizontalBoxBlur r) b).
Proof.
  intros Hm. induction n as [|n IH]; [exact Hm|].
  change (mirrored
    (PIL.ImagingHorizontalBoxBlur r (Nat.iter n (PIL.ImagingHorizontalBoxBlur r) a))
    (PIL.ImagingHorizontalBoxBlur r (Nat.iter n (PIL.ImagingHorizontalBoxBlur r) b))).
  apply box_blur_pass_mirrored. exact IH.
Qed.

Lemma box_blur_passes_flipped (r : spec_float) (n : nat) (a b : Grid rgba) :
  flipped a b ->
  flipped (Nat.iter n (PIL.ImagingHorizontalBoxBlur r) a)
          (Nat.iter n (PIL.ImagingHorizontalBoxBlur r) b).
Proof.
  intros Hm. induction n as [|n IH]; [exact Hm|].
  change (flipped
    (PIL.ImagingHorizontalBoxBlur r (Nat.iter n (PIL.ImagingHorizontalBoxBlur r) a))
    (PIL.ImagingHorizontalBoxBlur r (Nat.iter n (PIL.ImagingHorizontalBoxBlur r) b))).
  apply box_blur_pass_flipped. exact IH.
Qed.

Lemma transpose_mirrored (a b : Grid rgba) :
  mirrored a b -> flipped (PIL.ImagingTranspose a) (PIL.ImagingTranspose b).
Proof.
  intros (Hys & Hxs & Hget). unfold PIL.ImagingTranspose.
  split; [exact Hxs|]. split; [exact Hys|].
  intros y x [Hy Hx]. cbn [ysize xsize Grid.init] in *.
  rewrite !get_init by lia. apply Hget. split; assumption.
Qed.

Lemma transpose_flipped (a b : Grid rgba) :
  flipped a b -> mirrored (PIL.ImagingTranspose a) (PIL.ImagingTranspose b).
Proof.
  intros (Hys & Hxs & Hget). unfold PIL.ImagingTranspose.
  split; [exact Hxs|]. split; [exact Hys|].
  intros y x [Hy Hx]. cbn [ysize xsize Grid.init] in *.
  rewrite !get_init by lia. apply Hget. split; assumption.
Qed.

Lemma GaussianBlur_mirrored (radius : Z) (a b : Grid rgba) :
  mirrored a b -> mirrored (PIL.GaussianBlur radius a) (PIL.GaussianBlur radius b).
Proof.
  intros Hm. unfold PIL.GaussianBlur. destruct (radius =? 0); [exact Hm|].
  unfold PIL.ImagingBoxBlur.
  apply transpose_flipped, box_blur_passes_flipped, transpose_mirrored,
    box_blur_passes_mirrored.
  exact Hm.
Qed.

(** ** The pipeline *)

Section Mirrored.

Variables img1 img2 : Image.
Hypothesis Hm : mirrored img1 img2.

Lemma mirrored_inside (y x : nat) :
  inside img2 y x -> inside img1 y x /\ inside img2 y (xsize img2 - 1 - x).
Proof. destruct Hm as (Hys & Hxs & _). unfold inside. lia. Qed.

Lemma gray_mirrored : mirrored (gray img1) (gray img2).
Proof.
  pose proof Hm as (Hys & Hxs & Hget).
  split; [exact Hys|]. split; [exact Hxs|].
  intros y x Hin. change (xsize (gray img2)) with (xsize img2).
  destruct (mirrored_inside y x Hin) as [Hin1 Hin2].
  rewrite !gray_at by assumption. rewrite (Hget y x Hin). reflexivity.
Qed.

Lemma edges_mirrored (k : PIL.Kernel) (y x : nat) :
  In k [kernel_fine; PIL.FIND_EDGES; PIL.CONTOUR; kernel_coarse] ->
  inside img2 y x ->
  Grid.get (PIL.filter k (gray img1)) y x
  = Grid.get (PIL.filter k (gray img2)) y (xsize img2 - 1 - x).
Proof.
  intros Hk Hin.
  destruct (filter_mirrored k (gray img1) (gray img2) Hk gray_mirrored) as (_ & _ & Hget).
  rewrite (Hget y x) by (apply inside_filter; exact Hin).
  rewrite filter_xsize. reflexivity.
Qed.

Lemma result_mirrored : mirrored (result img1) (result img2).
Proof.
  pose proof Hm as (Hys & Hxs & _).
  split; [exact Hys|]. split; [exact Hxs|].
  intros y x Hin. change (xsize (result img2)) with (xsize img2).
  change (inside img2 y x) in Hin.
  destruct (mirrored_inside y x Hin) as [Hin1 Hin2].
  rewrite !result_at, !combined_at, !arr_offset_at by assumption.
  unfold edges_fine, edges_medium, edges_coarse, edges_offset.
  rewrite !(edges_mirrored _ y x) by (cbn; tauto || exact Hin).
  destruct gray_mirrored as (_ & _ & Hgray). rewrite (Hgray y x Hin).
  reflexivity.
Qed.

Lemma glow_mirrored : mirrored (glow img1) (glow img2).
Proof. unfold glow. apply GaussianBlur_mirrored. exact result_mirrored. Qed.

Lemma composited_mirrored : mirrored (composited img1) (composited img2).
Proof.
  pose proof Hm as (Hys & Hxs & _).
  destruct (glow_img_size img1) as [Hy1 Hx1]. destruct (glow_img_size img2) as [Hy2 Hx2].
  change (ysize img1 = ysize img2) in Hys. change (xsize img1 = xsize img2) in Hxs.
  split; [|split].
  - change (ysize (glow_img img1) = ysize (glow_img img2)). congruence.
  - change (xsize (glow_img img1) = xsize (glow_img img2)). congruence.
  - intros y x Hin.
    change (xsize (composited img2)) with (xsize (glow_img img2)). rewrite Hx2.
    assert (Hin' : inside img2 y x).
    { unfold inside in *. change (ysize (composited img2)) with (ysize (glow_img img2)) in Hin.
      change (xsize (composited img2)) with (xsize (glow_img img2)) in Hin.
      rewrite Hy2, Hx2 in Hin. exact Hin. }
    destruct (mirrored_inside y x Hin') as [Hin1 Hin2].
    rewrite !composited_at, !glow_img_at by assumption.
    destruct glow_mirrored as (_ & Hgx & Hglow).
    destruct result_mirrored as (_ & _ & Hres).
    assert (Hg : inside (glow img2) y x).
    { unfold inside, glow. destruct (GaussianBlur_size 2 (out_img img2)) as [-> ->].
      exact Hin'. }
    rewrite (Hglow y x Hg).
    assert (Hw : xsize (glow img2) = xsize img2).
    { unfold glow. apply (GaussianBlur_size 2 (out_img img2)). }
    rewrite Hw. unfold out_img. rewrite (Hres y x Hin'). reflexivity.
Qed.

End Mirrored.

(** X14: the pipeline commutes with mirroring: the output for the image
    read from right to left is the output for the image, read from right
    to left. *)
Theorem final_commutes_with_mirror (img : Image) :
  exists out, final img = Some out /\ final (mirror img) = Some (mirror out).
Proof.
  exists (composited img). split; [apply final_total|].
  rewrite final_total. f_equal.
  destruct (composited_mirrored (mirror img) img (mirror_mirrored img))
    as (Hys & Hxs & Hget).
  unfold mirror at 2. unfold composited at 1, Grid.map2.
  apply init_eq.
  - exact Hys.
  - exact Hxs.
  - intros y x Hy Hx. cbv beta.
    destruct (glow_img_size (mirror img)) as [Ey Ex]. rewrite Ey in Hy. rewrite Ex in Hx.
    rewrite <- (composited_at (mirror img) y x) by (split; assumption).
    apply Hget. unfold inside. rewrite <- Hys, <- Hxs.
    change (ysize (composited (mirror img))) with (ysize (glow_img (mirror img))).
    change (xsize (composited (mirror img))) with (xsize (glow_img (mirror img))).
    rewrite Ey, Ex. split; assumption.
Qed.

(* ===================================================================== *)
(** * Edges *)
(* ===================================================================== *)

Ltac decide_columns :=
  repeat match goal with
         | |- context [(?a <? ?b)%nat] =>
             destruct (Nat.ltb_spec a b); [try lia | try lia]
         end.

(** The window sums of the kernels on a vertical step from [lo] to [hi]
    whose first bright column is the column of the position. *)
Lemma weighted_sum_step (k : PIL.Kernel) (im : Grid Z) (y x : nat) (lo hi : Z) :
  (2 <= x)%nat ->
  (forall y' x', in_window y x y' x' ->
     Grid.get im y' x' = if (x' <? x)%nat then lo else hi) ->
  (In k [kernel_fine; PIL.FIND_EDGES; PIL.CONTOUR] ->
     PIL.weighted_sum k im y x = 3 * (hi - lo)) /\
  (k = kernel_coarse -> PIL.weighted_sum k im y x = 10 * (hi - lo)).
Proof.
  intros Hx Hstep. unfold PIL.weighted_sum. split.
  - intros [<- | [<- | [<- | []]]];
      cbn [PIL.size kernel_fine PIL.FIND_EDGES PIL.CONTOUR PIL.laplacian3
           PIL.kernel PIL.side PIL.border Nat.mul Nat.add seq flat_map List.map app
           fold_right nth];
      rewrite !Hstep by (unfold in_window; lia); decide_columns.
  - intros ->.
    cbn [PIL.size kernel_coarse PIL.kernel PIL.side PIL.border Nat.mul Nat.add seq
         flat_map List.map app fold_right nth].
    rewrite !Hstep by (unfold in_window; lia). decide_columns.
Qed.

Lemma step_detection (d : Z) :
  in_u8 d ->
  is_edge (combine (PIL.clip8 (0 + 3 * d)) (PIL.clip8 (0 + 3 * d)) (PIL.clip8 (0 + 10 * d)))
  = (3 <=? d).
Proof.
  intros Hd.
  assert (Hall : all_u8 (fun d => Bool.eqb
      (is_edge (combine (PIL.clip8 (0 + 3 * d)) (PIL.clip8 (0 + 3 * d))
                        (PIL.clip8 (0 + 10 * d)))) (3 <=? d)) = true)
    by (vm_compute; reflexivity).
  apply Bool.eqb_prop. exact (all_u8_spec _ Hall d Hd).
Qed.

(** X15: a vertical step in luminance is drawn on its bright side as soon
    as it is 3 levels high: at a position at least two pixels away from
    the frame whose 5x5 window has luminance [lo] on the columns to its
    left and [hi >= lo] from its own column on, the pixel is in
    [edge_mask], hence cyan, exactly when [hi - lo >= 3]. *)
Theorem step_edge_is_drawn (img : Image) (y x : nat) (lo hi : Z) :
  interior5 img y x ->
  (forall y' x', in_window y x y' x' ->
     Grid.get (gray img) y' x' = if (x' <? x)%nat then lo else hi) ->
  lo <= hi ->
  Grid.get (edge_mask img) y x = (3 <=? hi - lo).
Proof.
  intros Hint Hstep Hle. pose proof (interior5_inside img y x Hint) as Hin.
  pose proof Hint as (_ & _ & Hx & Hx').
  assert (Hhi : in_u8 hi).
  { pose proof (gray_range img y x Hin) as Hg.
    rewrite (Hstep y x) in Hg by (unfold in_window; lia).
    destruct (Nat.ltb_spec x x); [lia | exact Hg]. }
  assert (Hlo : in_u8 lo).
  { pose proof (gray_range img y (x - 1) ltac:(unfold inside in *; lia)) as Hg.
    rewrite (Hstep y (x - 1)%nat) in Hg by (unfold in_window; lia).
    destruct (Nat.ltb_spec (x - 1) x); [exact Hg | lia]. }
  rewrite edge_mask_at, combined_at by exact Hin.
  unfold edges_fine, edges_medium, edges_coarse.
  rewrite !filter_interior by exact Hint.
  rewrite (proj1 (weighted_sum_step kernel_fine (gray img) y x lo hi Hx Hstep))
    by (cbn; tauto).
  rewrite (proj1 (weighted_sum_step PIL.FIND_EDGES (gray img) y x lo hi Hx Hstep))
    by (cbn; tauto).
  rewrite (proj2 (weighted_sum_step kernel_coarse (gray img) y x lo hi Hx Hstep))
    by reflexivity.
  change (PIL.offset kernel_fine) with 0. change (PIL.offset PIL.FIND_EDGES) with 0.
  change (PIL.offset kernel_coarse) with 0.
  apply step_detection. unfold in_u8 in *. lia.
Qed.

Lemma step_edge_is_drawn_witness :
  interior5 step7x8 3 4 /\ Grid.get (edge_mask step7x8) 3 4 = true.
Proof.
  assert (Hint : interior5 step7x8 3 4) by (unfold interior5; cbn; lia).
  split; [exact Hint|].
  apply (step_edge_is_drawn step7x8 3 4 10 200 Hint); [|lia].
  intros y' x' (Hy1 & Hy2 & Hx1 & Hx2).
  rewrite gray_at by (unfold inside; cbn; lia).
  unfold step7x8. rewrite get_init by lia.
  destruct (x' <? 4)%nat; reflexivity.
Defined.

(* ===================================================================== *)
(** * The reach of the glow *)
(* ===================================================================== *)

(** The blur of radius 2 is made of box blurs of radius 1 with two
    fractional end cells. *)
Lemma box_weights_radius2 :
  PIL.box_weights (PIL.gaussian_box_radius 2 3) = (1, 4473924, 1677722).
Proof. vm_compute. reflexivity. Qed.

Lemma box_sample_local (ww fw : Z) (n : nat) (line1 line2 : nat -> Z) (x : nat) :
  (x < n)%nat ->
  (forall i, (i < n)%nat -> (x <= i + 2)%nat -> (i <= x + 2)%nat -> line1 i = line2 i) ->
  PIL.box_sample 1 ww fw (Z.of_nat n - 1) line1 x
  = PIL.box_sample 1 ww fw (Z.of_nat n - 1) line2 x.
Proof.
  intros Hx Hline. unfold PIL.box_sample.
  change (Z.to_nat (2 * 1 + 1)) with 3%nat. cbn [seq List.map fold_right].
  rewrite !(Hline (PIL.clamp_index _ _)) by (unfold PIL.clamp_index; lia).
  reflexivity.
Qed.

Lemma box_blur_pass_near (r : spec_float) (ww fw : Z) (dy dx : nat) (a b : Grid rgba)
    (y x : nat) :
  PIL.box_weights r = (1, ww, fw) ->
  agree_near dy (dx + 2) a b y x ->
  agree_near dy dx (PIL.ImagingHorizontalBoxBlur r a) (PIL.ImagingHorizontalBoxBlur r b) y x.
Proof.
  intros Hr (Hys & Hxs & Hget).
  destruct (box_blur_pass_size r a) as [Hya Hxa].
  destruct (box_blur_pass_size r b) as [Hyb Hxb].
  split; [congruence|]. split; [congruence|].
  intros y' x' [Hy Hx] Hnear. rewrite Hyb in Hy. rewrite Hxb in Hx.
  unfold PIL.ImagingHorizontalBoxBlur. rewrite Hr.
  rewrite !get_init by lia. rewrite Hxs.
  f_equal; apply box_sample_local; try exact Hx;
    intros i Hi Hlo Hhi; rewrite (Hget y' i);
      [reflexivity | split; assumption | unfold near in *; lia
      |reflexivity | split; assumption | unfold near in *; lia
      |reflexivity | split; assumption | unfold near in *; lia
      |reflexivity | split; assumption | unfold near in *; lia].
Qed.

Lemma box_blur_passes_near (r : spec_float) (ww fw : Z) (dy dx : nat) (a b : Grid rgba)
    (y x : nat) :
  PIL.box_weights r = (1, ww, fw) ->
  agree_near dy (dx + 6) a b y x ->
  agree_near dy dx (Nat.iter 3 (PIL.ImagingHorizontalBoxBlur r) a)
                   (Nat.iter 3 (PIL.ImagingHorizontalBoxBlur r) b) y x.
Proof.
  intros Hr Hab. cbn [Nat.iter].
  apply (box_blur_pass_near r ww fw dy dx _ _ y x Hr).
  apply (box_blur_pass_near r ww fw dy (dx + 2) _ _ y x Hr).
  apply (box_blur_pass_near r ww fw dy (dx + 2 + 2) _ _ y x Hr).
  replace (dx + 2 + 2 + 2)%nat with (dx + 6)%nat by lia. exact Hab.
Qed.

Lemma transpose_near (dy dx : nat) (a b : Grid rgba) (y x : nat) :
  agree_near dy dx a b y x ->
  agree_near dx dy (PIL.ImagingTranspose a) (PIL.ImagingTranspose b) x y.
Proof.
  intros (Hys & Hxs & Hget). unfold PIL.ImagingTranspose.
  split; [exact Hxs|]. split; [exact Hys|].
  intros y' x' [Hy Hx] Hnear. cbn [ysize xsize Grid.init] in *.
  rewrite !get_init by lia. apply Hget; [split; assumption | unfold near in *; lia].
Qed.

Lemma GaussianBlur_near (a b : Grid rgba) (y x : nat) :
  agree_near 6 6 a b y x ->
  agree_near 0 0 (PIL.GaussianBlur 2 a) (PIL.GaussianBlur 2 b) y x.
Proof.
  intros Hab. unfold PIL.GaussianBlur. change (2 =? 0) with false. cbv iota.
  unfold PIL.ImagingBoxBlur.
  apply transpose_near.
  apply (box_blur_passes_near _ _ _ 0 0 _ _ x y box_weights_radius2).
  apply transpose_near.
  apply (box_blur_passes_near _ _ _ 6 0 _ _ y x box_weights_radius2).
  exact Hab.
Qed.

Lemma composited_local (img1 img2 : Image) (y x : nat) :
  ysize img1 = ysize img2 -> xsize img1 = xsize img2 ->
  inside img1 y x ->
  (forall y' x', near 8 8 y x y' x' ->
     Grid.get (gray img1) y' x' = Grid.get (gray img2) y' x') ->
  Grid.get (composited img1) y x = Grid.get (composited img2) y x.
Proof.
  intros Hys Hxs Hin1 Hsame.
  assert (Hin2 : inside img2 y x) by (unfold inside in *; lia).
  assert (Hres : agree_near 6 6 (out_img img1) (out_img img2) y x).
  { split; [exact Hys|]. split; [exact Hxs|].
    intros y' x' Hin' Hnear. unfold out_img. apply result_local.
    - exact Hys.
    - exact Hxs.
    - unfold inside in *. change (ysize (out_img img2)) with (ysize img2) in Hin'.
      change (xsize (out_img img2)) with (xsize img2) in Hin'. lia.
    - intros y'' x'' Hwin. apply Hsame. unfold near, in_window in *. lia. }
  destruct (GaussianBlur_near _ _ y x Hres) as (_ & _ & Hglow).
  fold (glow img1) in Hglow. fold (glow img2) in Hglow.
  assert (Hg : inside (glow img2) y x).
  { unfold inside, glow. destruct (GaussianBlur_size 2 (out_img img2)) as [-> ->].
    exact Hin2. }
  rewrite !composited_at, !glow_img_at by assumption.
  rewrite (Hglow y x Hg) by (unfold near; lia).
  destruct Hres as (_ & _ & Hres). rewrite (Hres y x Hin2) by (unfold near; lia).
  reflexivity.
Qed.

(** X16: the output pixel is local: it is determined by the size of the
    image and by the luminance within 8 rows and 8 columns of its
    position (2 for the kernels, 6 for the three box blurs of the glow).
    Two images of the same size that agree there have the same output
    pixel at that position. *)
Theorem final_is_local (img1 img2 : Image) (y x : nat) :
  ysize img1 = ysize img2 -> xsize img1 = xsize img2 ->
  inside img1 y x ->
  (forall y' x', near 8 8 y x y' x' ->
     Grid.get (gray img1) y' x' = Grid.get (gray img2) y' x') ->
  exists out1 out2,
    final img1 = Some out1 /\ final img2 = Some out2 /\
    Grid.get out1 y x = Grid.get out2 y x.
Proof.
  intros Hys Hxs Hin Hsame.
  exists (composited img1), (composited img2).
  split; [apply final_total|]. split; [apply final_total|].
  apply composited_local; assumption.
Qed.

Lemma final_is_local_witness :
  inside (strip20 black) 0 0 /\
  exists out1 out2,
    final (strip20 black) = Some out1 /\ final (strip20 white) = Some out2 /\
    Grid.get out1 0 0 = Grid.get out2 0 0.
Proof.
  assert (Hin : inside (strip20 black) 0 0) by (unfold inside; cbn; lia).
  split; [exact Hin|].
  apply (final_is_local (strip20 black) (strip20 white) 0 0 eq_refl eq_refl Hin).
  intros y' x' (Hy1 & Hy2 & Hx1 & Hx2).
  assert (Hy0 : y' = 0%nat \/ (1 <= y')%nat) by lia.
  destruct Hy0 as [-> | Hy0].
  - rewrite !gray_at by (unfold inside; cbn; lia).
    unfold strip20. rewrite !get_init by lia.
    destruct (Nat.eqb_spec x' 19); [lia | reflexivity].
  - rewrite !(get_outside (gray _)) by (try apply wf_init; unfold inside; cbn; lia).
    reflexivity.
Defined.




(* ===================================================================== *)
(** * The glow compositor against the specification *)
(* ===================================================================== *)

(** ** The blur *)

Lemma nearest_in_line_range (n : nat) (i : Z) :
  (0 < n)%nat -> (nearest_in_line n i < n)%nat.
Proof. intros Hn. unfold nearest_in_line. lia. Qed.

Lemma mean5_range (n : nat) (line : nat -> Z) (x : nat) :
  (x < n)%nat -> (forall i, (i < n)%nat -> in_u8 (line i)) -> in_u8 (mean5 n line x).
Proof.
  intros Hx Hline. assert (Hn : (0 < n)%nat) by lia. unfold mean5.
  pose proof (Hline _ (nearest_in_line_range n (Z.of_nat x + -2) Hn)) as H1.
  pose proof (Hline _ (nearest_in_line_range n (Z.of_nat x + -1) Hn)) as H2.
  pose proof (Hline _ (nearest_in_line_range n (Z.of_nat x + 0) Hn)) as H3.
  pose proof (Hline _ (nearest_in_line_range n (Z.of_nat x + 1) Hn)) as H4.
  pose proof (Hline _ (nearest_in_line_range n (Z.of_nat x + 2) Hn)) as H5.
  generalize dependent (line (nearest_in_line n (Z.of_nat x + -2))).
  generalize dependent (line (nearest_in_line n (Z.of_nat x + -1))).
  generalize dependent (line (nearest_in_line n (Z.of_nat x + 0))).
  generalize dependent (line (nearest_in_line n (Z.of_nat x + 1))).
  generalize dependent (line (nearest_in_line n (Z.of_nat x + 2))).
  unfold in_u8, tap_far, tap_near. intros.
  change (2 ^ 23) with 8388608. change (2 ^ 24) with 16777216.
  split; Z.div_mod_to_equations; lia.
Qed.

Lemma mean5_ext (n : nat) (line1 line2 : nat -> Z) (x : nat) :
  (x < n)%nat -> (forall i, (i < n)%nat -> line1 i = line2 i) ->
  mean5 n line1 x = mean5 n line2 x.
Proof.
  intros Hx Hline. assert (Hn : (0 < n)%nat) by lia. unfold mean5.
  rewrite !(Hline (nearest_in_line _ _)) by (apply nearest_in_line_range; exact Hn).
  reflexivity.
Qed.

Lemma box_sample_is_mean5 (n : nat) (line : nat -> Z) (x : nat) :
  (x < n)%nat -> (forall i, (i < n)%nat -> in_u8 (line i)) ->
  PIL.box_sample 1 4473924 1677722 (Z.of_nat n - 1) line x = mean5 n line x.
Proof.
  intros Hx Hline. assert (Hn : (0 < n)%nat) by lia.
  unfold PIL.box_sample, mean5.
  change (Z.to_nat (2 * 1 + 1)) with 3%nat. cbn [seq List.map fold_right].
  assert (Hidx : forall i, PIL.clamp_index (Z.of_nat n - 1) i = nearest_in_line n i).
  { intros i. unfold PIL.clamp_index, nearest_in_line. f_equal. lia. }
  rewrite !Hidx.
  replace (Z.of_nat x - 1 + Z.of_nat 0) with (Z.of_nat x + -1) by lia.
  replace (Z.of_nat x - 1 + Z.of_nat 1) with (Z.of_nat x + 0) by lia.
  replace (Z.of_nat x - 1 + Z.of_nat 2) with (Z.of_nat x + 1) by lia.
  replace (Z.of_nat x - 1 - 1) with (Z.of_nat x + -2) by lia.
  replace (Z.of_nat x + 1 + 1) with (Z.of_nat x + 2) by lia.
  pose proof (Hline _ (nearest_in_line_range n (Z.of_nat x + -2) Hn)) as H1.
  pose proof (Hline _ (nearest_in_line_range n (Z.of_nat x + -1) Hn)) as H2.
  pose proof (Hline _ (nearest_in_line_range n (Z.of_nat x + 0) Hn)) as H3.
  pose proof (Hline _ (nearest_in_line_range n (Z.of_nat x + 1) Hn)) as H4.
  pose proof (Hline _ (nearest_in_line_range n (Z.of_nat x + 2) Hn)) as H5.
  generalize dependent (line (nearest_in_line n (Z.of_nat x + -2))).
  generalize dependent (line (nearest_in_line n (Z.of_nat x + -1))).
  generalize dependent (line (nearest_in_line n (Z.of_nat x + 0))).
  generalize dependent (line (nearest_in_line n (Z.of_nat x + 1))).
  generalize dependent (line (nearest_in_line n (Z.of_nat x + 2))).
  unfold in_u8, tap_far, tap_near. intros a5 H5 a4 H4 a3 H3 a2 H2 a1 H1.
  change (2 ^ 23) with 8388608. change (2 ^ 24) with 16777216.
  rewrite (u32_small ((a2 + (a3 + (a4 + 0))) * 4473924))
    by (change (2 ^ 32) with 4294967296; lia).
  rewrite (u32_small ((a1 + a5) * 1677722))
    by (change (2 ^ 32) with 4294967296; lia).
  rewrite (u32_small ((a2 + (a3 + (a4 + 0))) * 4473924 + (a1 + a5) * 1677722))
    by (change (2 ^ 32) with 4294967296; lia).
  rewrite (u32_small _) by (change (2 ^ 32) with 4294967296; lia).
  rewrite Z.shiftr_div_pow2 by lia. change (2 ^ 24) with 16777216.
  replace ((a2 + (a3 + (a4 + 0))) * 4473924 + (a1 + a5) * 1677722 + 8388608)
    with (1677722 * a1 + 4473924 * a2 + 4473924 * a3 + 4473924 * a4 + 1677722 * a5
          + 8388608) by lia.
  apply u8_small. unfold in_u8. split; Z.div_mod_to_equations; lia.
Qed.

Lemma rows_pass_is_spec (im : Grid rgba) :
  (forall y x, inside im y x -> pixel_u8 (Grid.get im y x)) ->
  PIL.ImagingHorizontalBoxBlur (PIL.gaussian_box_radius 2 3) im = blur_rows_spec im.
Proof.
  intros Hu. unfold PIL.ImagingHorizontalBoxBlur. rewrite box_weights_radius2.
  unfold blur_rows_spec. apply init_ext. intros y x Hy Hx.
  f_equal; apply box_sample_is_mean5; try exact Hx;
    intros i Hi; apply get_band_u8; apply Hu; split; assumption.
Qed.

Lemma blur_rows_spec_u8 (im : Grid rgba) :
  (forall y x, inside im y x -> pixel_u8 (Grid.get im y x)) ->
  forall y x, inside (blur_rows_spec im) y x -> pixel_u8 (Grid.get (blur_rows_spec im) y x).
Proof.
  intros Hu y x [Hy Hx]. unfold blur_rows_spec in *. cbn [ysize xsize Grid.init] in Hy, Hx.
  rewrite get_init by assumption. unfold pixel_u8. cbn [red green blue alpha].
  repeat split; apply mean5_range; try exact Hx;
    intros i Hi; apply get_band_u8; apply Hu; split; assumption.
Qed.

Lemma blur_columns_spec_u8 (im : Grid rgba) :
  (forall y x, inside im y x -> pixel_u8 (Grid.get im y x)) ->
  forall y x, inside (blur_columns_spec im) y x ->
              pixel_u8 (Grid.get (blur_columns_spec im) y x).
Proof.
  intros Hu y x [Hy Hx]. unfold blur_columns_spec in *.
  cbn [ysize xsize Grid.init] in Hy, Hx.
  rewrite get_init by assumption. unfold pixel_u8. cbn [red green blue alpha].
  repeat split; apply mean5_range; try exact Hy;
    intros i Hi; apply get_band_u8; apply Hu; split; assumption.
Qed.

Lemma columns_pass_is_spec (im : Grid rgba) :
  (forall y x, inside im y x -> pixel_u8 (Grid.get im y x)) ->
  PIL.ImagingHorizontalBoxBlur (PIL.gaussian_box_radius 2 3) (PIL.ImagingTranspose im)
  = PIL.ImagingTranspose (blur_columns_spec im).
Proof.
  intros Hu. unfold PIL.ImagingHorizontalBoxBlur. rewrite box_weights_radius2.
  unfold PIL.ImagingTranspose at 3.
  apply init_eq; [reflexivity | reflexivity |].
  intros y x Hy Hx. cbn [ysize xsize PIL.ImagingTranspose Grid.init] in Hy, Hx.
  unfold blur_columns_spec. rewrite get_init by assumption.
  change (xsize (PIL.ImagingTranspose im)) with (ysize im).
  assert (Hline : forall c i, (i < ysize im)%nat ->
            get_band c (Grid.get (PIL.ImagingTranspose im) y i)
            = get_band c (Grid.get im i y)).
  { intros c i Hi. unfold PIL.ImagingTranspose. rewrite get_init by assumption.
    reflexivity. }
  f_equal;
    (rewrite box_sample_is_mean5;
     [apply mean5_ext; [exact Hx | intros i Hi; apply Hline; exact Hi]
     | exact Hx
     | intros i Hi; rewrite Hline by exact Hi; apply get_band_u8; apply Hu;
       split; assumption]).
Qed.

Lemma transpose_transpose_init (h w : nat) (f : nat -> nat -> rgba) :
  PIL.ImagingTranspose (PIL.ImagingTranspose (Grid.init h w f)) = Grid.init h w f.
Proof.
  unfold PIL.ImagingTranspose at 1. apply init_eq; [reflexivity | reflexivity |].
  intros y x Hy Hx. cbn [ysize xsize PIL.ImagingTranspose Grid.init] in Hy, Hx.
  unfold PIL.ImagingTranspose. cbn [ysize xsize Grid.init].
  rewrite !get_init by assumption. reflexivity.
Qed.

Lemma GaussianBlur_is_spec (im : Grid rgba) :
  (forall y x, inside im y x -> pixel_u8 (Grid.get im y x)) ->
  PIL.GaussianBlur 2 im = gaussian_blur_spec im.
Proof.
  intros Hu. unfold PIL.GaussianBlur. change (2 =? 0) with false. cbv iota.
  unfold PIL.ImagingBoxBlur, gaussian_blur_spec.
  set (r := PIL.gaussian_box_radius 2 3).
  change (Nat.iter 3 (PIL.ImagingHorizontalBoxBlur r) im)
    with (PIL.ImagingHorizontalBoxBlur r (PIL.ImagingHorizontalBoxBlur r
            (PIL.ImagingHorizontalBoxBlur r im))).
  pose proof (blur_rows_spec_u8 im Hu) as Hu1.
  pose proof (blur_rows_spec_u8 _ Hu1) as Hu2.
  pose proof (blur_rows_spec_u8 _ Hu2) as Hu3.
  pose proof (blur_columns_spec_u8 _ Hu3) as Hu4.
  pose proof (blur_columns_spec_u8 _ Hu4) as Hu5.
  subst r.
  rewrite (rows_pass_is_spec im Hu), (rows_pass_is_spec _ Hu1), (rows_pass_is_spec _ Hu2).
  set (g := blur_rows_spec (blur_rows_spec (blur_rows_spec im))) in *.
  set (r := PIL.gaussian_box_radius 2 3).
  change (Nat.iter 3 (PIL.ImagingHorizontalBoxBlur r) (PIL.ImagingTranspose g))
    with (PIL.ImagingHorizontalBoxBlur r (PIL.ImagingHorizontalBoxBlur r
            (PIL.ImagingHorizontalBoxBlur r (PIL.ImagingTranspose g)))).
  subst r.
  rewrite (columns_pass_is_spec g Hu3), (columns_pass_is_spec _ Hu4),
          (columns_pass_is_spec _ Hu5).
  unfold blur_columns_spec at 1. apply transpose_transpose_init.
Qed.

Lemma glow_is_spec (img : Image) : glow img = gaussian_blur_spec (out_img img).
Proof. unfold glow. apply GaussianBlur_is_spec. intros y x. apply out_img_u8. Qed.

Lemma glow_img_is_spec (img : Image) : glow_img img = glow_buffer_spec (out_img img).
Proof.
  unfold glow_buffer_spec. rewrite <- glow_is_spec.
  unfold glow_img, glow_arr, np.store_channel.
  unfold Grid.map2, Grid.map.
  apply init_ext. intros y x Hy Hx.
  assert (Hg : inside (glow img) y x) by (split; assumption).
  assert (Hin : inside img y x).
  { unfold inside, glow in Hg. destruct (GaussianBlur_size 2 (out_img img)) as [Ey Ex].
    rewrite Ey, Ex in Hg. exact Hg. }
  unfold np.astype_uint8, np.clip, np.mul_f32, np.array_float32, np.channel.
  rewrite !get_map by exact Hg.
  change (get_band band3 (Grid.get (glow img) y x)) with (alpha (Grid.get (glow img) y x)).
  f_equal. apply (glow_alpha_value (alpha (Grid.get (glow img) y x))).
  apply (glow_at img y x Hin).
Qed.

(** C6: the glow is the blur of the whole pre-glow RGBA buffer by three
    passes along the rows and three along the columns of a five-sample
    mean whose weights have mass 1 and, over the three passes, variance
    [2^2] to within [8 / 2^24]: the box approximation of the Gaussian of
    radius 2.  The glow buffer is that blur with its alpha halved and
    clamped to 128, and the saved image is, at every position, the sharp
    pre-glow pixel (the foreground) composited "over" the pixel of the
    glow buffer (the background) with straight alpha. *)
Theorem glow_compositor_refines_spec (img : Image) :
  glow img = gaussian_blur_spec (out_img img) /\
  kernel_mass = 2 ^ 24 /\
  0 <= 3 * kernel_second_moment - 2 ^ 2 * 2 ^ 24 <= 8 /\
  glow_img img = glow_buffer_spec (out_img img) /\
  exists out,
    final img = Some out /\
    forall y x, inside img y x ->
      Grid.get out y x
      = PIL.composite_pixel (Grid.get (glow_img img) y x) (Grid.get (out_img img) y x) /\
      is_over (Grid.get out y x) (Grid.get (out_img img) y x)
              (Grid.get (glow_img img) y x).
Proof.
  split; [apply glow_is_spec|].
  split; [reflexivity|].
  split; [unfold kernel_second_moment, tap_far, tap_near; lia|].
  split; [apply glow_img_is_spec|].
  exists (composited img). split; [apply final_total|].
  intros y x Hin. rewrite composited_at by exact Hin.
  split; [reflexivity|].
  apply composite_is_over.
  - apply out_img_u8. exact Hin.
  - apply glow_img_u8. exact Hin.
Qed.
